(** * Dovetail gland calculator: the calculation core of [script.js]

    A shallow embedding of the engineering core of the O-ring / dovetail
    gland analyzer (unit conversion, gland geometry, thermal calculation,
    warning rules, AS568 catalog parser) and the properties stated about it.

    JavaScript Numbers are IEEE 754 binary64 values.  The arithmetic of the
    script is written once, over an interface [Arith] of the operations the
    script uses, and read in two ways:
    - [DoubleArith]: binary64 (Rocq's primitive floats), with the
      implementation-approximated functions of [Math] taken from a host
      record [MathLib];
    - [RealArith]: exact real arithmetic, the idealisation in which the
      geometric statements (positivity, symmetry, continuity) are meant. *)

From Stdlib Require Import ZArith QArith List Sorted Permutation Bool Lia Lra.
From Stdlib Require Import Reals.
From Stdlib Require Floats.
From Stdlib Require Import String Ascii.
Import ListNotations.

Set Warnings "-inexact-float".

(** ** Numbers *)

(** The operations of JavaScript Numbers that the script uses.  Comparisons
    are the JavaScript ones: they answer [false] when an operand is NaN. *)
Class Arith : Type := {
  num : Type;
  lit : Q -> num;                    (* a numeric literal of the source *)
  Math_PI : num;
  add : num -> num -> num;
  sub : num -> num -> num;
  mul : num -> num -> num;
  div : num -> num -> num;
  ltb : num -> num -> bool;          (* a < b *)
  leb : num -> num -> bool;          (* a <= b *)
  isFinite : num -> bool;            (* Number.isFinite *)
  Math_cos : num -> num;
  Math_tan : num -> num;
  Math_acos : num -> num;
  Math_sqrt : num -> num;
  sameValueZero : num -> num -> bool;  (* equality of Set members *)
  setKey : num -> num                  (* Set.prototype.add stores -0 as +0 *)
}.

Declare Scope num_scope.
Delimit Scope num_scope with num.
Bind Scope num_scope with num.

Notation "# q" := (lit q%Q) (at level 1, format "# q") : num_scope.
Infix "+" := add : num_scope.
Infix "-" := sub : num_scope.
Infix "*" := mul : num_scope.
Infix "/" := div : num_scope.
Infix "<?" := ltb : num_scope.
Infix "<=?" := leb : num_scope.
Notation "a >? b" := (ltb b a) (at level 70, no associativity) : num_scope.
Notation "a >=? b" := (leb b a) (at level 70, no associativity) : num_scope.

(** Exposes the operations of the arithmetic at hand. *)
Ltac unfold_arith :=
  cbv [num lit Math_PI add sub mul div ltb leb isFinite
       Math_cos Math_tan Math_acos Math_sqrt sameValueZero setKey].

(** ** Strings *)

(** A JavaScript string is a sequence of UTF-16 code units. *)
Definition jsstring : Type := list N.

(** String literals of the source are written as Rocq strings (UTF-8 bytes)
    and decoded to code units. *)
Fixpoint utf16_of_utf8 (bs : list N) : jsstring :=
  match bs with
  | [] => []
  | b :: rest =>
    if (b <? 128)%N then b :: utf16_of_utf8 rest
    else if (b <? 224)%N then
      match rest with
      | c1 :: rest' =>
        N.lor (N.shiftl (N.land b 31) 6) (N.land c1 63) :: utf16_of_utf8 rest'
      | [] => []
      end
    else if (b <? 240)%N then
      match rest with
      | c1 :: c2 :: rest' =>
        N.lor (N.shiftl (N.land b 15) 12)
              (N.lor (N.shiftl (N.land c1 63) 6) (N.land c2 63))
          :: utf16_of_utf8 rest'
      | _ => []
      end
    else
      match rest with
      | c1 :: c2 :: c3 :: rest' =>
        let cp := N.lor (N.shiftl (N.land b 7) 18)
                  (N.lor (N.shiftl (N.land c1 63) 12)
                  (N.lor (N.shiftl (N.land c2 63) 6) (N.land c3 63))) in
        let v := (cp - 65536)%N in
        (55296 + N.shiftr v 10)%N :: (56320 + N.land v 1023)%N
          :: utf16_of_utf8 rest'
      | _ => []
      end
  end.

Definition js (s : string) : jsstring :=
  utf16_of_utf8 (List.map N_of_ascii (list_ascii_of_string s)).

(** The empty string *)
Definition emptyString : jsstring := [].

(** [a === b] on strings *)
Fixpoint streq (a b : jsstring) : bool :=
  match a, b with
  | [], [] => true
  | x :: a', y :: b' => (x =? y)%N && streq a' b'
  | _, _ => false
  end.

(** What [convert] returns: a Number, or the empty string. *)
Inductive jsval {A : Arith} : Type :=
  | JNum (n : num)
  | JStr (s : jsstring).

Arguments JNum {A} & n.
Arguments JStr {A} & s.

(** [Array.prototype.sort(compareFn)]: the sorted order is fixed by the
    comparator wherever it is consistent, and the sort is stable: each
    element goes in front of the first one it compares below. *)
Section Sort.
Context {T : Type} (before : T -> T -> bool).

Fixpoint sortInsert (x : T) (l : list T) : list T :=
  match l with
  | [] => [x]
  | y :: l' => if before x y then x :: y :: l' else y :: sortInsert x l'
  end.

Definition sort (l : list T) : list T :=
  fold_left (fun acc x => sortInsert x acc) l [].

End Sort.

(** ** The engineering core *)

Module Script.
Section Core.
Context {A : Arith}.
Local Open Scope num_scope.

(** Engineering constants *)
Definition PI : num := Math_PI.
Definition IN_TO_MM : num := #25.4.
Definition AMBIENT : num := #23.
Definition ALPHA_DEFAULT : num := #316e-6.

(** Convert between in<->mm and C<->F.  Every caller passes a Number for
    [value], on which [Number(value)] is the identity. *)
Definition convert (value : num) (from to : jsstring) : jsval :=
  let num := value in
  if negb (isFinite num) then JStr emptyString
  else if streq from to then JNum num
  (* Length *)
  else if streq from (js "in") && streq to (js "mm") then JNum (num * IN_TO_MM)
  else if streq from (js "mm") && streq to (js "in") then JNum (num / IN_TO_MM)
  (* Temperature *)
  else if streq from (js "C") && streq to (js "F") then JNum (num * #9 / #5 + #32)
  else if streq from (js "F") && streq to (js "C") then JNum ((num - #32) * #5 / #9)
  else JNum num.

(** Circular segment area used in corner geometry *)
Definition circularSegmentArea (r angle : num) : num :=
  let theta := angle * PI / #180 in
  let h := r * (#1 - Math_cos (theta / #2)) in
  if h <=? #0 then #0
  else r * r * Math_acos ((r - h) / r) - (r - h) * Math_sqrt (#2 * r * h - h * h).

(** Dovetail cross-section area (simplified model) *)
Definition dovetailCrossSection (gw gd ang rTop rBottom gap : num) : num :=
  let angRad := ang * PI / #180 in
  let topWidth := gw + #2 * (gd / Math_tan angRad) in
  let A_trap := #0.5 * (gw + topWidth) * gd in
  let A_top := #2 * circularSegmentArea rTop ang in
  let A_bottom := #2 * circularSegmentArea rBottom ang in
  let A_gap := (gw + #2 * rTop) * gap in
  A_trap + A_top - A_bottom + A_gap.

(** The parameter object [p] of [calculateDovetail] *)
Record params : Type := {
  cs : num; id : num; gw : num; gd : num; angle : num;
  rTop : num; rBottom : num; gap : num; centerline : num; alpha : num
}.

Record temperatureResult : Type := {
  tempC : num; compressionPct : num; glandFillPct : num
}.

Record calculation : Type := {
  stretchPct : num; glandVolume : num;
  temperatureResults : list temperatureResult
}.

(** Master calculation.
    Returns: stretch %, gland volume, and per-temperature compression & fill *)
Definition calculateDovetail (p : params) (tempsList : list num) : calculation :=
  let temps := match tempsList with [] => [AMBIENT] | _ :: _ => tempsList end in
  let stretchPct := ((p.(centerline) - (p.(id) + p.(cs))) / (p.(id) + p.(cs))) * #100 in
  (* Approximate O-ring volume (torus) *)
  let r := p.(cs) / #2 in
  let R := (p.(id) + p.(cs)) / #2 in
  let oringVolume := #2 * PI * PI * r * r * R in
  (* Gland volume (2D area x circumferential length) *)
  let crossArea :=
    dovetailCrossSection p.(gw) p.(gd) p.(angle) p.(rTop) p.(rBottom) p.(gap) in
  let glandVolume := crossArea * PI * p.(centerline) in
  let results := List.map (fun tempC =>
    let dT := tempC - AMBIENT in
    let expandedCS := p.(cs) * (#1 + p.(alpha) * dT) in
    let expandedVol := oringVolume * (#1 + #3 * p.(alpha) * dT) in
    {| tempC := tempC;
       compressionPct := (#1 - (p.(gd) / expandedCS)) * #100;
       glandFillPct := (expandedVol / glandVolume) * #100 |}) temps in
  {| stretchPct := stretchPct; glandVolume := glandVolume;
     temperatureResults := results |}.

(** Warning rules (engineering).  [numberToString] is the host's
    Number-to-string conversion used by the template literals. *)
Section Warnings.
Variable numberToString : num -> jsstring.

Definition stretchLoose : jsstring :=
  Eval vm_compute in js "O‑ring is loose (negative stretch).".
Definition stretchExceeds : jsstring :=
  Eval vm_compute in js "Stretch exceeds recommended 5%.".

Definition temperatureWarnings (t : temperatureResult) : list jsstring :=
  (if t.(compressionPct) <? #15
   then [js "Compression " ++ numberToString t.(tempC) ++ js "°C < 15%"] else [])
  ++ (if t.(compressionPct) >? #30
      then [js "Compression " ++ numberToString t.(tempC) ++ js "°C > 30%"] else [])
  ++ (if t.(glandFillPct) >? #95
      then [js "Gland fill " ++ numberToString t.(tempC) ++ js "°C > 95%"] else []).

Definition evaluateWarnings (out : calculation) : list jsstring :=
  let warn := [] in
  let warn :=
    if out.(stretchPct) <? #0 then warn ++ [stretchLoose]
    else if out.(stretchPct) >? #5 then warn ++ [stretchExceeds]
    else warn in
  fold_left (fun warn t => warn ++ temperatureWarnings t)
            out.(temperatureResults) warn.

End Warnings.

(** [new Set(xs)]: the members in insertion order, each kept once. *)
Definition setAdd (members : list num) (x : num) : list num :=
  if existsb (sameValueZero (setKey x)) members then members
  else members ++ [setKey x].

Definition newSet (xs : list num) : list num := fold_left setAdd xs [].

(** Step 3 of [runCalculation]: build the temperature list (canonical C).
    [tMinC], [tNomC] and [tMaxC] are what [readTempC] gave: NaN for a field
    that is absent. *)
Definition tempsFinal (tMinC tNomC tMaxC : num) : list num :=
  let tAmbientC := AMBIENT in
  let temps := [tAmbientC] in
  let temps := if isFinite tMinC then temps ++ [tMinC] else temps in
  let temps := if isFinite tNomC then temps ++ [tNomC] else temps in
  let temps := if isFinite tMaxC then temps ++ [tMaxC] else temps in
  let uniqSorted := sort (fun a b => (a - b) <? #0) (newSet (List.tl temps)) in
  tAmbientC :: uniqSorted.

(** Steps 3 and 4 of [runCalculation]: the calculation on the inputs read
    from the form. *)
Definition runCalculation (p : params) (tMinC tNomC tMaxC : num) : calculation :=
  calculateDovetail p (tempsFinal tMinC tNomC tMaxC).

End Core.
End Script.

(** ** Exact real arithmetic *)

Module RealModel.

Definition Rltb (a b : R) : bool := if Rlt_dec a b then true else false.
Definition Rleb (a b : R) : bool := if Rle_dec a b then true else false.
Definition Reqb (a b : R) : bool := if Req_dec_T a b then true else false.

#[export] Instance RealArith : Arith := {|
  num := R;
  lit := Q2R;
  Math_PI := Rtrigo1.PI;
  add := Rplus;
  sub := Rminus;
  mul := Rmult;
  div := Rdiv;
  ltb := Rltb;
  leb := Rleb;
  isFinite := fun _ => true;
  Math_cos := cos;
  Math_tan := tan;
  Math_acos := acos;
  Math_sqrt := sqrt;
  sameValueZero := Reqb;
  setKey := fun x => x
|}.

(** The script's functions in exact real arithmetic *)
Definition convert : R -> jsstring -> jsstring -> jsval :=
  Script.convert (A := RealArith).
Definition circularSegmentArea : R -> R -> R :=
  Script.circularSegmentArea (A := RealArith).
Definition dovetailCrossSection : R -> R -> R -> R -> R -> R -> R :=
  Script.dovetailCrossSection (A := RealArith).
Definition calculateDovetail : Script.params -> list R -> Script.calculation :=
  Script.calculateDovetail (A := RealArith).

(** The geometry of the worked example: cs 2.0, id 50, gw 2.5, gd 1.8,
    angle 45, rTop 0.3, rBottom 0.2, gap 0.1, centerline 52, alpha 0.000175. *)
Definition exampleParams : Script.params (A := RealArith) :=
  Script.Build_params (A := RealArith)
    2%R 50%R (25 / 10)%R (18 / 10)%R 45%R
    (3 / 10)%R (2 / 10)%R (1 / 10)%R 52%R (175 / 1000000)%R.

(** The half angle, in radians, whose cosine [circularSegmentArea] takes,
    and the area of the segment in terms of it. *)
Definition halfAngle (angle : R) : R := angle * Rtrigo1.PI / 180 / 2.

Definition segmentClosedForm (r phi : R) : R :=
  r * r * (phi - sin phi * cos phi).

(** The dovetail area in terms of sine and cosine, for an angle strictly
    between 0 and 180: the taper is [gd * cos / sin] of the angle, and a
    corner of radius [r] adds a segment when [r] is positive. *)
Definition segmentCoefficient (r : R) : R := if Rle_dec r 0 then 0 else r * r.

Definition dovetailClosedForm (gw gd rTop rBottom gap ang : R) : R :=
  5 / 10 * (gw + (gw + 2 * (gd * (cos (ang * Rtrigo1.PI / 180)
                                  / sin (ang * Rtrigo1.PI / 180))))) * gd
  + 2 * (segmentCoefficient rTop
         * (halfAngle ang - sin (halfAngle ang) * cos (halfAngle ang)))
  - 2 * (segmentCoefficient rBottom
         * (halfAngle ang - sin (halfAngle ang) * cos (halfAngle ang)))
  + (gw + 2 * rTop) * gap.

End RealModel.

(** ** IEEE 754 binary64 arithmetic *)

Module DoubleModel.
Import Floats.

(** The functions of [Math] that ECMAScript leaves implementation-approximated
    are a parameter of the model. *)
Record MathLib : Type := {
  m_cos : float -> float;
  m_tan : float -> float;
  m_acos : float -> float;
  m_sqrt : float -> float
}.

(** What ECMAScript fixes about them, as far as the script meets it:
    [Math.tan(+0)] is [+0] and [Math.cos(+0)] is [1]. *)
Record conforms (M : MathLib) : Prop := {
  tan_zero : M.(m_tan) 0%float = 0%float;
  cos_zero : M.(m_cos) 0%float = 1%float
}.

(** The integer [z] as a Number, rounded to nearest-even. *)
Definition Z2F (z : Z) : float := SF2Prim (binary_normalize prec emax z 0 false).

(** A decimal literal of the source: both parts of the fraction are exact in
    binary64, and IEEE division rounds their quotient correctly. *)
Definition Q2F (q : Q) : float := (Z2F (Qnum q) / Z2F (Z.pos (Qden q)))%float.

(** SameValueZero, the equality of Set members, and the key a Set stores. *)
Definition float_sameValueZero (x y : float) : bool :=
  (x =? y)%float || (is_nan x && is_nan y).

Definition float_setKey (x : float) : float :=
  if is_zero x then 0%float else x.

Definition DoubleArith (M : MathLib) : Arith :=
  Build_Arith
    float                               (* num *)
    Q2F                                 (* lit *)
    0x1.921fb54442d18p+1%float          (* Math.PI *)
    PrimFloat.add PrimFloat.sub PrimFloat.mul PrimFloat.div
    PrimFloat.ltb PrimFloat.leb
    PrimFloat.is_finite                 (* Number.isFinite *)
    M.(m_cos) M.(m_tan) M.(m_acos) M.(m_sqrt)
    float_sameValueZero
    float_setKey.

(** The script's functions in binary64 arithmetic *)
Section WithMath.
Variable M : MathLib.

Definition convert : float -> jsstring -> jsstring -> jsval :=
  Script.convert (A := DoubleArith M).
Definition circularSegmentArea : float -> float -> float :=
  Script.circularSegmentArea (A := DoubleArith M).
Definition dovetailCrossSection
  : float -> float -> float -> float -> float -> float -> float :=
  Script.dovetailCrossSection (A := DoubleArith M).
Definition calculateDovetail : Script.params -> list float -> Script.calculation :=
  Script.calculateDovetail (A := DoubleArith M).

Definition exampleParams : Script.params (A := DoubleArith M) :=
  Script.Build_params (A := DoubleArith M)
    2%float 50%float 2.5%float 1.8%float 45%float
    0.3%float 0.2%float 0.1%float 52%float 0.000175%float.

End WithMath.

(** A [MathLib] to run the script with: truncated Taylor series, accurate
    to a few units in the last place on the angles of a gland. *)
Fixpoint cosSeries (n : nat) (k term x2 acc : float) : float :=
  match n with
  | O => acc
  | S n' =>
    let term' := (- term * x2 / ((k + 1) * (k + 2)))%float in
    cosSeries n' (k + 2)%float term' x2 (acc + term')%float
  end.

Definition taylorCos (x : float) : float :=
  if is_zero x then 1%float else cosSeries 20 0%float 1%float (x * x)%float 1%float.

Definition taylorSin (x : float) : float :=
  cosSeries 20 1%float x (x * x)%float x.

Definition taylorTan (x : float) : float :=
  if is_zero x then x else (taylorSin x / taylorCos x)%float.

Fixpoint atanSeries (n : nat) (k pw u2 acc : float) : float :=
  match n with
  | O => acc
  | S n' =>
    let pw' := (- pw * u2)%float in
    atanSeries n' (k + 2)%float pw' u2 (acc + pw' / (k + 2))%float
  end.

Definition halveTangent (t : float) : float :=
  (t / (1 + PrimFloat.sqrt (1 + t * t)))%float.

Definition taylorAtan (t : float) : float :=
  let u := halveTangent (halveTangent (halveTangent (halveTangent t))) in
  (16 * atanSeries 12 1%float u (u * u)%float u)%float.

Definition taylorAcos (x : float) : float :=
  if (x <=? -1)%float then (if (x =? -1)%float then 0x1.921fb54442d18p+1%float else nan)
  else (2 * taylorAtan (PrimFloat.sqrt ((1 - x) / (1 + x))))%float.

Definition taylorMath : MathLib := {|
  m_cos := taylorCos;
  m_tan := taylorTan;
  m_acos := taylorAcos;
  m_sqrt := PrimFloat.sqrt
|}.

End DoubleModel.

(** ** String to Number *)

Module Strings.
Import Floats.
Local Open Scope N_scope.

(** WhiteSpace and LineTerminator code units, which [trim] and the numeric
    grammar strip. *)
Definition isWhiteSpace (c : N) : bool :=
  (c =? 9) || (c =? 10) || (c =? 11) || (c =? 12) || (c =? 13) || (c =? 32)
  || (c =? 160) || (c =? 5760) || ((8192 <=? c) && (c <=? 8202))
  || (c =? 8232) || (c =? 8233) || (c =? 8239) || (c =? 8287)
  || (c =? 12288) || (c =? 65279).

Fixpoint trimStart (s : jsstring) : jsstring :=
  match s with
  | c :: s' => if isWhiteSpace c then trimStart s' else s
  | [] => []
  end.

Definition trimEnd (s : jsstring) : jsstring := rev (trimStart (rev s)).

Definition trim (s : jsstring) : jsstring := trimEnd (trimStart s).

(** [s.split(",")] and the like: split at every occurrence of one code unit. *)
Fixpoint splitAt (sep : N) (s : jsstring) : list jsstring :=
  match s with
  | [] => [[]]
  | c :: s' =>
    if c =? sep then [] :: splitAt sep s'
    else match splitAt sep s' with
         | piece :: pieces => (c :: piece) :: pieces
         | [] => [[c]]
         end
  end.

Definition dropLastCR (s : jsstring) : jsstring :=
  match rev s with
  | 13 :: s' => rev s'
  | _ => s
  end.

Fixpoint dropCRs (pieces : list jsstring) : list jsstring :=
  match pieces with
  | [] => []
  | [last] => [last]
  | piece :: rest => dropLastCR piece :: dropCRs rest
  end.

(** [s.split(/\r?\n/)]: the separator is a line feed together with a
    carriage return in front of it, when there is one. *)
Definition splitLines (s : jsstring) : list jsstring := dropCRs (splitAt 10 s).

(** The value of a digit in a base, if it is one. *)
Definition digitValue (base c : N) : option N :=
  let v := if (48 <=? c) && (c <=? 57) then Some (c - 48)
           else if (97 <=? c) && (c <=? 102) then Some (c - 87)
           else if (65 <=? c) && (c <=? 70) then Some (c - 55)
           else None in
  match v with
  | Some d => if d <? base then Some d else None
  | None => None
  end.

(** Reads digits of the base from the front of [s]: their value on top of
    [acc], how many there were, and the rest of the string. *)
Fixpoint readDigits (base : N) (s : jsstring) (acc count : N) : N * N * jsstring :=
  match s with
  | c :: s' =>
    match digitValue base c with
    | Some d => readDigits base s' (acc * base + d) (count + 1)
    | None => (acc, count, s)
    end
  | [] => (acc, count, s)
  end.

(** [m / d] rounded to the nearest binary64 value, ties to even. *)
Definition divRound (s : bool) (m d : positive) : spec_float :=
  let '(mz, ez, lz) := SFdiv_core_binary prec emax (Z.pos m) 0 (Z.pos d) 0 in
  binary_round_aux prec emax s mz ez lz.

(** [m * 10^e] with the sign [s], rounded to the nearest binary64 value. *)
Definition decimalValue (s : bool) (m : N) (e : Z) : float :=
  match m with
  | N0 => if s then (-0)%float else 0%float
  | Npos p =>
    SF2Prim
      (match e with
       | Zneg k => divRound s p (10 ^ k)%positive
       | _ => binary_normalize prec emax
                (cond_Zopp s (Z.pos p * 10 ^ e)%Z) 0 false
       end)
  end.

(** ExponentPart, if the rest of the literal is one: its value. *)
Definition readExponent (s : jsstring) : option Z :=
  match s with
  | [] => Some 0%Z
  | c :: s' =>
    if (c =? 101) || (c =? 69) then
      let '(neg, ds) :=
        match s' with
        | 43 :: ds => (false, ds)
        | 45 :: ds => (true, ds)
        | _ => (false, s')
        end in
      match readDigits 10 ds 0 0 with
      | (v, N0, _) => None
      | (v, _, []) => Some (if neg then (- Z.of_N v)%Z else Z.of_N v)
      | _ => None
      end
    else None
  end.

(** StrUnsignedDecimalLiteral other than [Infinity] *)
Definition readUnsignedDecimal (s : bool) (str : jsstring) : float :=
  let '(int, nInt, rest) := readDigits 10 str 0 0 in
  let '(mant, nFrac, rest) :=
    match rest with
    | 46 :: rest' =>
      let '(m, n, r) := readDigits 10 rest' int 0 in (m, n, r)
    | _ => (int, 0, rest)
    end in
  if (nInt + nFrac =? 0) then nan
  else match readExponent rest with
       | Some e => decimalValue s mant (e - Z.of_N nFrac)
       | None => nan
       end.

Definition readStrDecimal (s : bool) (str : jsstring) : float :=
  if streq str (js "Infinity")
  then (if s then neg_infinity else infinity)
  else readUnsignedDecimal s str.

Definition readNonDecimal (base : N) (digits : jsstring) : float :=
  match readDigits base digits 0 0 with
  | (v, N0, _) => nan
  | (v, _, []) => DoubleModel.Z2F (Z.of_N v)
  | _ => nan
  end.

(** [Number(s)] on a string: StringToNumber.  A literal of more than 20
    significant digits is rounded exactly here, which is one of the values
    ECMAScript allows for it. *)
Definition StringToNumber (str : jsstring) : float :=
  match trim str with
  | [] => 0%float
  | 48 :: 120 :: ds | 48 :: 88 :: ds => readNonDecimal 16 ds
  | 48 :: 111 :: ds | 48 :: 79 :: ds => readNonDecimal 8 ds
  | 48 :: 98 :: ds | 48 :: 66 :: ds => readNonDecimal 2 ds
  | 43 :: ds => readStrDecimal false ds
  | 45 :: ds => readStrDecimal true ds
  | ds => readStrDecimal false ds
  end.

End Strings.

(** ** AS568 loader: the catalog parser *)

Module Catalog.
Import Strings.

Section Parser.

(** [String.prototype.toLowerCase] and
    [a.localeCompare(b, "en", {numeric:true})] are the host's: Unicode case
    mapping and collation. *)
Variable toLowerCase : jsstring -> jsstring.
Variable localeCompare : jsstring -> jsstring -> Z.

Record row : Type := {
  dash : jsstring; cs : PrimFloat.float; id : PrimFloat.float
}.

(** [text.replace(/^\uFEFF/, emptyString)]: a byte-order mark in front is
    removed. *)
Definition stripBOM (text : jsstring) : jsstring :=
  match text with
  | 65279%N :: text' => text'
  | _ => text
  end.

(** [header.indexOf(k)] *)
Fixpoint indexOf (header : list jsstring) (k : jsstring) : Z :=
  match header with
  | [] => -1
  | h :: header' =>
    if streq h k then 0
    else let i := indexOf header' k in
         if (i =? -1)%Z then -1 else (i + 1)%Z
  end.

(** [find]: the first of the names that the header has; [None] is
    [undefined]. *)
Definition find (header : list jsstring) (arr : list jsstring) : option Z :=
  List.find (fun i => negb (i =? -1)%Z) (List.map (indexOf header) arr).

(** [Math.max(a, b, c)] on indexes; [None] is NaN, which an [undefined]
    argument gives. *)
Definition Math_max (a b c : option Z) : option Z :=
  match a, b, c with
  | Some x, Some y, Some z => Some (Z.max x (Z.max y z))
  | _, _, _ => None
  end.

(** [cols[i]]; [None] is [undefined]. *)
Definition at_index (cols : list jsstring) (i : option Z) : option jsstring :=
  match i with
  | Some i => if (i <? 0)%Z then None else nth_error cols (Z.to_nat i)
  | None => None
  end.

(** [Number(v)] *)
Definition ToNumber (v : option jsstring) : PrimFloat.float :=
  match v with
  | Some s => StringToNumber s
  | None => PrimFloat.nan
  end.

(** [cols.length <= m] *)
Definition length_le (cols : list jsstring) (m : option Z) : bool :=
  match m with
  | Some m => (Z.of_nat (List.length cols) <=? m)%Z
  | None => false
  end.

(** The body of the loop over the lines: the rows one line adds. *)
Definition parseLine (iDash iCS iID : option Z) (line : jsstring) : list row :=
  match trim line with
  | [] => []
  | _ :: _ =>
    let cols := List.map trim (splitAt 44 line) in
    if length_le cols (Math_max iDash iCS iID) then []
    else
      let dash := at_index cols iDash in
      let cs := ToNumber (at_index cols iCS) in
      let id := ToNumber (at_index cols iID) in
      match dash with
      | None | Some [] => []
      | Some dash =>
        if negb (PrimFloat.is_finite cs) || negb (PrimFloat.is_finite id) then []
        else [ {| dash := dash; cs := cs; id := id |} ]
      end
  end.

Definition parseAs568Csv (text : jsstring) : list row :=
  let t := trim (stripBOM text) in
  match t with
  | [] => []
  | _ :: _ =>
    let lines := splitLines t in
    let headerLine := List.hd [] lines in
    let lines := List.tl lines in
    let header :=
      List.map (fun h => toLowerCase (trim h)) (splitAt 44 headerLine) in
    let iDash := find header [js "dash"; js "dash size"] in
    let iCS := find header
      [js "cs"; js "o-ring cross section size"; js "o-ring cross section"] in
    let iID := find header
      [js "id"; js "o-ring internal diameter size"; js "o-ring internal diameter"] in
    let rows := List.flat_map (parseLine iDash iCS iID) lines in
    sort (fun a b => (localeCompare a.(dash) b.(dash) <? 0)%Z) rows
  end.

(** The parts of [parseAs568Csv]: the lines after the header, and the
    columns that the header names. *)
Definition dataLines (text : jsstring) : list jsstring :=
  List.tl (splitLines (trim (stripBOM text))).

Definition headerOf (text : jsstring) : list jsstring :=
  List.map (fun h => toLowerCase (trim h))
    (splitAt 44 (List.hd [] (splitLines (trim (stripBOM text))))).

Definition dashIndex (text : jsstring) : option Z :=
  find (headerOf text) [js "dash"; js "dash size"].

Definition csIndex (text : jsstring) : option Z :=
  find (headerOf text)
    [js "cs"; js "o-ring cross section size"; js "o-ring cross section"].

Definition idIndex (text : jsstring) : option Z :=
  find (headerOf text)
    [js "id"; js "o-ring internal diameter size"; js "o-ring internal diameter"].

End Parser.

(** When a row is dropped, in the words of the specification: it is
    blank, has fewer columns than the highest required column, its dash
    identifier is empty, or one of its numeric columns does not parse as a
    finite number. *)
Definition columns (line : jsstring) : list jsstring :=
  List.map trim (splitAt 44 line).

Definition blank (line : jsstring) : Prop := trim line = [].

Definition tooFewColumns (iDash iCS iID : option Z) (line : jsstring) : Prop :=
  exists m, Math_max iDash iCS iID = Some m
            /\ (Z.of_nat (List.length (columns line)) <= m)%Z.

Definition dashEmpty (iDash : option Z) (line : jsstring) : Prop :=
  at_index (columns line) iDash = None \/ at_index (columns line) iDash = Some [].

Definition notFinite (i : option Z) (line : jsstring) : Prop :=
  PrimFloat.is_finite (ToNumber (at_index (columns line) i)) = false.

Definition rowDropped (iDash iCS iID : option Z) (line : jsstring) : Prop :=
  blank line \/ tooFewColumns iDash iCS iID line \/ dashEmpty iDash line
  \/ notFinite iCS line \/ notFinite iID line.

(** The row of a line that is kept. *)
Definition rowOf (iDash iCS iID : option Z) (line : jsstring) : row :=
  {| dash := match at_index (columns line) iDash with
             | Some d => d
             | None => []
             end;
     cs := ToNumber (at_index (columns line) iCS);
     id := ToNumber (at_index (columns line) iID) |}.

(** The table of the worked example *)
Definition exampleTable : jsstring :=
  js "Dash,CS,ID
004,1.02,1.78
1x3,abc,2.0".

(** [toLowerCase] on ASCII letters, where Unicode case mapping is this. *)
Definition asciiLower (s : jsstring) : jsstring :=
  List.map (fun c => if (65 <=? c)%N && (c <=? 90)%N then (c + 32)%N else c) s.

Definition isASCII (s : jsstring) : Prop := Forall (fun c => (c < 128)%N) s.

End Catalog.

(** ** Vocabulary of the properties *)

(** The facts about the order of Numbers that the warning rules and the
    temperature list rest on.  Both readings of the arithmetic have them
    ([RealLaws], [DoubleLaws]). *)
Class OrderLaws (A : Arith) : Prop := {
  ltb_trans : forall x y z : num,
    ltb x y = true -> ltb y z = true -> ltb x z = true;
  ltb_irrefl : forall x : num, ltb x x = false;
  ltb_total : forall x y : num,
    isFinite x = true -> isFinite y = true -> sameValueZero x y = false ->
    ltb x y = true \/ ltb y x = true;
  zero_lt_five : ltb (lit 0) (lit 5) = true;
  sub_ltb_zero : forall x y : num,
    isFinite x = true -> isFinite y = true ->
    ltb (sub x y) (lit 0) = ltb x y;
  setKey_finite : forall x : num, isFinite (setKey x) = isFinite x;
  sameValueZero_refl : forall x : num, sameValueZero x x = true;
  sameValueZero_key : forall x y : num,
    sameValueZero (setKey x) (setKey y) = true -> setKey x = setKey y
}.

(** The members of a Set are keys, each later one different from the
    earlier ones. *)
Definition isKey {A : Arith} (m : num) : Prop := exists s, m = setKey s.

Definition distinct {A : Arith} (members : list num) : Prop :=
  ForallOrdPairs (fun earlier later => sameValueZero later earlier = false)
                 members.

(** The unit pairs that [convert] has a rule for. *)
Definition supportedPair (from to : jsstring) : Prop :=
  (from = js "in" /\ to = js "mm") \/ (from = js "mm" /\ to = js "in")
  \/ (from = js "C" /\ to = js "F") \/ (from = js "F" /\ to = js "C").

Module SpecFloatFacts.
Import Floats.

(** Values that are neither NaN nor infinite, and values of a given sign
    that are not zero, on the side of the specification of binary64. *)
Definition SFfinite (x : spec_float) : bool :=
  match x with
  | S754_zero _ | S754_finite _ _ _ => true
  | _ => false
  end.

Definition SFsigned (s : bool) (x : spec_float) : Prop :=
  (exists m e, x = S754_finite s m e) \/ x = S754_infinity s.

End SpecFloatFacts.

(** ** AS568 modal: the search box *)

Module Modal.
Import Strings Catalog.

(** [s.startsWith(q)] *)
Fixpoint startsWith (s q : jsstring) {struct q} : bool :=
  match q with
  | [] => true
  | c :: q' =>
    match s with
    | d :: s' => (c =? d)%N && startsWith s' q'
    | [] => false
    end
  end.

(** [s.includes(q)]: [q] starts at some position of [s]. *)
Fixpoint includes (s q : jsstring) : bool :=
  startsWith s q
  || match s with
     | [] => false
     | _ :: s' => includes s' q
     end.

Section Filter.
Variable toLowerCase : jsstring -> jsstring.

(** [String(n)] on a Number, the host's. *)
Variable numberToString : PrimFloat.float -> jsstring.

(** The rows that [filterAs568Table] leaves in [as568Filtered], from those
    of [as568Data].  A dash identifier is a string, on which [r.dash || emptyString]
    is the identity. *)
Definition filterAs568Table (as568Data : list row) (query : jsstring) : list row :=
  let q := trim (toLowerCase query) in
  List.filter (fun r =>
      includes (toLowerCase r.(dash)) q
      || includes (numberToString r.(cs)) q
      || includes (numberToString r.(id)) q)
    as568Data.

End Filter.
End Modal.

(** ** Warning banner and result cards *)

Module Report.
Import Script.

Section Core.
Context {A : Arith}.
Local Open Scope num_scope.

(** [n.toFixed(2)], the host's. *)
Variable toFixed2 : num -> jsstring.

(** The temperature unit of the display, [°C] or [°F]. *)
Variable tempUnit : jsstring.

(** Nominal compression outside 20-25% band (RED warning).  [None] is an
    entry that is [undefined]. *)
Definition collectNominalCompressionWarning
  (nominalEntry : option temperatureResult) : list jsstring :=
  match nominalEntry with
  | None => []
  | Some nominalEntry =>
    let c := nominalEntry.(compressionPct) in
    if (c >=? #20) && (c <=? #25) then []
    else [js "Nominal compression " ++ toFixed2 c
          ++ js "% is outside the 20–25% band."]
  end.

(** The class of a value that is out of bounds, shown in red. *)
Definition oob : jsstring := Eval vm_compute in js "oob".

(** [Math.max(0, x)]: [x] when it is above 0, 0 when it is not above 0, and
    NaN, which is [x], when [x] is NaN and compares with nothing. *)
Definition Math_max0 (x : num) : num :=
  if x >? #0 then x else if x <=? #0 then #0 else x.

(** A row of a card: its label, the class of its value and the Number
    that is shown, with two decimals. *)
Record cardRow : Type := { label : jsstring; cls : jsstring; shown : num }.

Record card : Type := { header : jsstring; rows : list cardRow }.

(** The map of the entries that get a card; [None] is a key not set. *)
Record metaMap : Type := {
  ambient : option temperatureResult;
  min : option temperatureResult;
  nominal : option temperatureResult;
  max : option temperatureResult
}.

(** [toDisp]: the temperature of a card in the unit of the display.
    [None] is the TypeError of calling [toFixed] on the empty string that
    [convert] returns for a Number that is not finite. *)
Definition toDisp (tempC : num) : option jsstring :=
  if streq tempUnit (js "°F") then
    match convert tempC (js "C") (js "F") with
    | JNum n => Some (toFixed2 n ++ js " °F")
    | JStr _ => None
    end
  else Some (toFixed2 tempC ++ js " °C").

(** Compression: red if outside 20-25% or negative; clamp negatives to 0.00 *)
Definition compressionRow (t : temperatureResult) : cardRow :=
  let isCompNeg := t.(compressionPct) <? #0 in
  let cDisplay := if isCompNeg then #0 else t.(compressionPct) in
  let cCls :=
    if isCompNeg || negb ((t.(compressionPct) >=? #20) && (t.(compressionPct) <=? #25))
    then oob else emptyString in
  {| label := js "Compression"; cls := cCls; shown := cDisplay |}.

(** Gland Fill: red if >95% or negative; clamp negatives to 0.00 *)
Definition fillRow (t : temperatureResult) : cardRow :=
  let isFillNeg := t.(glandFillPct) <? #0 in
  let fDisplay := if isFillNeg then #0 else t.(glandFillPct) in
  let fCls :=
    if isFillNeg || negb (t.(glandFillPct) <=? #95) then oob else emptyString in
  {| label := js "Gland Fill"; cls := fCls; shown := fDisplay |}.

(** Operating temp cards: the cards that [addOpCard] appends. *)
Definition addOpCard (name : jsstring) (entry : option temperatureResult)
  : option (list card) :=
  match entry with
  | None => Some []
  | Some entry =>
    match toDisp entry.(tempC) with
    | None => None
    | Some disp =>
      Some [ {| header := js "Operating Temperature (" ++ name ++ js ") " ++ disp;
                rows := [compressionRow entry; fillRow entry] |} ]
    end
  end.

(** Build results cards; clamp stretch display to >= 0.  The cards that
    are appended to the grid, when the grid is there; [None] is a
    TypeError. *)
Definition renderResultsGrid (out : calculation) (meta : metaMap) (stretchPct : num)
  : option (list card) :=
  let ambientCard :=
    match meta.(ambient) with
    | Some t =>
      let sCls := if out.(Script.stretchPct) <? #0 then oob else emptyString in
      [ {| header := js "Ambient Temperature (23 °C)";
           rows := [ {| label := js "Stretch"; cls := sCls;
                        shown := Math_max0 stretchPct |};
                     compressionRow t; fillRow t ] |} ]
    | None => []
    end in
  match addOpCard (js "Min") meta.(min) with
  | None => None
  | Some minCard =>
    match addOpCard (js "Nominal") meta.(nominal) with
    | None => None
    | Some nominalCard =>
      match addOpCard (js "Max") meta.(max) with
      | None => None
      | Some maxCard => Some (ambientCard ++ minCard ++ nominalCard ++ maxCard)
      end
    end
  end.

End Core.
End Report.

(** The further facts about the order of Numbers that the bands of the
    report rest on.  Both readings of the arithmetic have them
    ([RealBands], [DoubleBands]). *)
Class BandLaws (A : Arith) : Prop := {
  ltb_not_leb : forall x y : num, ltb x y = true -> leb y x = false;
  ltb_leb : forall x y : num, ltb x y = true -> leb x y = true;
  zero_lt_20 : ltb (lit 0) (lit 20) = true;
  lt_15_20 : ltb (lit 15) (lit 20) = true;
  lt_25_30 : ltb (lit 25) (lit 30) = true
}.

(** ** The form: validation gate, inputs and the calculation entry point *)

Module Form.
Import Floats.
Import Strings Script Report.

(** An input or select of the page, as far as the script reads and writes
    it: its value, the two entries of its [dataset] ([None] is
    [undefined]), and whether its class list has [temp-field]. *)
Record element : Type := {
  value : jsstring;
  originalValue : option jsstring;
  originalUnit : option jsstring;
  tempField : bool
}.

(** [document.getElementById]; [None] is [null]. *)
Definition document : Type := jsstring -> option element.

(** Mandatory fields that must contain valid numeric input before calculation *)
Definition mandatoryFields : list jsstring :=
  Eval vm_compute in
  [js "glandWidth"; js "glandDepth"; js "glandAngle"; js "glandTopR";
   js "glandBottomR"; js "gap"; js "glandCenterline"; js "oringCS"; js "oringID";
   js "alpha"; js "oringMaterialGroup"].

Definition oringMaterialGroup : jsstring := Eval vm_compute in js "oringMaterialGroup".
Definition missingMaterial : jsstring := Eval vm_compute in js "Missing material group.".
Definition missingNumbers : jsstring :=
  Eval vm_compute in js "Missing/invalid mandatory numbers.".

(** Validate numeric mandatory inputs *)
Definition isValidNumberField (inp : option element) : bool :=
  match inp with
  | None => false
  | Some inp =>
    let v := trim inp.(value) in
    if streq v emptyString then false
    else is_finite (StringToNumber v)
  end.

(** The loop of [checkMandatoryStatus] over the fields: [valid], which is
    false when the loop breaks. *)
Fixpoint checkFields (doc : document) (ids : list jsstring) : bool :=
  match ids with
  | [] => true
  | id :: ids' =>
    if streq id oringMaterialGroup then
      match doc oringMaterialGroup with
      | None => false
      | Some sel =>
        if streq sel.(value) emptyString then false else checkFields doc ids'
      end
    else if negb (isValidNumberField (doc id)) then false
    else checkFields doc ids'
  end.

(** Validation gate: [valid]; the Calculate button is disabled when it is
    false. *)
Definition checkMandatoryStatus (doc : document) : bool :=
  checkFields doc mandatoryFields.

(** Pre-calc RED warnings (block calculation if any) *)
Definition collectPrecalcWarnings (doc : document) : list jsstring :=
  let issues := [] in
  (* Material group must be chosen *)
  let issues :=
    match doc oringMaterialGroup with
    | None => issues ++ [missingMaterial]
    | Some sel =>
      if streq sel.(value) emptyString then issues ++ [missingMaterial] else issues
    end in
  (* All mandatory numeric fields must be valid *)
  let invalids :=
    List.filter (fun id => negb (streq id oringMaterialGroup)
                           && negb (isValidNumberField (doc id)))
                mandatoryFields in
  match invalids with
  | [] => issues
  | _ :: _ => issues ++ [missingNumbers]
  end.

(** [x || d] on strings: the empty string and [undefined] are falsy. *)
Definition orElse (x : option jsstring) (d : jsstring) : jsstring :=
  match x with
  | None | Some [] => d
  | Some s => s
  end.

Section WithHost.
Variable M : DoubleModel.MathLib.

(** [String(n)] and [n.toFixed(2)] on a Number, the host's. *)
Variable numberToString : float -> jsstring.
Variable toFixed2 : float -> jsstring.

(** The units of the display: [unit] is [in] or [mm], [tempUnit] is [°C]
    or [°F]. *)
Variable unit : jsstring.
Variable tempUnit : jsstring.

(** Read a temperature field's original value in °C (originals are
    canonical °C) *)
Definition readTempC (doc : document) (id : jsstring) : float :=
  match doc id with
  | None => nan
  | Some inp =>
    match inp.(originalValue) with
    | None | Some [] => nan
    | Some ov =>
      let val := StringToNumber ov in
      let u := orElse inp.(originalUnit) (js "C") in
      match convert (A := DoubleModel.DoubleArith M) val u (js "C") with
      | JNum c => if is_finite c then c else nan
      | JStr _ => nan
      end
    end
  end.

(** [readOrig]: [Number(el?.dataset.originalValue)] *)
Definition readOrig (doc : document) (id : jsstring) : float :=
  match doc id with
  | None => nan
  | Some el => Catalog.ToNumber el.(originalValue)
  end.

(** [n || ALPHA_DEFAULT]: 0, -0 and NaN are falsy. *)
Definition orDefault (n : float) : float :=
  if is_zero n || is_nan n then ALPHA_DEFAULT (A := DoubleModel.DoubleArith M)
  else n.

(** Step 5 of [runCalculation]: build meta map for cards.  The loop over
    the entries leaves the last one at the ambient temperature in
    [meta.ambient]; [find] gives the first one at a temperature. *)
Definition buildMeta (out : calculation (A := DoubleModel.DoubleArith M))
  (tAmbientC tMinC tNomC tMaxC : float) : metaMap :=
  let results := out.(temperatureResults) in
  let at_ (t : float) :=
    List.find (fun e : temperatureResult (A := DoubleModel.DoubleArith M) =>
                 (e.(tempC) =? t)%float) results in
  {| ambient :=
       fold_left
         (fun m (e : temperatureResult (A := DoubleModel.DoubleArith M)) =>
            if (e.(tempC) =? tAmbientC)%float then Some e else m)
         results None;
     min := if is_finite tMinC then at_ tMinC else None;
     nominal := if is_finite tNomC then at_ tNomC else None;
     max := if is_finite tMaxC then at_ tMaxC else None |}.

(** What a run of [runCalculation] does. *)
Inductive outcome : Type :=
  | Blocked (precalc : list jsstring)
      (* the banner shows the pre-calc warnings, the grid is emptied *)
  | Rendered (out : calculation (A := DoubleModel.DoubleArith M))
             (meta : metaMap (A := DoubleModel.DoubleArith M))
             (redWarnings : list jsstring)
             (cards : list (card (A := DoubleModel.DoubleArith M)))
      (* the banner shows [redWarnings], the grid the cards *)
  | TypeError.
      (* [value] read of an element that is [null], or [toFixed] called on
         a string *)

(** Step 2 of [runCalculation]: gather inputs from originals.  The angle
    and the expansion coefficient are read from the value shown; [None] is
    the TypeError of reading [value] of an element that is [null]. *)
Definition gatherParams (doc : document)
  : option (params (A := DoubleModel.DoubleArith M)) :=
  match doc (js "glandAngle"), doc (js "alpha") with
  | Some glandAngle, Some alpha =>
    Some (Build_params (A := DoubleModel.DoubleArith M)
      (* cs *) (readOrig doc (js "oringCS"))
      (* id *) (readOrig doc (js "oringID"))
      (* gw *) (readOrig doc (js "glandWidth"))
      (* gd *) (readOrig doc (js "glandDepth"))
      (* angle *) (StringToNumber glandAngle.(value))
      (* rTop *) (readOrig doc (js "glandTopR"))
      (* rBottom *) (readOrig doc (js "glandBottomR"))
      (* gap *) (readOrig doc (js "gap"))
      (* centerline *) (readOrig doc (js "glandCenterline"))
      (* alpha *) (orDefault (StringToNumber alpha.(value))))
  | _, _ => None
  end.

(** Run the calculation flow; use RED/AMBER banners for issues *)
Definition runCalculation (doc : document) : outcome :=
  (* 1) Pre-calc warnings (RED); block and do not compute *)
  let precalc := collectPrecalcWarnings doc in
  match precalc with
  | _ :: _ => Blocked precalc
  | [] =>
    (* 2) Gather inputs from originals *)
    match gatherParams doc with
    | Some params =>
      (* 3) Build temperature list (canonical °C) *)
      let tAmbientC := AMBIENT (A := DoubleModel.DoubleArith M) in
      let tMinC := readTempC doc (js "tempMin") in
      let tNomC := readTempC doc (js "tempNom") in
      let tMaxC := readTempC doc (js "tempMax") in
      (* 4) Compute *)
      let out := Script.runCalculation (A := DoubleModel.DoubleArith M)
                   params tMinC tNomC tMaxC in
      (* 5) Build meta map for cards *)
      let meta := buildMeta out tAmbientC tMinC tNomC tMaxC in
      (* 6) RED/AMBER banners before results *)
      let redWarnings :=
        evaluateWarnings (A := DoubleModel.DoubleArith M) numberToString out
        ++ collectNominalCompressionWarning (A := DoubleModel.DoubleArith M)
             toFixed2 meta.(nominal) in
      (* 7) Render results *)
      match renderResultsGrid (A := DoubleModel.DoubleArith M)
              toFixed2 tempUnit out meta out.(stretchPct) with
      | Some cards => Rendered out meta redWarnings cards
      | None => TypeError
      end
    | None => TypeError
    end
  end.

(** The body of the loop of [normalizeTempOriginalsToC]: normalize a saved
    temperature original to canonical °C. *)
Definition normalizeTempOriginal (inp : element) : element :=
  let ov := inp.(originalValue) in
  let ou := inp.(originalUnit) in
  match ov with
  | None | Some [] => inp
  | Some ov =>
    if match ou with Some ou => streq ou (js "F") | None => false end then
      match convert (A := DoubleModel.DoubleArith M) (StringToNumber ov) (js "F") (js "C") with
      | JNum c =>
        if is_finite c
        then {| value := inp.(value);
                originalValue := Some (numberToString c);
                originalUnit := Some (js "C");
                tempField := inp.(tempField) |}
        else inp
      | JStr _ => inp
      end
    else if match ou with Some ou => negb (streq ou (js "C")) | None => true end then
      {| value := inp.(value);
         originalValue := inp.(originalValue);
         originalUnit := Some (js "C");
         tempField := inp.(tempField) |}
    else inp
  end.

(** Normalize any saved temperature originals to canonical °C: the
    elements of class [temp-field] are normalized. *)
Definition normalizeTempOriginalsToC (doc : document) : document :=
  fun id =>
    match doc id with
    | Some inp => Some (if inp.(tempField) then normalizeTempOriginal inp else inp)
    | None => None
    end.

(** Temperature field IDs *)
Definition isTempId (id : jsstring) : bool :=
  streq id (js "tempMin") || streq id (js "tempNom") || streq id (js "tempMax").

(** Resolve current display unit for the given input *)
Definition getInputUnit (id : jsstring) (inp : element) : jsstring :=
  if streq id (js "alpha") then emptyString
  else if inp.(tempField) then (if streq tempUnit (js "°F") then js "F" else js "C")
  else unit.

(** Limit decimals cosmetically while typing: of the pieces between the
    points, the first, and three characters of the second.  A string with
    a point has two pieces at least. *)
Definition limitDecimals (raw : jsstring) : jsstring :=
  if existsb (N.eqb 46) raw then
    match splitAt 46 raw with
    | a :: b :: _ => a ++ [46%N] ++ firstn 3 b
    | _ => raw
    end
  else raw.

(** The listener of the [input] event of a numeric input: the originals
    that it stores. *)
Definition onInput (id : jsstring) (inp : element) : element :=
  let store (ov ou : jsstring) :=
    {| value := inp.(value); originalValue := Some ov; originalUnit := Some ou;
       tempField := inp.(tempField) |} in
  let raw := inp.(value) in
  if streq (trim raw) emptyString then store emptyString emptyString
  (* alpha: store raw; sci formatting on blur only *)
  else if streq id (js "alpha") then store raw emptyString
  else
    let val := limitDecimals raw in
    let num := StringToNumber val in
    if negb (is_finite num) then store emptyString emptyString
    else if isTempId id then
      (* Store temperature originals always in °C *)
      let displayU := getInputUnit id inp in
      match convert (A := DoubleModel.DoubleArith M) num displayU (js "C") with
      | JNum c => if is_finite c then store (numberToString c) (js "C") else inp
      | JStr _ => inp
      end
    else
      (* Store other numerics with their current display unit *)
      store (numberToString num) (getInputUnit id inp).

End WithHost.
End Form.

(** ** Advisory system (inline non-blocking hints) *)

Module Advisory.
Import Floats.
Import Strings Form.

(** An entry of [HINTS]; [None] is a key that the entry does not have. *)
Record hint : Type := {
  min : option float; max : option float; warnMin : option float;
  msg : option jsstring
}.

Definition sizeHint (text : jsstring) : hint :=
  {| min := Some neg_infinity; max := None; warnMin := Some 0%float;
     msg := Some text |}.

(** [HINTS[id]], for the keys of [HINTS] and the identifiers of the page,
    none of which is a property that every object has. *)
Definition HINTS (id : jsstring) : option hint :=
  if streq id (js "glandWidth") then Some (sizeHint (js "Width is negative; verify sign."))
  else if streq id (js "glandDepth") then Some (sizeHint (js "Depth is negative; verify sign."))
  else if streq id (js "glandAngle") then
    Some {| min := Some (-180)%float; max := Some 180%float; warnMin := None;
            msg := Some (js "Angle should be within -180° to 180°.") |}
  else if streq id (js "glandTopR") then Some (sizeHint (js "Radius is negative; verify."))
  else if streq id (js "glandBottomR") then Some (sizeHint (js "Radius is negative; verify."))
  else if streq id (js "gap") then Some (sizeHint (js "Gap is negative; verify."))
  else if streq id (js "glandCenterline") then
    Some (sizeHint (js "Centerline is negative; verify."))
  else if streq id (js "oringCS") then Some (sizeHint (js "Cross‑section is negative; verify."))
  else if streq id (js "oringID") then Some (sizeHint (js "O‑ring ID is negative; verify."))
  else if streq id (js "alpha") then
    Some {| min := Some 0%float; max := None; warnMin := None;
            msg := Some (js "CTE should normally be ≥ 0. Check units/value.") |}
  else if isTempId id then
    Some {| min := None; max := None; warnMin := None; msg := None |}
  else None.

(** What [showHint] is called with: the hint is hidden, or shown as an
    error or as a warning with a text. *)
Inductive hintState : Type :=
  | Hidden
  | Invalid (text : jsstring)
  | Warn (text : jsstring).

(** [n < bound], when the entry has the bound. *)
Definition below (n : float) (bound : option float) : bool :=
  match bound with
  | Some b => (n <? b)%float
  | None => false
  end.

Definition above (n : float) (bound : option float) : bool :=
  match bound with
  | Some b => (b <? n)%float
  | None => false
  end.

(** Evaluate a field against advisory thresholds and render hint: the call
    of [showHint]; [None] when there is no entry or no element, and
    nothing is done. *)
Definition advisoryCheck (doc : document) (id : jsstring) : option hintState :=
  match HINTS id with
  | None => None
  | Some cfg =>
    match doc id with
    | None => None
    | Some el =>
      let raw := trim el.(value) in
      if streq raw emptyString then Some Hidden
      else
        let n := StringToNumber raw in
        if negb (is_finite n) then Some (Invalid (js "Please enter a numeric value."))
        else if below n cfg.(min)
        then Some (Invalid (orElse cfg.(msg) (js "Please enter a numeric value.")))
        else if above n cfg.(max)
        then Some (Invalid (orElse cfg.(msg) (js "Please enter a numeric value.")))
        else if below n cfg.(warnMin)
        then Some (Warn (orElse cfg.(msg) (js "Please verify.")))
        else Some Hidden
    end
  end.

End Advisory.

(** ** Forms and tables of the examples *)

Module Examples.
Import Floats.
Import Strings Catalog Form.

(** A field as the input listener leaves it, and a temperature field as
    an older session saved it, with its unit. *)
Definition field (v u : jsstring) : element :=
  {| value := v; originalValue := Some v; originalUnit := Some u; tempField := false |}.

Definition savedTemperature (v u : jsstring) : element :=
  {| value := v; originalValue := Some v; originalUnit := Some u; tempField := true |}.

(** The form of the worked example, in millimetres, with a maximal
    temperature of 212 °F. *)
Definition exampleForm : document := fun id =>
  if streq id (js "glandWidth") then Some (field (js "2.5") (js "mm"))
  else if streq id (js "glandDepth") then Some (field (js "1.8") (js "mm"))
  else if streq id (js "glandAngle") then Some (field (js "45") (js "mm"))
  else if streq id (js "glandTopR") then Some (field (js "0.3") (js "mm"))
  else if streq id (js "glandBottomR") then Some (field (js "0.2") (js "mm"))
  else if streq id (js "gap") then Some (field (js "0.1") (js "mm"))
  else if streq id (js "glandCenterline") then Some (field (js "52") (js "mm"))
  else if streq id (js "oringCS") then Some (field (js "2.0") (js "mm"))
  else if streq id (js "oringID") then Some (field (js "50") (js "mm"))
  else if streq id (js "alpha") then Some (field (js "1.75e-4") emptyString)
  else if streq id (js "oringMaterialGroup") then Some (field (js "NBR") emptyString)
  else if streq id (js "tempMax") then Some (savedTemperature (js "212") (js "F"))
  else None.

(** The element with what is typed into it. *)
Definition typed (inp : element) (raw : jsstring) : element :=
  {| value := raw; originalValue := inp.(originalValue);
     originalUnit := inp.(originalUnit); tempField := inp.(tempField) |}.

(** A collation for the examples: shorter strings first. *)
Definition byLength (a b : jsstring) : Z :=
  Z.of_nat (List.length a) - Z.of_nat (List.length b).

Definition tableWithoutDash : jsstring :=
  js "Size,CS,ID
004,1.02,1.78".

Definition paddedTable : jsstring :=
  65279%N :: js "
  " ++ exampleTable ++ js "

".

Definition sortedTable : jsstring :=
  js "Dash,CS,ID
004,1.02,1.78
005,1.5,2
0010,2,3".

Definition exampleRows : list row :=
  [ {| dash := js "004"; cs := 1.02%float; id := 1.78%float |};
    {| dash := js "A12"; cs := 2%float; id := 3%float |} ].

(** The size fields of the form. *)
Definition sizeFields : list jsstring :=
  [js "glandWidth"; js "glandDepth"; js "glandTopR"; js "glandBottomR"; js "gap";
   js "glandCenterline"; js "oringCS"; js "oringID"].

(** The parameters with every length in another unit, [k] of it to one of
    the old: the angle and the expansion coefficient stay. *)
Definition scaleLengths (k : R) (p : Script.params (A := RealModel.RealArith))
  : Script.params (A := RealModel.RealArith) :=
  Script.Build_params (A := RealModel.RealArith)
    (k * p.(Script.cs))%R (k * p.(Script.id))%R (k * p.(Script.gw))%R
    (k * p.(Script.gd))%R p.(Script.angle)
    (k * p.(Script.rTop))%R (k * p.(Script.rBottom))%R (k * p.(Script.gap))%R
    (k * p.(Script.centerline))%R p.(Script.alpha).

(** The entry of a temperature, in exact arithmetic. *)
Definition entryAt (p : Script.params (A := RealModel.RealArith)) (t : R)
  : Script.temperatureResult :=
  Script.Build_temperatureResult (A := RealModel.RealArith) t
    ((1 - p.(Script.gd) / (p.(Script.cs) * (1 + p.(Script.alpha) * (t - 23)))) * 100)%R
    (2 * Rtrigo1.PI * Rtrigo1.PI * (p.(Script.cs) / 2) * (p.(Script.cs) / 2)
     * ((p.(Script.id) + p.(Script.cs)) / 2)
     * (1 + 3 * p.(Script.alpha) * (t - 23))
     / (RealModel.dovetailCrossSection p.(Script.gw) p.(Script.gd) p.(Script.angle)
          p.(Script.rTop) p.(Script.rBottom) p.(Script.gap)
        * Rtrigo1.PI * p.(Script.centerline)) * 100)%R.

(** A calculation with a loose O-ring, and its only entry, with a
    compression of 10 and a gland fill of 50 per cent. *)
Definition lowEntry : Script.temperatureResult (A := RealModel.RealArith) :=
  Script.Build_temperatureResult (A := RealModel.RealArith) 23%R 10%R 50%R.

Definition lowOut : Script.calculation (A := RealModel.RealArith) :=
  Script.Build_calculation (A := RealModel.RealArith) (-1)%R 100%R [lowEntry].

Definition ambientOnly : Report.metaMap (A := RealModel.RealArith) :=
  {| Report.ambient := Some lowEntry; Report.min := None;
     Report.nominal := None; Report.max := None |}.

(** The entry that a calculation in binary64 has at the ambient
    temperature when no temperature is given. *)
Definition ambientEntry (M : DoubleModel.MathLib)
  (p : Script.params (A := DoubleModel.DoubleArith M))
  : Script.temperatureResult (A := DoubleModel.DoubleArith M) :=
  List.hd (Script.Build_temperatureResult (A := DoubleModel.DoubleArith M) nan nan nan)
    (Script.calculateDovetail p []).(Script.temperatureResults).

End Examples.

(** ** Numbers of binary64 *)

Module NumberVocabulary.
Import Floats.

(** A value that is a Number other than NaN, and one that is finite and
    not zero, on the side of the specification of binary64. *)
Definition SFnumber (x : spec_float) : Prop := x <> S754_nan.

Definition SFnonzero (x : spec_float) : Prop :=
  exists s m e, x = S754_finite s m e.

Definition number (x : float) : Prop := SFnumber (Prim2SF x).

End NumberVocabulary.

(** The real number that a binary64 value stands for (0 for an infinity and
    for NaN), and where a real lies between two neighbours on a grid. *)
Module RealValue.
Import Floats.
Local Open Scope R_scope.

Definition pow2 (e : Z) : R := powerRZ 2 e.

Definition sign (s : bool) : R := if s then -1 else 1.

Definition SF2R (x : spec_float) : R :=
  match x with
  | S754_finite s m e => (if s then -1 else 1) * IZR (Z.pos m) * pow2 e
  | _ => 0
  end.

Definition F2R (x : float) : R := SF2R (Prim2SF x).

(** Where a real [x] lies in the interval from [m * 2^e] to [(m+1) * 2^e]. *)
Definition inbetween (x : R) (m e : Z) (l : location) : Prop :=
  match l with
  | loc_Exact => x = IZR m * pow2 e
  | loc_Inexact Lt => IZR m * pow2 e < x < (IZR m + / 2) * pow2 e
  | loc_Inexact Eq => x = (IZR m + / 2) * pow2 e
  | loc_Inexact Gt => (IZR m + / 2) * pow2 e < x < (IZR m + 1) * pow2 e
  end.

End RealValue.

(** * Properties *)

(** ** Facts of exact real arithmetic *)

Module RealFacts.
Import RealModel.
Local Open Scope R_scope.

Ltac real_arith :=
  cbn; unfold Q2R; cbn; rewrite ?Rinv_1, ?Rmult_1_r.

Lemma Rleb_true (a b : R) : Rleb a b = true <-> a <= b.
Proof. unfold Rleb; destruct (Rle_dec a b); split; intros; try easy. Qed.

Lemma Rleb_false (a b : R) : Rleb a b = false <-> b < a.
Proof. unfold Rleb; destruct (Rle_dec a b); split; intros; try easy; lra. Qed.

Lemma Rltb_true (a b : R) : Rltb a b = true <-> a < b.
Proof. unfold Rltb; destruct (Rlt_dec a b); split; intros; try easy. Qed.

Lemma Rltb_false (a b : R) : Rltb a b = false <-> b <= a.
Proof. unfold Rltb; destruct (Rlt_dec a b); split; intros; try easy; lra. Qed.

Lemma Reqb_true (a b : R) : Reqb a b = true <-> a = b.
Proof. unfold Reqb; destruct (Req_dec_T a b); split; intros; try easy. Qed.

Lemma circularSegmentArea_unfold (r angle : R) :
  circularSegmentArea r angle =
  let h := r * (1 - cos (halfAngle angle)) in
  if Rleb h 0 then 0
  else r * r * acos ((r - h) / r) - (r - h) * sqrt (2 * r * h - h * h).
Proof.
  unfold circularSegmentArea, Script.circularSegmentArea, Script.PI, halfAngle.
  real_arith. reflexivity.
Qed.

Lemma cos_le_1 (x : R) : cos x <= 1.
Proof. destruct (COS_bound x); assumption. Qed.

(** A radius that is not positive gives no segment: the chord height is
    then at most 0. *)
Lemma circularSegmentArea_nonpos_radius (r angle : R) :
  r <= 0 -> circularSegmentArea r angle = 0.
Proof.
  intros Hr. rewrite circularSegmentArea_unfold. cbv zeta.
  pose proof (cos_le_1 (halfAngle angle)) as Hc.
  assert (Hh : r * (1 - cos (halfAngle angle)) <= 0) by nra.
  apply Rleb_true in Hh. rewrite Hh. reflexivity.
Qed.



(** For a positive radius and a half angle in [[0, PI]] both branches of
    the function agree with the closed form. *)
Lemma circularSegmentArea_closed (r angle : R) :
  0 < r -> 0 <= halfAngle angle <= PI ->
  circularSegmentArea r angle = segmentClosedForm r (halfAngle angle).
Proof.
  intros Hr Hphi. rewrite circularSegmentArea_unfold. cbv zeta.
  unfold segmentClosedForm. generalize dependent (halfAngle angle).
  intros phi Hphi.
  pose proof (cos_le_1 phi) as Hc1.
  pose proof (sin2_cos2 phi) as Hsc. unfold Rsqr in Hsc.
  assert (Hs : 0 <= sin phi) by (apply sin_ge_0; lra).
  destruct (Rleb (r * (1 - cos phi)) 0) eqn:Hh.
  - apply Rleb_true in Hh.
    assert (Hc : cos phi = 1) by nra.
    assert (Hphi0 : phi = 0).
    { rewrite <- (acos_cos phi) by lra. rewrite Hc. apply acos_1. }
    rewrite Hphi0, sin_0. ring.
  - apply Rleb_false in Hh.
    replace ((r - r * (1 - cos phi)) / r) with (cos phi) by (field; lra).
    rewrite acos_cos by lra.
    replace (2 * r * (r * (1 - cos phi)) - r * (1 - cos phi) * (r * (1 - cos phi)))
      with ((r * sin phi) * (r * sin phi)) by nra.
    rewrite sqrt_square by nra. ring.
Qed.

Lemma segmentClosedForm_pos (r phi : R) :
  r <> 0 -> 0 < phi -> 0 < segmentClosedForm r phi.
Proof.
  intros Hr Hphi. unfold segmentClosedForm.
  assert (H2 : sin (2 * phi) < 2 * phi) by (apply sin_lt_x; lra).
  rewrite sin_2a in H2.
  apply Rmult_lt_0_compat; [nra | lra].
Qed.

Lemma halfAngle_range (angle : R) :
  0 < angle < 360 -> 0 < halfAngle angle < PI.
Proof.
  intros [H0 H360]. unfold halfAngle. pose proof PI_RGT_0 as Hpi. split.
  - apply Rdiv_lt_0_compat; [|lra]. apply Rdiv_lt_0_compat; [|lra]. nra.
  - assert (angle * PI < 360 * PI) by nra. lra.
Qed.

Lemma circularSegmentArea_pos (r angle : R) :
  0 < r -> 0 < angle < 360 -> 0 < circularSegmentArea r angle.
Proof.
  intros Hr Ha. apply halfAngle_range in Ha.
  rewrite circularSegmentArea_closed by lra.
  apply segmentClosedForm_pos; lra.
Qed.

Lemma halfAngle_opp (angle : R) : halfAngle (- angle) = - halfAngle angle.
Proof. unfold halfAngle. field. Qed.

Lemma circularSegmentArea_even (r angle : R) :
  circularSegmentArea r (- angle) = circularSegmentArea r angle.
Proof.
  rewrite !circularSegmentArea_unfold, halfAngle_opp, cos_neg. reflexivity.
Qed.

End RealFacts.

(** ** Facts of binary64 arithmetic

    Derived from the specification of the primitive floats ([SpecFloat],
    [FloatAxioms]). *)

Module DoubleFacts.
Import Floats.
Import SpecFloatFacts.



Lemma Prim2SF_inj (x y : float) : Prim2SF x = Prim2SF y -> x = y.
Proof.
  intros H. rewrite <- (SF2Prim_Prim2SF x), <- (SF2Prim_Prim2SF y), H. reflexivity.
Qed.


Lemma is_finite_spec (x : float) : is_finite x = SFfinite (Prim2SF x).
Proof.
  unfold is_finite, is_nan, is_infinity.
  rewrite !eqb_spec, abs_spec.
  destruct (Prim2SF x) as [s|s| |s m e]; try destruct s; cbn; try reflexivity;
  unfold SFeqb, SFcompare; rewrite ?Z.compare_refl, ?Pos.compare_cont_refl; reflexivity.
Qed.

(** A non-finite operand makes the result of an operation non-finite. *)
Lemma add_nonfinite_l (x y : float) :
  is_finite x = false -> is_finite (x + y) = false.
Proof.
  rewrite !is_finite_spec, add_spec.
  destruct (Prim2SF x) as [s|s| |s m e]; try discriminate;
  destruct (Prim2SF y) as [s'|s'| |s' m' e']; try destruct s; try destruct s'; reflexivity.
Qed.

Lemma sub_nonfinite_l (x y : float) :
  is_finite x = false -> is_finite (x - y) = false.
Proof.
  rewrite !is_finite_spec, sub_spec.
  destruct (Prim2SF x) as [s|s| |s m e]; try discriminate;
  destruct (Prim2SF y) as [s'|s'| |s' m' e']; try destruct s; try destruct s'; reflexivity.
Qed.

Lemma add_nonfinite_r (x y : float) :
  is_finite y = false -> is_finite (x + y) = false.
Proof.
  rewrite !is_finite_spec, add_spec.
  destruct (Prim2SF y) as [s'|s'| |s' m' e']; try discriminate;
  destruct (Prim2SF x) as [s|s| |s m e]; try destruct s; try destruct s'; reflexivity.
Qed.

Lemma mul_nonfinite_l (x y : float) :
  is_finite x = false -> is_finite (x * y) = false.
Proof.
  rewrite !is_finite_spec, mul_spec.
  destruct (Prim2SF x) as [s|s| |s m e]; try discriminate;
  destruct (Prim2SF y) as [s'|s'| |s' m' e']; reflexivity.
Qed.

Lemma mul_nonfinite_r (x y : float) :
  is_finite y = false -> is_finite (x * y) = false.
Proof.
  rewrite !is_finite_spec, mul_spec.
  destruct (Prim2SF y) as [s'|s'| |s' m' e']; try discriminate;
  destruct (Prim2SF x) as [s|s| |s m e]; reflexivity.
Qed.

Lemma div_zero_nonfinite (x : float) : is_finite (x / 0) = false.
Proof.
  rewrite is_finite_spec, div_spec.
  change (Prim2SF 0) with (S754_zero false).
  destruct (Prim2SF x) as [s|s| |s m e]; reflexivity.
Qed.

(** Rounding does not look at the sign. *)
Lemma binary_round_aux_opp (s : bool) (m e : Z) (l : location) :
  binary_round_aux prec emax (negb s) m e l
  = SFopp (binary_round_aux prec emax s m e l).
Proof.
  unfold binary_round_aux.
  destruct (shr_fexp prec emax m e l) as [mrs' e'].
  destruct (shr_fexp prec emax _ e' loc_Exact) as [mrs'' e''].
  destruct (shr_m mrs''); try reflexivity.
  destruct (e'' <=? emax - prec)%Z; reflexivity.
Qed.

Lemma xorb_negb_l (a b : bool) : xorb (negb a) b = negb (xorb a b).
Proof. destruct a, b; reflexivity. Qed.

Lemma SFmul_opp_l (x y : spec_float) :
  SFmul prec emax (SFopp x) y = SFopp (SFmul prec emax x y).
Proof.
  destruct x as [s|s| |s m e], y as [s'|s'| |s' m' e']; cbn;
    rewrite ?xorb_negb_l, ?binary_round_aux_opp; try reflexivity.
Qed.

Lemma SFdiv_opp_l (x y : spec_float) :
  SFdiv prec emax (SFopp x) y = SFopp (SFdiv prec emax x y).
Proof.
  destruct x as [s|s| |s m e], y as [s'|s'| |s' m' e']; cbn;
    rewrite ?xorb_negb_l; try reflexivity.
  destruct (SFdiv_core_binary prec emax (Z.pos m) e (Z.pos m') e') as [[mz ez] lz].
  apply binary_round_aux_opp.
Qed.

Lemma mul_opp_l (x y : float) : (- x * y = - (x * y))%float.
Proof.
  apply Prim2SF_inj. rewrite opp_spec, !mul_spec, opp_spec. apply SFmul_opp_l.
Qed.

Lemma div_opp_l (x y : float) : (- x / y = - (x / y))%float.
Proof.
  apply Prim2SF_inj. rewrite opp_spec, !div_spec, opp_spec. apply SFdiv_opp_l.
Qed.

(** *** The order *)


Lemma compare_cont_Eq (a b : positive) : Pos.compare_cont Eq a b = (a ?= b)%positive.
Proof. reflexivity. Qed.

Ltac cmp_cases :=
  repeat match goal with
  | |- context [(?a ?= ?b)%Z] => destruct (Z.compare_spec a b)
  | H : context [(?a ?= ?b)%Z] |- _ => destruct (Z.compare_spec a b)
  | |- context [(?a ?= ?b)%positive] => destruct (Pos.compare_spec a b)
  | H : context [(?a ?= ?b)%positive] |- _ => destruct (Pos.compare_spec a b)
  | |- context [Pos.compare_cont Eq ?a ?b] =>
    change (Pos.compare_cont Eq a b) with (a ?= b)%positive in *;
    destruct (Pos.compare_spec a b)
  | H : context [Pos.compare_cont Eq ?a ?b] |- _ =>
    change (Pos.compare_cont Eq a b) with (a ?= b)%positive in *;
    destruct (Pos.compare_spec a b)
  end.

Lemma SFltb_trans (x y z : spec_float) :
  SFltb x y = true -> SFltb y z = true -> SFltb x z = true.
Proof.
  unfold SFltb, SFcompare.
  destruct x as [s1|s1| |s1 m1 e1], y as [s2|s2| |s2 m2 e2], z as [s3|s3| |s3 m3 e3];
    try destruct s1; try destruct s2; try destruct s3; cbn;
    try discriminate; try reflexivity;
    rewrite ?compare_cont_Eq; intros H1 H2; cmp_cases; subst; cbn in *;
    try discriminate; try reflexivity; try lia.
Qed.

Lemma SFltb_irrefl (x : spec_float) : SFltb x x = false.
Proof.
  unfold SFltb, SFcompare.
  destruct x as [s|s| |s m e]; try destruct s; cbn; try reflexivity;
    rewrite Z.compare_refl, compare_cont_Eq, Pos.compare_refl; reflexivity.
Qed.


Lemma SFcompare_total (x y : spec_float) :
  x <> S754_nan -> y <> S754_nan ->
  SFeqb x y = false -> SFltb x y = true \/ SFltb y x = true.
Proof.
  unfold SFeqb, SFltb, SFcompare.
  destruct x as [s1|s1| |s1 m1 e1], y as [s2|s2| |s2 m2 e2];
    try destruct s1; try destruct s2; cbn; intros Hx Hy H;
    try congruence; try (left; reflexivity); try (right; reflexivity);
    rewrite ?compare_cont_Eq in *; cmp_cases; subst; cbn in *;
    try discriminate; try lia; try (left; reflexivity); try (right; reflexivity).
Qed.

(** *** The sign of a difference *)

Local Open Scope Z_scope.



Lemma digits2_pos_bounds (p : positive) :
  2 ^ (Z.pos (digits2_pos p) - 1) <= Z.pos p < 2 ^ Z.pos (digits2_pos p).
Proof.
  induction p as [p IH|p IH|]; cbn [digits2_pos].
  - rewrite Pos2Z.inj_succ.
    replace (Z.succ (Z.pos (digits2_pos p)) - 1) with (Z.succ (Z.pos (digits2_pos p) - 1)) by lia.
    rewrite !Z.pow_succ_r by lia. lia.
  - rewrite Pos2Z.inj_succ.
    replace (Z.succ (Z.pos (digits2_pos p)) - 1) with (Z.succ (Z.pos (digits2_pos p) - 1)) by lia.
    rewrite !Z.pow_succ_r by lia. lia.
  - cbn. lia.
Qed.

Lemma shr_m_shr_1 (mrs : shr_record) :
  0 <= shr_m mrs -> shr_m (shr_1 mrs) = shr_m mrs / 2.
Proof.
  destruct mrs as [m r s]. cbn [shr_m]. intros Hm.
  destruct m as [|p|p]; [reflexivity| |lia].
  destruct p as [p|p|]; cbn [shr_1 shr_m].
  - rewrite Pos2Z.inj_xI. apply Z.div_unique with (r := 1); lia.
  - rewrite Pos2Z.inj_xO. apply Z.div_unique with (r := 0); lia.
  - reflexivity.
Qed.

Lemma shr_m_iter (n : positive) :
  forall mrs, 0 <= shr_m mrs ->
  shr_m (iter_pos shr_1 n mrs) = shr_m mrs / 2 ^ Z.pos n.
Proof.
  induction n as [n IH|n IH|]; intros mrs Hm; cbn [iter_pos].
  - assert (H1 : 0 <= shr_m (shr_1 mrs)).
    { rewrite shr_m_shr_1 by assumption. apply Z.div_pos; lia. }
    assert (H2 : 0 <= shr_m (iter_pos shr_1 n (shr_1 mrs))).
    { rewrite IH by assumption. apply Z.div_pos; [assumption|]. apply Z.pow_pos_nonneg; lia. }
    rewrite IH, IH, shr_m_shr_1 by assumption.
    rewrite !Z.div_div by (try apply Z.pow_pos_nonneg; lia).
    f_equal.
    replace (Z.pos n~1) with (1 + Z.pos n + Z.pos n) by lia.
    rewrite Z.pow_add_r, Z.pow_add_r by lia. change (2 ^ 1) with 2. ring.
  - assert (H2 : 0 <= shr_m (iter_pos shr_1 n mrs)).
    { rewrite IH by assumption. apply Z.div_pos; [assumption|]. apply Z.pow_pos_nonneg; lia. }
    rewrite IH, IH by assumption.
    rewrite !Z.div_div by (try apply Z.pow_pos_nonneg; lia).
    f_equal.
    replace (Z.pos n~0) with (Z.pos n + Z.pos n) by lia.
    rewrite Z.pow_add_r by lia. ring.
  - rewrite shr_m_shr_1 by assumption. reflexivity.
Qed.

Lemma shr_record_of_loc_m (m : Z) (l : location) : shr_m (shr_record_of_loc m l) = m.
Proof. destruct l as [|[]]; reflexivity. Qed.

(** Above the least exponent, bringing a positive mantissa to its format
    keeps it positive. *)
Lemma shr_fexp_pos (p : positive) (e : Z) (l : location) :
  SpecFloat.emin prec emax <= e ->
  0 < shr_m (fst (shr_fexp prec emax (Z.pos p) e l))
  /\ SpecFloat.emin prec emax <= snd (shr_fexp prec emax (Z.pos p) e l).
Proof.
  intros He. unfold shr_fexp, shr. cbn [Zdigits2].
  pose proof (digits2_pos_bounds p) as [Hlo Hhi].
  set (d := Z.pos (digits2_pos p)) in *.
  destruct (fexp prec emax (d + e) - e) as [|q|q] eqn:Hn; cbn [fst snd].
  - rewrite shr_record_of_loc_m. lia.
  - rewrite shr_m_iter by (rewrite shr_record_of_loc_m; lia).
    rewrite shr_record_of_loc_m. unfold fexp in Hn.
    assert (Hq : Z.pos q = d - prec) by lia.
    split; [|lia].
    apply Z.div_str_pos. split; [apply Z.pow_pos_nonneg; lia|].
    eapply Z.le_trans; [|exact Hlo].
    apply Z.pow_le_mono_r; [lia|]. rewrite Hq. unfold prec. lia.
  - rewrite shr_record_of_loc_m. lia.
Qed.

Lemma round_nearest_even_pos (m : Z) (l : location) :
  0 < m -> 0 < round_nearest_even m l.
Proof.
  intros Hm. destruct l as [|[]]; cbn; try lia. destruct (Z.even m); lia.
Qed.


Lemma binary_round_aux_signed (s : bool) (p : positive) (e : Z) (l : location) :
  SpecFloat.emin prec emax <= e ->
  SFsigned s (binary_round_aux prec emax s (Z.pos p) e l).
Proof.
  intros He. unfold binary_round_aux.
  destruct (shr_fexp_pos p e l He) as [Hm1 He1].
  destruct (shr_fexp prec emax (Z.pos p) e l) as [mrs' e']. cbn [fst snd] in *.
  pose proof (round_nearest_even_pos _ (loc_of_shr_record mrs') Hm1) as Hm2.
  destruct (round_nearest_even (shr_m mrs') (loc_of_shr_record mrs')) as [|p2|p2]; try lia.
  destruct (shr_fexp_pos p2 e' loc_Exact He1) as [Hm3 He3].
  destruct (shr_fexp prec emax (Z.pos p2) e' loc_Exact) as [mrs'' e'']. cbn [fst snd] in *.
  destruct (shr_m mrs'') as [|p3|p3]; try lia.
  destruct (e'' <=? emax - prec); [left; eauto | right; reflexivity].
Qed.

Lemma shl_align_exp (m : positive) (e e' : Z) :
  Z.min e e' <= snd (shl_align m e e').
Proof.
  unfold shl_align. destruct (e' - e) eqn:H; cbn [snd]; lia.
Qed.

Lemma binary_round_signed (s : bool) (m : positive) (e : Z) :
  SpecFloat.emin prec emax <= e ->
  SFsigned s (binary_round prec emax s m e).
Proof.
  intros He. unfold binary_round.
  pose proof (shl_align_exp m e (fexp prec emax (Z.pos (digits2_pos m) + e))) as H.
  destruct (shl_align m e _) as [mz ez]. cbn [snd] in H.
  apply binary_round_aux_signed. unfold fexp in H. lia.
Qed.

Lemma pos_iter_xO (m d : positive) :
  Z.pos (Pos.iter xO m d) = Z.pos m * 2 ^ Z.pos d.
Proof.
  induction d as [|d IH] using Pos.peano_ind.
  - cbn. lia.
  - rewrite Pos.iter_succ, Pos2Z.inj_xO, IH, Pos2Z.inj_succ, Z.pow_succ_r by lia. ring.
Qed.

Lemma shl_align_value (m : positive) (e e' : Z) :
  e' <= e -> Z.pos (fst (shl_align m e e')) = Z.pos m * 2 ^ (e - e').
Proof.
  intros He. unfold shl_align. destruct (e' - e) as [|d|d] eqn:Hd; cbn [fst]; try lia.
  - replace (e - e') with 0 by lia. cbn. lia.
  - rewrite pos_iter_xO. f_equal. f_equal. lia.
Qed.

(** What validity says of a finite value: at most [prec] digits, exactly
    [prec] of them above the least exponent. *)
Lemma bounded_inv (m : positive) (e : Z) :
  bounded prec emax m e = true ->
  SpecFloat.emin prec emax <= e
  /\ Z.pos m < 2 ^ prec
  /\ (SpecFloat.emin prec emax < e -> 2 ^ (prec - 1) <= Z.pos m).
Proof.
  unfold bounded, canonical_mantissa. intros H.
  apply andb_prop in H. destruct H as [H _]. apply Z.eqb_eq in H.
  pose proof (digits2_pos_bounds m) as [Hlo Hhi].
  unfold fexp in H. split; [lia|]. split.
  - eapply Z.lt_le_trans; [exact Hhi|]. apply Z.pow_le_mono_r; lia.
  - intros He. replace (prec - 1) with (Z.pos (digits2_pos m) - 1) by lia. exact Hlo.
Qed.

Lemma magnitude_lt (m1 m2 : positive) (e1 e2 : Z) :
  bounded prec emax m1 e1 = true -> bounded prec emax m2 e2 = true ->
  e1 < e2 ->
  Z.pos m1 * 2 ^ (e1 - Z.min e1 e2) < Z.pos m2 * 2 ^ (e2 - Z.min e1 e2).
Proof.
  intros H1 H2 He.
  apply bounded_inv in H1. destruct H1 as (He1 & Hm1 & _).
  apply bounded_inv in H2. destruct H2 as (He2 & _ & Hm2).
  specialize (Hm2 ltac:(lia)).
  rewrite Z.min_l by lia. replace (e1 - e1) with 0 by lia.
  assert (Hp : 2 ^ prec = 2 * 2 ^ (prec - 1)).
  { rewrite <- Z.pow_succ_r by (unfold prec; lia). reflexivity. }
  assert (Hw : 2 ^ 1 <= 2 ^ (e2 - e1)) by (apply Z.pow_le_mono_r; lia).
  change (2 ^ 1) with 2 in Hw. change (2 ^ 0) with 1. nia.
Qed.

(** The comparison of two valid finite values is the comparison of their
    mantissas once they are brought to the same exponent. *)
Lemma SFltb_aligned (s1 s2 : bool) (m1 m2 : positive) (e1 e2 : Z) :
  bounded prec emax m1 e1 = true -> bounded prec emax m2 e2 = true ->
  let ez := Z.min e1 e2 in
  SFltb (S754_finite s1 m1 e1) (S754_finite s2 m2 e2)
  = (cond_Zopp s1 (Z.pos (fst (shl_align m1 e1 ez)))
     - cond_Zopp s2 (Z.pos (fst (shl_align m2 e2 ez))) <? 0).
Proof.
  intros H1 H2 ez.
  rewrite !shl_align_value by (unfold ez; lia).
  assert (Hx : 0 < Z.pos m1 * 2 ^ (e1 - ez))
    by (apply Z.mul_pos_pos; [lia|apply Z.pow_pos_nonneg; unfold ez; lia]).
  assert (Hy : 0 < Z.pos m2 * 2 ^ (e2 - ez))
    by (apply Z.mul_pos_pos; [lia|apply Z.pow_pos_nonneg; unfold ez; lia]).
  pose proof (magnitude_lt m1 m2 e1 e2 H1 H2) as Hlt.
  pose proof (magnitude_lt m2 m1 e2 e1 H2 H1) as Hgt.
  rewrite (Z.min_comm e2 e1) in Hgt. fold ez in Hlt, Hgt.
  assert (Heq : e1 = e2 -> Z.pos m1 * 2 ^ (e1 - ez) = Z.pos m1 /\ Z.pos m2 * 2 ^ (e2 - ez) = Z.pos m2).
  { intros ->. unfold ez. rewrite Z.min_id, Z.sub_diag, Z.pow_0_r, !Z.mul_1_r.
    split; reflexivity. }
  unfold SFltb, SFcompare.
  destruct (Z.ltb_spec (cond_Zopp s1 (Z.pos m1 * 2 ^ (e1 - ez))
                        - cond_Zopp s2 (Z.pos m2 * 2 ^ (e2 - ez))) 0) as [Hd|Hd];
    destruct s1, s2; cbn [cond_Zopp] in Hd; try reflexivity; try lia;
    (destruct (Z.compare_spec e1 e2) as [He|He|He];
     [ destruct (Heq He) as [Hx1 Hy1];
       change (Pos.compare_cont Eq m1 m2) with (m1 ?= m2)%positive;
       destruct (Pos.compare_spec m1 m2) as [Hm|Hm|Hm]; cbn; try reflexivity; lia
     | specialize (Hlt He); cbn; try reflexivity; lia
     | specialize (Hgt He); cbn; try reflexivity; lia ]).
Qed.

Lemma SFsigned_ltb_zero (s : bool) (x : spec_float) :
  SFsigned s x -> SFltb x (S754_zero false) = s.
Proof.
  intros [(m & e & ->)| ->]; destruct s; reflexivity.
Qed.


(** The sign of a difference of finite values is exact: it is negative
    just when the first is below the second. *)
Lemma SFsub_ltb_zero (x y : spec_float) :
  SpecFloat.valid_binary prec emax x = true ->
  SpecFloat.valid_binary prec emax y = true ->
  SFfinite x = true -> SFfinite y = true ->
  SFltb (SFsub prec emax x y) (S754_zero false) = SFltb x y.
Proof.
  destruct x as [s1|s1| |s1 m1 e1], y as [s2|s2| |s2 m2 e2];
    try discriminate; cbn [SpecFloat.valid_binary]; intros V1 V2 _ _.
  - destruct s1, s2; reflexivity.
  - destruct s2; reflexivity.
  - destruct s1; reflexivity.
  - rewrite (SFltb_aligned s1 s2 m1 m2 e1 e2 V1 V2). cbv zeta.
    unfold SFsub.
    assert (He : SpecFloat.emin prec emax <= Z.min e1 e2).
    { apply bounded_inv in V1, V2. lia. }
    destruct (cond_Zopp s1 _ - cond_Zopp s2 _) as [|p|p]; cbn [binary_normalize].
    + reflexivity.
    + apply SFsigned_ltb_zero, binary_round_signed, He.
    + apply SFsigned_ltb_zero, binary_round_signed, He.
Qed.


Lemma sub_ltb_zero (x y : float) :
  is_finite x = true -> is_finite y = true ->
  (x - y <? 0)%float = (x <? y)%float.
Proof.
  rewrite !is_finite_spec, !ltb_spec, sub_spec. intros Hx Hy.
  apply SFsub_ltb_zero; auto using Prim2SF_valid.
Qed.

End DoubleFacts.

(** ** The order laws in both readings *)

Module Laws.

Section Real.
Import RealModel RealFacts.
Local Open Scope R_scope.

#[export] Instance RealLaws : OrderLaws RealArith.
Proof.
  split; cbn.
  - intros x y z Hxy Hyz. apply Rltb_true in Hxy, Hyz. apply Rltb_true. lra.
  - intros x. apply Rltb_false. lra.
  - intros x y _ _ H. unfold Reqb in H. destruct (Req_dec_T x y); [discriminate|].
    destruct (Rtotal_order x y) as [Hlt|[Heq|Hgt]].
    + left. apply Rltb_true. exact Hlt.
    + contradiction.
    + right. apply Rltb_true. exact Hgt.
  - apply Rltb_true. unfold Q2R. cbn. lra.
  - intros x y _ _. unfold Q2R. cbn.
    destruct (Rltb x y) eqn:H.
    + apply Rltb_true in H. apply Rltb_true. lra.
    + apply Rltb_false in H. apply Rltb_false. lra.
  - reflexivity.
  - intros x. apply Reqb_true. reflexivity.
  - intros x y H. apply Reqb_true in H. exact H.
Qed.
End Real.

Section Double.
Import Floats.
Import DoubleModel DoubleFacts SpecFloatFacts.

Lemma SFeqb_inv (a b : spec_float) :
  SFeqb a b = true ->
  a = b \/ (exists s s', a = S754_zero s /\ b = S754_zero s').
Proof.
  unfold SFeqb, SFcompare.
  destruct a as [s1|s1| |s1 m1 e1], b as [s2|s2| |s2 m2 e2];
    try destruct s1; try destruct s2; cbn; try discriminate; eauto;
    destruct (Z.compare_spec e1 e2); try discriminate;
    change (Pos.compare_cont Eq m1 m2) with (m1 ?= m2)%positive;
    destruct (Pos.compare_spec m1 m2); cbn; try discriminate;
    subst; eauto.
Qed.

Lemma is_zero_spec (x : float) :
  is_zero x = true <-> exists s, Prim2SF x = S754_zero s.
Proof.
  unfold is_zero. rewrite eqb_spec. change (Prim2SF zero) with (S754_zero false).
  split.
  - intros H. apply SFeqb_inv in H. destruct H as [H|(s & s' & H & _)]; eauto.
  - intros [s H]. rewrite H. reflexivity.
Qed.

Lemma SFeqb_refl (a : spec_float) : a <> S754_nan -> SFeqb a a = true.
Proof.
  unfold SFeqb, SFcompare. destruct a as [s|s| |s m e]; try destruct s; cbn;
    try reflexivity; try congruence;
    rewrite Z.compare_refl, Pos.compare_cont_refl; reflexivity.
Qed.

Lemma is_nan_spec (x : float) : is_nan x = true <-> Prim2SF x = S754_nan.
Proof.
  unfold is_nan. rewrite eqb_spec. split.
  - intros H. destruct (Prim2SF x) eqn:E; try reflexivity;
      rewrite SFeqb_refl in H by discriminate; discriminate.
  - intros ->. reflexivity.
Qed.

Lemma setKey_not_neg_zero (x : float) (s : bool) :
  Prim2SF (float_setKey x) = S754_zero s -> float_setKey x = 0%float.
Proof.
  unfold float_setKey. destruct (is_zero x) eqn:Hz; [reflexivity|].
  intros H. assert (Hz' : is_zero x = true) by (apply is_zero_spec; eauto).
  congruence.
Qed.

Lemma float_sameValueZero_key (x y : float) :
  float_sameValueZero (float_setKey x) (float_setKey y) = true ->
  float_setKey x = float_setKey y.
Proof.
  intros H. apply orb_prop in H. destruct H as [H|H].
  - rewrite eqb_spec in H. apply SFeqb_inv in H.
    destruct H as [H|(s & s' & Hx & Hy)].
    + apply Prim2SF_inj, H.
    + apply setKey_not_neg_zero in Hx, Hy. congruence.
  - apply andb_prop in H. destruct H as [Hx Hy].
    apply is_nan_spec in Hx, Hy. apply Prim2SF_inj. congruence.
Qed.

Lemma DoubleLaws (M : MathLib) : OrderLaws (DoubleArith M).
Proof.
  split; cbn.
  - intros x y z. rewrite !ltb_spec. apply SFltb_trans.
  - intros x. rewrite ltb_spec. apply SFltb_irrefl.
  - intros x y Hx Hy H. rewrite !ltb_spec.
    unfold float_sameValueZero in H.
    apply orb_false_elim in H. destruct H as [H _]. rewrite eqb_spec in H.
    rewrite is_finite_spec in Hx, Hy.
    apply SFcompare_total; try assumption.
    + intros E. rewrite E in Hx. discriminate.
    + intros E. rewrite E in Hy. discriminate.
  - vm_compute. reflexivity.
  - intros x y Hx Hy.
    replace (Q2F 0) with 0%float by (vm_compute; reflexivity).
    apply sub_ltb_zero; assumption.
  - intros x. unfold float_setKey. destruct (is_zero x) eqn:Hz; [|reflexivity].
    apply is_zero_spec in Hz. destruct Hz as [s Hz].
    rewrite (is_finite_spec x), Hz. reflexivity.
  - intros x. unfold float_sameValueZero. destruct (x =? x)%float eqn:E; [reflexivity|].
    unfold is_nan. rewrite E. reflexivity.
  - intros x y. apply float_sameValueZero_key.
Qed.

End Double.
End Laws.

(** ** The temperature list of a calculation *)

Module TemperatureList.
Import Script.

Section Membership.
Context {T : Type} (before : T -> T -> bool).

Lemma sortInsert_In (x t : T) (l : list T) :
  In t (sortInsert before x l) <-> t = x \/ In t l.
Proof.
  induction l as [|y l IH]; cbn.
  - intuition.
  - destruct (before x y); cbn; rewrite ?IH; intuition.
Qed.

Lemma sort_fold_In (l : list T) : forall (acc : list T) (t : T),
  In t (fold_left (fun acc x => sortInsert before x acc) l acc) <-> In t acc \/ In t l.
Proof.
  induction l as [|x l IH]; intros acc t; cbn.
  - intuition.
  - rewrite IH, sortInsert_In. intuition.
Qed.

Lemma sort_In (l : list T) (t : T) : In t (sort before l) <-> In t l.
Proof. unfold sort. rewrite sort_fold_In. cbn. intuition. Qed.

End Membership.

Section Sorting.
Context {T : Type} (before lt : T -> T -> bool).

Hypothesis lt_trans : forall x y z, lt x y = true -> lt y z = true -> lt x z = true.

(** Inserting an element that is comparable with every member keeps a
    sorted list sorted. *)
Lemma sortInsert_sorted (x : T) (l : list T) :
  StronglySorted (fun a b => lt a b = true) l ->
  (forall y, In y l -> before x y = lt x y) ->
  (forall y, In y l -> lt x y = true \/ lt y x = true) ->
  StronglySorted (fun a b => lt a b = true) (sortInsert before x l).
Proof.
  induction l as [|y l IH]; intros Hs Hb Ht; cbn.
  - constructor; constructor.
  - inversion Hs as [|? ? Hs' Hy]; subst.
    rewrite (Hb y) by (left; reflexivity).
    destruct (lt x y) eqn:Hxy.
    + constructor; [assumption|]. constructor; [assumption|].
      rewrite Forall_forall in Hy |- *. intros z Hz. eauto.
    + constructor.
      * apply IH; [assumption| |]; intros z Hz; [apply Hb|apply Ht]; right; assumption.
      * rewrite Forall_forall in Hy |- *. intros z Hz.
        apply sortInsert_In in Hz. destruct Hz as [->|Hz]; [|auto].
        destruct (Ht y) as [H|H]; [left; reflexivity|congruence|assumption].
Qed.

Variable P : T -> Prop.
Hypothesis before_lt : forall x y, P x -> P y -> before x y = lt x y.

Lemma sort_fold_sorted (l : list T) : forall acc : list T,
  StronglySorted (fun a b => lt a b = true) acc ->
  Forall P acc -> Forall P l ->
  (forall x y, In x l -> In y acc -> lt x y = true \/ lt y x = true) ->
  ForallOrdPairs (fun a b => lt b a = true \/ lt a b = true) l ->
  StronglySorted (fun a b => lt a b = true)
    (fold_left (fun acc x => sortInsert before x acc) l acc).
Proof.
  induction l as [|x l IH]; intros acc Hs Pacc Pl Hc Hp; cbn.
  - assumption.
  - inversion Hp as [|? ? Hx Hp']; subst. rewrite Forall_forall in Hx.
    inversion Pl as [|? ? Px Pl']; subst.
    assert (Pacc' : forall y, In y acc -> P y) by (apply Forall_forall; assumption).
    apply IH.
    + apply sortInsert_sorted; [assumption| |].
      * intros y Hy. apply before_lt; auto.
      * intros y Hy. apply Hc; [left; reflexivity|assumption].
    + apply Forall_forall. intros y Hy. apply sortInsert_In in Hy.
      destruct Hy as [->|Hy]; auto.
    + assumption.
    + intros x' y Hx' Hy. apply sortInsert_In in Hy. destruct Hy as [->|Hy].
      * apply Hx. assumption.
      * apply Hc; [right|]; assumption.
    + assumption.
Qed.

Lemma sort_sorted (l : list T) :
  Forall P l ->
  ForallOrdPairs (fun a b => lt b a = true \/ lt a b = true) l ->
  StronglySorted (fun a b => lt a b = true) (sort before l).
Proof.
  intros Pl Hp. apply sort_fold_sorted; try assumption.
  - constructor.
  - constructor.
  - intros x y _ [].
Qed.

End Sorting.

Lemma ForallOrdPairs_snoc {T : Type} (R : T -> T -> Prop) (l : list T) (k : T) :
  ForallOrdPairs R l -> Forall (fun a => R a k) l -> ForallOrdPairs R (l ++ [k]).
Proof.
  induction 1 as [|a l Ha Hl IH]; intros Hk; cbn.
  - constructor; constructor.
  - inversion Hk; subst. constructor; [|auto].
    apply Forall_app. split; [assumption|]. constructor; [assumption|constructor].
Qed.

Section Temperatures.
Context {A : Arith} {L : OrderLaws A}.
Local Open Scope num_scope.

Lemma setAdd_In (members : list num) (x t : num) :
  Forall isKey members ->
  In t (setAdd members x) <-> In t members \/ t = setKey x.
Proof.
  intros Hk. unfold setAdd.
  destruct (existsb (sameValueZero (setKey x)) members) eqn:E.
  - split; [auto|]. intros [H| ->]; [assumption|].
    apply existsb_exists in E. destruct E as (m & Hm & E).
    rewrite Forall_forall in Hk. destruct (Hk m Hm) as [u ->].
    apply sameValueZero_key in E. rewrite E. assumption.
  - rewrite in_app_iff. cbn. intuition.
Qed.

Lemma setAdd_keys (members : list num) (x : num) :
  Forall isKey members -> Forall isKey (setAdd members x).
Proof.
  intros Hk. unfold setAdd. destruct (existsb _ members); [assumption|].
  apply Forall_app. split; [assumption|]. constructor; [exists x; reflexivity|constructor].
Qed.

Lemma setAdd_distinct (members : list num) (x : num) :
  distinct members -> distinct (setAdd members x).
Proof.
  intros Hd. unfold setAdd.
  destruct (existsb (sameValueZero (setKey x)) members) eqn:E; [assumption|].
  apply ForallOrdPairs_snoc; [assumption|].
  apply Forall_forall. intros m Hm.
  destruct (sameValueZero (setKey x) m) eqn:Em; [|reflexivity].
  assert (existsb (sameValueZero (setKey x)) members = true)
    by (apply existsb_exists; eauto).
  congruence.
Qed.

Lemma newSet_fold (xs : list num) : forall members : list num,
  Forall isKey members -> distinct members ->
  let result := fold_left setAdd xs members in
  distinct result /\ Forall isKey result
  /\ forall t, In t result <-> In t members \/ exists s, In s xs /\ t = setKey s.
Proof.
  induction xs as [|x xs IH]; intros members Hk Hd; cbn.
  - split; [assumption|]. split; [assumption|]. intros t. split; [auto|].
    intros [H|(s & [] & _)]. assumption.
  - destruct (IH (setAdd members x) (setAdd_keys _ _ Hk) (setAdd_distinct _ _ Hd))
      as (Hd' & Hk' & Hin).
    split; [assumption|]. split; [assumption|].
    intros t. rewrite Hin, setAdd_In by assumption. split.
    + intros [[H| ->]|(s & Hs & ->)]; eauto 6.
    + intros [H|(s & [<-|Hs] & ->)]; eauto 6.
Qed.

Lemma newSet_spec (xs : list num) :
  distinct (newSet xs)
  /\ forall t, In t (newSet xs) <-> exists s, In s xs /\ t = setKey s.
Proof.
  destruct (newSet_fold xs [] (Forall_nil _) (FOP_nil _)) as (Hd & _ & Hin).
  split; [exact Hd|]. intros t. rewrite (Hin t). cbn. intuition.
Qed.

(** The temperatures pushed after the ambient one: those that are finite. *)
Lemma tempsFinal_unfold (tMinC tNomC tMaxC : num) :
  tempsFinal tMinC tNomC tMaxC
  = AMBIENT :: sort (fun a b => (a - b) <? #0)
                 (newSet (filter isFinite [tMinC; tNomC; tMaxC])).
Proof.
  unfold tempsFinal. cbn [filter].
  destruct (isFinite tMinC), (isFinite tNomC), (isFinite tMaxC); reflexivity.
Qed.

Lemma StronglySorted_NoDup (l : list num) :
  StronglySorted (fun a b => (a <? b) = true) l -> NoDup l.
Proof.
  induction 1 as [|a l Hs IH Ha]; constructor; [|assumption].
  intros Hin. rewrite Forall_forall in Ha. specialize (Ha a Hin).
  rewrite ltb_irrefl in Ha. discriminate.
Qed.

Lemma distinct_comparable (l : list num) :
  Forall (fun t => isFinite t = true) l -> distinct l ->
  ForallOrdPairs (fun a b => (b <? a) = true \/ (a <? b) = true) l.
Proof.
  intros Hf Hd. induction Hd as [|a l Ha Hd IH]; [constructor|].
  inversion Hf as [|? ? Hfa Hfl]; subst. constructor; [|auto].
  rewrite Forall_forall in *. intros b Hb.
  apply ltb_total; auto.
Qed.

Lemma calculateDovetail_temps (p : params) (tempsList : list num) :
  List.map tempC (calculateDovetail p tempsList).(temperatureResults)
  = match tempsList with [] => [AMBIENT] | _ :: _ => tempsList end.
Proof.
  unfold calculateDovetail. cbn [temperatureResults].
  rewrite List.map_map. cbn [tempC]. apply List.map_id.
Qed.

Lemma tempsFinal_spec (tMinC tNomC tMaxC : num) :
  exists rest,
    tempsFinal tMinC tNomC tMaxC = AMBIENT :: rest
    /\ StronglySorted (fun a b => (a <? b) = true) rest
    /\ NoDup rest
    /\ forall t, In t rest <->
         exists s, In s [tMinC; tNomC; tMaxC] /\ isFinite s = true /\ t = setKey s.
Proof.
  rewrite tempsFinal_unfold.
  set (supplied := filter isFinite [tMinC; tNomC; tMaxC]).
  destruct (newSet_spec supplied) as [Hd Hin].
  assert (Hfin : Forall (fun t => isFinite t = true) (newSet supplied)).
  { apply Forall_forall. intros t Ht. apply Hin in Ht. destruct Ht as (s & Hs & ->).
    apply filter_In in Hs. rewrite setKey_finite. apply Hs. }
  assert (Hsorted : StronglySorted (fun a b => (a <? b) = true)
            (sort (fun a b => (a - b) <? #0) (newSet supplied))).
  { apply sort_sorted with (P := fun t => isFinite t = true).
    - apply ltb_trans.
    - intros x y Hx Hy. apply sub_ltb_zero; assumption.
    - assumption.
    - apply distinct_comparable; assumption. }
  eexists. split; [reflexivity|]. split; [exact Hsorted|].
  split; [apply StronglySorted_NoDup, Hsorted|].
  intros t. rewrite sort_In, Hin. unfold supplied. split.
  - intros (s & Hs & ->). apply filter_In in Hs. exists s. tauto.
  - intros (s & Hs & Hf & ->). exists s. split; [|reflexivity].
    apply filter_In. tauto.
Qed.

End Temperatures.
End TemperatureList.

(** ** Unit conversion *)

Module Units.

Lemma streq_eq (a b : jsstring) : streq a b = true <-> a = b.
Proof.
  revert b. induction a as [|x a IH]; intros [|y b]; cbn; try (split; congruence).
  rewrite andb_true_iff, N.eqb_eq, IH. split; [intros [-> ->]; reflexivity|].
  intros H. injection H. auto.
Qed.

Lemma streq_refl (a : jsstring) : streq a a = true.
Proof. apply streq_eq. reflexivity. Qed.

Lemma streq_neq (a b : jsstring) : a <> b -> streq a b = false.
Proof.
  intros H. destruct (streq a b) eqn:E; [|reflexivity].
  apply streq_eq in E. contradiction.
Qed.

Lemma rule_misses (a b c d : jsstring) :
  ~ (a = b /\ c = d) -> streq a b && streq c d = false.
Proof.
  intros H. destruct (streq a b) eqn:E1; [|reflexivity].
  destruct (streq c d) eqn:E2; [|reflexivity].
  apply streq_eq in E1, E2. tauto.
Qed.

Section Generic.
Context {A : Arith}.
Local Open Scope num_scope.

Lemma convert_nonfinite (v : num) (from to : jsstring) :
  isFinite v = false -> Script.convert v from to = JStr emptyString.
Proof. intros H. unfold Script.convert. rewrite H. reflexivity. Qed.

(** What [convert] returns on a supported pair. *)
Lemma convert_supported (v : num) (from to : jsstring) :
  isFinite v = true -> supportedPair from to ->
  exists w, Script.convert v from to = JNum w.
Proof.
  intros Hf. unfold Script.convert. rewrite Hf. cbn [negb].
  intros [[-> ->]|[[-> ->]|[[-> ->]|[-> ->]]]]; cbn; eauto.
Qed.

Lemma supportedPair_sym (from to : jsstring) :
  supportedPair from to -> supportedPair to from.
Proof. unfold supportedPair. tauto. Qed.

(** Claim C3, as amended: on a finite value and two different units that
    are not a supported pair, [convert] signals no failure; it returns the
    value unchanged, as a Number. *)
Theorem convert_unsupported_pair_unchanged (v : num) (from to : jsstring) :
  isFinite v = true -> from <> to -> ~ supportedPair from to ->
  Script.convert v from to = JNum v.
Proof.
  intros Hf Hne Hns. unfold Script.convert. rewrite Hf, (streq_neq _ _ Hne). cbn [negb].
  rewrite !rule_misses
    by (intros [-> ->]; apply Hns; unfold supportedPair; tauto).
  reflexivity.
Qed.

(** The round trip through a supported pair, as far as it does not depend
    on the arithmetic: the first conversion gives a Number, and the second
    gives a Number exactly when the first did not overflow. *)
Lemma convert_round_trip_shape (v : num) (from to : jsstring) :
  isFinite v = true -> supportedPair from to ->
  exists w, Script.convert v from to = JNum w
    /\ (isFinite w = true -> exists u, Script.convert w to from = JNum u)
    /\ (isFinite w = false -> Script.convert w to from = JStr emptyString).
Proof.
  intros Hf Hs. destruct (convert_supported v from to Hf Hs) as [w Hw].
  exists w. split; [exact Hw|]. split.
  - intros Hw'. apply convert_supported; [assumption|apply supportedPair_sym, Hs].
  - apply convert_nonfinite.
Qed.

End Generic.

Import RealModel.
Local Open Scope R_scope.

Lemma convert_round_trip_real (v : R) (from to : jsstring) :
  supportedPair from to ->
  exists w : R, convert v from to = JNum w /\ convert w to from = JNum v.
Proof.
  unfold convert, Script.convert, Script.IN_TO_MM.
  intros [[-> ->]|[[-> ->]|[[-> ->]|[-> ->]]]]; cbn; unfold Q2R; cbn;
    eexists; (split; [reflexivity|]); f_equal; field.
Qed.

Import Floats.

(** Centimetres to millimetres is not among the supported pairs. *)
Lemma cm_mm_unsupported : ~ supportedPair (js "cm") (js "mm").
Proof.
  unfold supportedPair. intros [[H _]|[[H _]|[[H _]|[H _]]]]; discriminate H.
Qed.

(** Claim C3 fails as stated: centimetres to millimetres is no supported
    pair, and [convert] returns the Number it was given. *)
Lemma convert_cm_mm_returns_number :
  is_finite 5%float = true /\ js "cm" <> js "mm"
  /\ ~ supportedPair (js "cm") (js "mm")
  /\ DoubleModel.convert DoubleModel.taylorMath 5%float (js "cm") (js "mm")
     = JNum 5%float.
Proof.
  split; [reflexivity|]. split; [discriminate|]. split; [exact cm_mm_unsupported|].
  reflexivity.
Qed.

Lemma convert_unsupported_pair_unchanged_witness :
  Script.convert (A := DoubleModel.DoubleArith DoubleModel.taylorMath)
    5%float (js "cm") (js "mm") = JNum 5%float.
Proof.
  apply (convert_unsupported_pair_unchanged
           (A := DoubleModel.DoubleArith DoubleModel.taylorMath)).
  - reflexivity.
  - discriminate.
  - exact cm_mm_unsupported.
Defined.

(** Claim C9 fails as stated: 1e308 inches is finite, its length in
    millimetres overflows to Infinity, and converting that back gives the
    empty string, not a Number near 1e308.  The way back can overflow as
    well: a finite temperature near the fifth of the largest Number has a
    finite Celsius value, whose Fahrenheit value is Infinity. *)
Lemma convert_round_trip_overflow :
  is_finite 1e308%float = true
  /\ DoubleModel.convert DoubleModel.taylorMath 1e308%float (js "in") (js "mm")
     = JNum infinity
  /\ DoubleModel.convert DoubleModel.taylorMath infinity (js "mm") (js "in")
     = JStr emptyString
  /\ is_finite 0x1.9999999999999p+1021%float = true
  /\ DoubleModel.convert DoubleModel.taylorMath
       0x1.9999999999999p+1021%float (js "F") (js "C")
     = JNum 0x1.c71c71c71c71cp+1020%float
  /\ is_finite 0x1.c71c71c71c71cp+1020%float = true
  /\ DoubleModel.convert DoubleModel.taylorMath
       0x1.c71c71c71c71cp+1020%float (js "C") (js "F")
     = JNum infinity.
Proof. repeat split; reflexivity. Qed.

Lemma in_mm_supported : supportedPair (js "in") (js "mm").
Proof. left. split; reflexivity. Qed.

End Units.

(** ** Gland geometry *)

Module Geometry.

Section Real.
Import RealModel RealFacts.
Local Open Scope R_scope.





Lemma circularSegmentArea_gland (r ang : R) :
  0 < ang < 180 ->
  circularSegmentArea r ang
  = segmentCoefficient r * (halfAngle ang - sin (halfAngle ang) * cos (halfAngle ang)).
Proof.
  intros Ha. unfold segmentCoefficient. destruct (Rle_dec r 0) as [Hr|Hr].
  - rewrite circularSegmentArea_nonpos_radius by assumption. ring.
  - assert (0 < halfAngle ang < PI) by (apply halfAngle_range; lra).
    rewrite circularSegmentArea_closed by lra. reflexivity.
Qed.

(** The taper in terms of the cotangent.  At a right angle the tangent has
    its pole; the total inverse of the reals makes the quotient 0 there,
    which is the value of the cotangent, and what binary64 gives up to
    rounding ([Math.tan] of the double nearest pi/2 is about 1.6e16). *)
Lemma quotient_by_tan (gd x : R) : gd / tan x = gd * (cos x / sin x).
Proof.
  unfold tan, Rdiv. rewrite Rinv_mult, Rinv_inv. ring.
Qed.

Lemma dovetailCrossSection_closed (gw gd rTop rBottom gap ang : R) :
  0 < ang < 180 ->
  dovetailCrossSection gw gd ang rTop rBottom gap
  = dovetailClosedForm gw gd rTop rBottom gap ang.
Proof.
  intros Ha. unfold dovetailCrossSection, Script.dovetailCrossSection.
  fold circularSegmentArea.
  change (@Script.circularSegmentArea RealArith) with circularSegmentArea.
  rewrite !circularSegmentArea_gland by assumption.
  unfold dovetailClosedForm, Script.PI. real_arith.
  rewrite quotient_by_tan. reflexivity.
Qed.

Lemma angle_radians_sin (ang : R) : 0 < ang < 180 -> sin (ang * PI / 180) <> 0.
Proof.
  intros [H0 H180]. pose proof PI_RGT_0 as Hpi.
  apply Rgt_not_eq, sin_gt_0.
  - apply Rdiv_lt_0_compat; [nra|lra].
  - assert (ang * PI < 180 * PI) by nra. lra.
Qed.

Lemma dovetailClosedForm_continuous (gw gd rTop rBottom gap ang : R) :
  0 < ang < 180 ->
  continuity_pt (dovetailClosedForm gw gd rTop rBottom gap) ang.
Proof.
  intros Ha. pose proof (angle_radians_sin ang Ha) as Hs.
  unfold dovetailClosedForm, halfAngle. reg.
Qed.

(** No pole between 0 and 180: around such an angle the function is its
    closed form, which is continuous there. *)
Lemma dovetailCrossSection_continuous (gw gd rTop rBottom gap ang : R) :
  0 < ang < 180 ->
  continuity_pt (fun a => dovetailCrossSection gw gd a rTop rBottom gap) ang.
Proof.
  intros Ha.
  apply (continuity_pt_locally_ext (dovetailClosedForm gw gd rTop rBottom gap) _
           (Rmin ang (180 - ang))).
  - apply Rmin_pos; lra.
  - intros y Hy. symmetry. apply dovetailCrossSection_closed.
    unfold Rdist in Hy. apply Rabs_def2 in Hy.
    pose proof (Rmin_l ang (180 - ang)). pose proof (Rmin_r ang (180 - ang)). lra.
  - apply dovetailClosedForm_continuous, Ha.
Qed.

Lemma segmentCoefficient_zero : segmentCoefficient 0 = 0.
Proof. unfold segmentCoefficient. destruct (Rle_dec 0 0); [reflexivity|lra]. Qed.

(** Without corner radii the area at 45 and at 135 degrees: the taper is
    [gd] outwards at the one and [gd] inwards at the other. *)
Lemma dovetailCrossSection_45_135 (gw gd gap : R) :
  dovetailCrossSection gw gd 45 0 0 gap = (gw + gd) * gd + gw * gap
  /\ dovetailCrossSection gw gd 135 0 0 gap = (gw - gd) * gd + gw * gap.
Proof.
  assert (Hs : sqrt 2 <> 0) by (apply Rgt_not_eq, Rlt_sqrt2_0).
  split.
  - rewrite dovetailCrossSection_closed by lra. unfold dovetailClosedForm.
    rewrite segmentCoefficient_zero.
    replace (45 * PI / 180) with (PI / 4) by field.
    rewrite cos_PI4, sin_PI4. field. exact Hs.
  - rewrite dovetailCrossSection_closed by lra. unfold dovetailClosedForm.
    rewrite segmentCoefficient_zero.
    replace (135 * PI / 180) with (3 * (PI / 4)) by field.
    rewrite cos_3PI4, sin_3PI4. field. exact Hs.
Qed.

End Real.

Section Double.
Import Floats.
Import DoubleModel DoubleFacts.

Lemma opp_involutive (x : float) : (- - x = x)%float.
Proof.
  apply Prim2SF_inj. rewrite !opp_spec.
  destruct (Prim2SF x) as [s|s| |s m e]; cbn; rewrite ?negb_involutive; reflexivity.
Qed.

Variable M : MathLib.

(** In binary64 the negation of the angle goes through the product and the
    two quotients exactly, so the symmetry only asks that of [Math.cos]. *)
Lemma circularSegmentArea_even_double (r angle : float) :
  (forall x, M.(m_cos) (- x)%float = M.(m_cos) x) ->
  circularSegmentArea M r (- angle)%float = circularSegmentArea M r angle.
Proof.
  intros Hcos. unfold circularSegmentArea, Script.circularSegmentArea.
  unfold Script.PI, DoubleArith. unfold_arith.
  rewrite mul_opp_l, !div_opp_l, Hcos. reflexivity.
Qed.

Lemma taylorCos_even (x : float) : taylorCos (- x)%float = taylorCos x.
Proof.
  unfold taylorCos.
  assert (Hz : is_zero (- x)%float = is_zero x).
  { unfold is_zero. rewrite !eqb_spec, opp_spec.
    destruct (Prim2SF x) as [s|s| |s m e]; try destruct s; reflexivity. }
  assert (Hsq : (- x * - x = x * x)%float).
  { rewrite mul_opp_l.
    assert (Hr : (x * - x = - (x * x))%float).
    { apply Prim2SF_inj. rewrite opp_spec, !mul_spec, opp_spec.
      destruct (Prim2SF x) as [s|s| |s m e]; cbn; rewrite ?xorb_negb_r; try reflexivity.
      - destruct s; reflexivity.
      - destruct s; reflexivity.
      - replace (xorb s (negb s)) with (negb (xorb s s)) by (destruct s; reflexivity).
        apply binary_round_aux_opp. }
    rewrite Hr. apply opp_involutive. }
  rewrite Hz, Hsq. reflexivity.
Qed.

(** At the angle 0 the taper divides by [Math.tan(0)], which is 0: the
    quotient is infinite or NaN, and so is everything computed from it. *)
Lemma dovetailCrossSection_zero_angle (gw gd rTop rBottom gap : float) :
  conforms M ->
  is_finite (dovetailCrossSection M gw gd 0%float rTop rBottom gap) = false.
Proof.
  intros [Htan _]. unfold dovetailCrossSection, Script.dovetailCrossSection.
  unfold Script.PI, DoubleArith. unfold_arith.
  replace (0 * 0x1.921fb54442d18p+1 / Q2F 180)%float with 0%float
    by (vm_compute; reflexivity).
  rewrite Htan.
  apply add_nonfinite_l, sub_nonfinite_l, add_nonfinite_l.
  apply mul_nonfinite_l, mul_nonfinite_r, add_nonfinite_r, add_nonfinite_r.
  apply mul_nonfinite_r, div_zero_nonfinite.
Qed.

End Double.

Import Floats.
Import DoubleModel.

Lemma taylorMath_conforms : conforms taylorMath.
Proof. split; vm_compute; reflexivity. Qed.

(** Claim C1, as amended: [dovetailCrossSection] signals no failure; at the
    angle 0 it returns a Number that is not finite (an infinity or NaN),
    whatever the other arguments; between 0 and 180 it is, in exact real
    arithmetic, continuous in the angle, but not of one sign: without
    corner radii it is [(gw + gd) * gd + gw * gap] at 45 degrees and
    [(gw - gd) * gd + gw * gap] at 135 degrees, which is negative for a
    gland deeper than wide without a gap. *)
Theorem dovetailCrossSection_degenerate_and_continuous :
  (forall (M : MathLib) (gw gd rTop rBottom gap : float),
     conforms M ->
     is_finite (dovetailCrossSection M gw gd 0%float rTop rBottom gap) = false)
  /\ (forall gw gd rTop rBottom gap ang : R,
       (0 < ang < 180)%R ->
       continuity_pt
         (fun a => RealModel.dovetailCrossSection gw gd a rTop rBottom gap) ang)
  /\ (forall gw gd gap : R,
       RealModel.dovetailCrossSection gw gd 45 0 0 gap
       = ((gw + gd) * gd + gw * gap)%R
       /\ RealModel.dovetailCrossSection gw gd 135 0 0 gap
          = ((gw - gd) * gd + gw * gap)%R).
Proof.
  split; [|split].
  - intros M gw gd rTop rBottom gap HM. apply dovetailCrossSection_zero_angle, HM.
  - apply dovetailCrossSection_continuous.
  - apply dovetailCrossSection_45_135.
Qed.

Lemma dovetailCrossSection_degenerate_and_continuous_witness :
  is_finite (dovetailCrossSection taylorMath
               2.5%float 1.8%float 0%float 0.3%float 0.2%float 0.1%float) = false
  /\ continuity_pt
       (fun a => RealModel.dovetailCrossSection 2 1 a 0 0 0) 45
  /\ RealModel.dovetailCrossSection 1 2 45 0 0 0 = ((1 + 2) * 2 + 1 * 0)%R
  /\ RealModel.dovetailCrossSection 1 2 135 0 0 0 = ((1 - 2) * 2 + 1 * 0)%R.
Proof.
  split; [|split].
  - apply (proj1 dovetailCrossSection_degenerate_and_continuous).
    exact taylorMath_conforms.
  - apply (proj1 (proj2 dovetailCrossSection_degenerate_and_continuous)). lra.
  - exact (proj2 (proj2 dovetailCrossSection_degenerate_and_continuous) 1%R 2%R 0%R).
Defined.

(** Claim C1 fails as stated: at the angle 0 the gland of the worked
    example gets the Number Infinity, returned like any other result.  At
    180 it gets a finite Number: the double nearest pi is not pi, and the
    tangent there is not 0 (about -1.2e-16 on the usual engines, of the
    same size with the series used here).  And between 0 and 180 the sign
    does flip: the area of that gland is positive at 45 degrees and
    negative at 150. *)
Lemma dovetailCrossSection_zero_angle_returns_infinity :
  conforms taylorMath
  /\ dovetailCrossSection taylorMath
       2.5%float 1.8%float 0%float 0.3%float 0.2%float 0.1%float = infinity
  /\ is_finite (dovetailCrossSection taylorMath
                  2.5%float 1.8%float 180%float 0.3%float 0.2%float 0.1%float)
     = true
  /\ (0 <? dovetailCrossSection taylorMath
             2.5%float 1.8%float 45%float 0.3%float 0.2%float 0.1%float)%float
     = true
  /\ (dovetailCrossSection taylorMath
        2.5%float 1.8%float 150%float 0.3%float 0.2%float 0.1%float <? 0)%float
     = true.
Proof.
  split; [exact taylorMath_conforms|]. repeat split; vm_compute; reflexivity.
Qed.

(** In binary64 the strict positivity of the segment is lost to rounding
    for a small angle: the cosine of its half rounds to 1 and the chord
    height to 0. *)
Remark circularSegmentArea_small_angle_rounds_to_zero :
  circularSegmentArea taylorMath 1%float 1e-7%float = 0%float.
Proof. vm_compute. reflexivity. Qed.

(** Claim C10: [circularSegmentArea] is even in its angle.  In exact real
    arithmetic it is so outright, and a negative angle whose absolute value
    lies strictly between 0 and 360 gives the same positive area, not 0;
    in binary64 it is so whenever [Math.cos] is even. *)
Theorem circularSegmentArea_angle_symmetry :
  (forall r angle : R,
     RealModel.circularSegmentArea r (- angle) = RealModel.circularSegmentArea r angle)
  /\ (forall r angle : R,
       (0 < r)%R -> (0 < angle < 360)%R ->
       (0 < RealModel.circularSegmentArea r (- angle))%R)
  /\ (forall (M : MathLib) (r angle : float),
       (forall x, M.(m_cos) (- x)%float = M.(m_cos) x) ->
       circularSegmentArea M r (- angle)%float = circularSegmentArea M r angle).
Proof.
  split; [|split].
  - apply RealFacts.circularSegmentArea_even.
  - intros r angle Hr Ha. rewrite RealFacts.circularSegmentArea_even.
    apply RealFacts.circularSegmentArea_pos; assumption.
  - intros M r angle. apply circularSegmentArea_even_double.
Qed.

Lemma circularSegmentArea_angle_symmetry_witness :
  (0 < RealModel.circularSegmentArea 1 (- (90)))%R
  /\ circularSegmentArea taylorMath 1%float (PrimFloat.opp 90%float)
     = circularSegmentArea taylorMath 1%float 90%float.
Proof.
  split.
  - apply (proj1 (proj2 circularSegmentArea_angle_symmetry)); lra.
  - exact (proj2 (proj2 circularSegmentArea_angle_symmetry)
             taylorMath 1%float 90%float taylorCos_even).
Defined.

End Geometry.

(** ** Thermal calculation *)

Module Thermal.
Import Script.

Section Generic.
Context {A : Arith}.
Local Open Scope num_scope.

Lemma calculateDovetail_entries (p : params) (tempsList : list num)
  (e : temperatureResult) :
  In e (calculateDovetail p tempsList).(temperatureResults) ->
  let dT := e.(tempC) - AMBIENT in
  e.(compressionPct) = (#1 - p.(gd) / (p.(cs) * (#1 + p.(alpha) * dT))) * #100
  /\ e.(glandFillPct)
     = #2 * PI * PI * (p.(cs) / #2) * (p.(cs) / #2) * ((p.(id) + p.(cs)) / #2)
       * (#1 + #3 * p.(alpha) * dT)
       / (calculateDovetail p tempsList).(glandVolume) * #100.
Proof.
  unfold calculateDovetail. cbn [temperatureResults glandVolume].
  intros He. apply in_map_iff in He. destruct He as (T & <- & _).
  cbn. split; reflexivity.
Qed.

End Generic.

(** Claim C2: whatever temperatures the form supplies, the result of the
    calculation has the entry of the ambient temperature, 23, first; the
    entries after it are those of the finite temperatures supplied (as Set
    keys), without duplicates and in ascending order.  On the empty list
    [calculateDovetail] itself computes the ambient entry alone. *)
Theorem ambient_entry_first_rest_sorted (A : Arith) (L : OrderLaws A)
  (p : params) (tMinC tNomC tMaxC : num) :
  (exists rest,
     List.map tempC (runCalculation p tMinC tNomC tMaxC).(temperatureResults)
       = AMBIENT :: rest
     /\ StronglySorted (fun a b => (a <? b)%num = true) rest
     /\ NoDup rest
     /\ forall t, In t rest <->
          exists s, In s [tMinC; tNomC; tMaxC] /\ isFinite s = true /\ t = setKey s)
  /\ List.map tempC (calculateDovetail p []).(temperatureResults) = [AMBIENT].
Proof.
  split.
  - unfold runCalculation. rewrite TemperatureList.calculateDovetail_temps.
    destruct (TemperatureList.tempsFinal_spec tMinC tNomC tMaxC) as (rest & E & H).
    rewrite E. exists rest. split; [reflexivity|exact H].
  - exact (TemperatureList.calculateDovetail_temps p []).
Qed.

(** Claim C6: the gland volume is the dovetail area times pi times the
    centerline, and every entry of the result is computed from its
    temperature [T] with [dT = T - 23] by the formulas of the
    specification; in exact real arithmetic the expanded volume is
    [2 pi^2 (cs/2)^2 ((id+cs)/2) (1 + 3 alpha dT)]. *)
Theorem per_temperature_formulas :
  (forall (A : Arith) (p : params) (tempsList : list num),
     let out := calculateDovetail p tempsList in
     out.(glandVolume)
       = (dovetailCrossSection p.(gw) p.(gd) p.(angle) p.(rTop) p.(rBottom) p.(gap)
          * PI * p.(centerline))%num
     /\ List.map tempC out.(temperatureResults)
        = match tempsList with [] => [AMBIENT] | _ :: _ => tempsList end
     /\ forall e, In e out.(temperatureResults) ->
          let dT := (e.(tempC) - AMBIENT)%num in
          let expandedCS := (p.(cs) * (#1 + p.(alpha) * dT))%num in
          let nominalVolume :=
            (#2 * PI * PI * (p.(cs) / #2) * (p.(cs) / #2)
             * ((p.(id) + p.(cs)) / #2))%num in
          let expandedVolume := (nominalVolume * (#1 + #3 * p.(alpha) * dT))%num in
          e.(compressionPct) = ((#1 - p.(gd) / expandedCS) * #100)%num
          /\ e.(glandFillPct) = (expandedVolume / out.(glandVolume) * #100)%num)
  /\ (forall (p : params (A := RealModel.RealArith)) (tempsList : list R)
        (e : temperatureResult),
        let out := RealModel.calculateDovetail p tempsList in
        In e out.(temperatureResults) ->
        let dT := (e.(tempC) - 23)%R in
        e.(compressionPct)
          = ((1 - p.(gd) / (p.(cs) * (1 + p.(alpha) * dT))) * 100)%R
        /\ e.(glandFillPct)
           = ((2 * Rtrigo1.PI ^ 2 * (p.(cs) / 2) ^ 2 * ((p.(id) + p.(cs)) / 2))
              * (1 + 3 * p.(alpha) * dT) / out.(glandVolume) * 100)%R).
Proof.
  split.
  - intros A p tempsList out. split; [reflexivity|].
    split; [apply TemperatureList.calculateDovetail_temps|].
    intros e He. apply (calculateDovetail_entries p tempsList e He).
  - intros p tempsList e out He.
    destruct (calculateDovetail_entries p tempsList e He) as [Hc Hf].
    fold out in Hf. cbv zeta. split.
    + rewrite Hc. unfold AMBIENT. RealFacts.real_arith. reflexivity.
    + rewrite Hf. subst out. unfold RealModel.calculateDovetail.
      generalize (glandVolume (calculateDovetail p tempsList)).
      intros V. unfold AMBIENT, PI. RealFacts.real_arith.
      f_equal. f_equal. ring.
Qed.

Section Example.
Import RealModel RealFacts.
Local Open Scope R_scope.

Lemma exampleCrossArea_pos :
  0 < dovetailCrossSection (25 / 10) (18 / 10) 45 (3 / 10) (2 / 10) (1 / 10).
Proof.
  rewrite Geometry.dovetailCrossSection_closed by lra.
  unfold dovetailClosedForm.
  replace (45 * Rtrigo1.PI / 180) with (Rtrigo1.PI / 4) by field.
  rewrite cos_PI4, sin_PI4.
  replace (1 / sqrt 2 / (1 / sqrt 2)) with 1
    by (field; apply Rgt_not_eq, sqrt_lt_R0; lra).
  assert (Hphi : 0 < halfAngle 45 < Rtrigo1.PI) by (apply halfAngle_range; lra).
  pose proof (segmentClosedForm_pos 1 (halfAngle 45) ltac:(lra) ltac:(lra)) as Hc.
  unfold segmentClosedForm in Hc.
  unfold segmentCoefficient.
  destruct (Rle_dec (3 / 10) 0); [lra|]. destruct (Rle_dec (2 / 10) 0); [lra|].
  nra.
Qed.

Lemma example_real :
  let out := calculateDovetail exampleParams [] in
  out.(stretchPct) = 0
  /\ exists e, out.(temperatureResults) = [e]
       /\ e.(tempC) = 23 /\ e.(compressionPct) = 10
       /\ 0 < out.(glandVolume) /\ 0 < e.(glandFillPct).
Proof.
  pose proof exampleCrossArea_pos as Harea. pose proof PI_RGT_0 as Hpi.
  unfold calculateDovetail, Script.calculateDovetail, exampleParams.
  cbn [stretchPct temperatureResults glandVolume Script.cs Script.id Script.gw
       Script.gd Script.angle Script.rTop Script.rBottom Script.gap
       Script.centerline Script.alpha List.map tempC compressionPct glandFillPct].
  fold dovetailCrossSection.
  change (@Script.dovetailCrossSection RealArith) with dovetailCrossSection.
  revert Harea. generalize (dovetailCrossSection (25 / 10) (18 / 10) 45
                              (3 / 10) (2 / 10) (1 / 10)).
  intros area Harea.
  unfold AMBIENT, Script.PI. real_arith.
  split; [field|]. eexists. split; [reflexivity|]. cbn [tempC compressionPct glandFillPct].
  split; [lra|]. split; [field|].
  assert (Hv : 0 < area * Rtrigo1.PI * 52) by (apply Rmult_lt_0_compat; nra).
  split; [exact Hv|].
  apply Rmult_lt_0_compat; [|lra]. apply Rdiv_lt_0_compat; [|exact Hv]. nra.
Qed.

End Example.

Section Double.
Import Floats.
Import DoubleModel.

Lemma ambient_entry_first_rest_sorted_witness :
  exists rest,
    List.map tempC
      (runCalculation (A := DoubleModel.DoubleArith DoubleModel.taylorMath)
         (DoubleModel.exampleParams DoubleModel.taylorMath)
         100%float PrimFloat.nan (-40)%float).(temperatureResults)
    = AMBIENT :: rest.
Proof.
  destruct (proj1 (ambient_entry_first_rest_sorted
              (DoubleModel.DoubleArith DoubleModel.taylorMath)
              (Laws.DoubleLaws DoubleModel.taylorMath)
              (DoubleModel.exampleParams DoubleModel.taylorMath)
              100%float PrimFloat.nan (-40)%float)) as (rest & E & _).
  exists rest. exact E.
Defined.

Lemma per_temperature_formulas_witness :
  exists e,
    In e (RealModel.calculateDovetail RealModel.exampleParams []).(temperatureResults)
    /\ e.(compressionPct)
       = ((1 - 18 / 10 / (2 * (1 + 175 / 1000000 * (e.(tempC) - 23)))) * 100)%R.
Proof.
  eexists. split.
  - left. reflexivity.
  - apply (proj2 per_temperature_formulas RealModel.exampleParams []).
    left. reflexivity.
Defined.

Lemma example_double (M : MathLib) :
  let out := calculateDovetail M (exampleParams M) [] in
  out.(stretchPct) = 0%float
  /\ exists e, out.(temperatureResults) = [e]
       /\ e.(tempC) = 23%float /\ is_finite e.(compressionPct) = true.
Proof.
  split; [vm_compute; reflexivity|].
  eexists. split; [reflexivity|]. split; vm_compute; reflexivity.
Qed.

Lemma example_taylor :
  exists e,
    (calculateDovetail taylorMath (exampleParams taylorMath) []).(temperatureResults)
    = [e]
    /\ is_finite e.(glandFillPct) = true.
Proof. eexists. split; [reflexivity|]. vm_compute. reflexivity. Qed.

(** Claim C5: the stretch percentage of a result is
    [((centerline - (id + cs)) / (id + cs)) * 100], one scalar of the
    result whatever the temperature list.  For the worked example (cs 2.0,
    id 50, centerline 52, no temperatures) it is 0 and the result is the
    single entry of 23 degrees: in binary64 its compression is finite
    whatever [Math] is, and its gland fill is finite with the series of
    [taylorMath]; in exact real arithmetic the compression is 10 and the
    gland volume and gland fill are positive. *)
Theorem stretch_formula_and_example :
  (forall (A : Arith) (p : params) (tempsList : list num),
     (Script.calculateDovetail p tempsList).(stretchPct)
     = ((p.(centerline) - (p.(id) + p.(cs))) / (p.(id) + p.(cs)) * #100)%num)
  /\ (forall M : MathLib,
       let out := calculateDovetail M (exampleParams M) [] in
       out.(stretchPct) = 0%float
       /\ exists e, out.(temperatureResults) = [e]
            /\ e.(tempC) = 23%float /\ is_finite e.(compressionPct) = true)
  /\ (exists e,
        (calculateDovetail taylorMath (exampleParams taylorMath) []).(temperatureResults)
        = [e]
        /\ is_finite e.(glandFillPct) = true)
  /\ (let out := RealModel.calculateDovetail RealModel.exampleParams [] in
      out.(stretchPct) = 0%R
      /\ exists e, out.(temperatureResults) = [e]
           /\ e.(tempC) = 23%R /\ e.(compressionPct) = 10%R
           /\ (0 < out.(glandVolume))%R /\ (0 < e.(glandFillPct))%R).
Proof.
  split; [reflexivity|]. split; [exact example_double|].
  split; [exact example_taylor|exact example_real].
Qed.

End Double.

End Thermal.

(** ** Warning rules *)

Module Warnings.
Import Script.

Section Generic.
Context {A : Arith} {L : OrderLaws A}.
Variable numberToString : num -> jsstring.
Local Open Scope num_scope.

(** The warnings of a temperature entry start with "Compression " or
    "Gland fill ", the two of the stretch with "O" and "S". *)
Lemma temperatureWarnings_first (t : temperatureResult) (msg : jsstring) :
  In msg (temperatureWarnings numberToString t) ->
  exists rest, msg = 67%N :: rest \/ msg = 71%N :: rest.
Proof.
  unfold temperatureWarnings. intros H.
  repeat (apply in_app_or in H; destruct H as [H|H]);
    match type of H with
    | In _ (if ?c then _ else _) => destruct c
    end; cbn in H; try contradiction;
    destruct H as [<-|[]]; eexists; [left|left|right]; reflexivity.
Qed.

Lemma temperatureWarnings_not_stretch (t : temperatureResult) :
  ~ In stretchLoose (temperatureWarnings numberToString t)
  /\ ~ In stretchExceeds (temperatureWarnings numberToString t).
Proof.
  split; intros H; apply temperatureWarnings_first in H;
    destruct H as [rest [H|H]]; vm_compute in H; discriminate H.
Qed.

Lemma warnings_fold_In (ts : list temperatureResult) :
  forall (warn : list jsstring) (msg : jsstring),
  In msg (fold_left (fun warn t => warn ++ temperatureWarnings numberToString t) ts warn)
  <-> In msg warn \/ exists t, In t ts /\ In msg (temperatureWarnings numberToString t).
Proof.
  induction ts as [|t ts IH]; intros warn msg; cbn [fold_left].
  - split; [auto|]. intros [H|(t & [] & _)]. exact H.
  - rewrite IH, in_app_iff. split.
    + intros [[H|H]|(t' & Ht' & H)]; eauto 6 using in_eq, in_cons.
    + intros [H|(t' & [<-|Ht'] & H)]; eauto 6.
Qed.

Lemma stretch_message_In (out : calculation) (msg : jsstring) :
  msg = stretchLoose \/ msg = stretchExceeds ->
  In msg (evaluateWarnings numberToString out)
  <-> In msg (if out.(stretchPct) <? #0 then [stretchLoose]
              else if out.(stretchPct) >? #5 then [stretchExceeds] else []).
Proof.
  intros Hmsg. unfold evaluateWarnings. rewrite warnings_fold_In.
  assert (Hno : ~ exists t, In t out.(temperatureResults)
                   /\ In msg (temperatureWarnings numberToString t)).
  { intros (t & _ & H). destruct (temperatureWarnings_not_stretch t) as [H1 H2].
    destruct Hmsg as [-> | ->]; [exact (H1 H)|exact (H2 H)]. }
  destruct (out.(stretchPct) <? #0); [|destruct (out.(stretchPct) >? #5)];
    cbn [app]; tauto.
Qed.

Lemma stretch_messages_differ : stretchLoose <> stretchExceeds.
Proof. vm_compute. discriminate. Qed.

(** Above 5 is not below 0. *)
Lemma bands_disjoint (s : num) : (s >? #5) = true -> (s <? #0) = false.
Proof.
  intros H5. destruct (s <? #0) eqn:H0; [|reflexivity].
  pose proof (ltb_trans _ _ _ H0 zero_lt_five) as Hs.
  pose proof (ltb_trans _ _ _ Hs H5) as Hc.
  rewrite ltb_irrefl in Hc. discriminate.
Qed.

End Generic.

(** Claim C7: [evaluateWarnings] gives the loose-stretch message exactly
    when the stretch is below 0 and the exceeds message exactly when it is
    above 5; never both; and neither when it is not below 0 and not above 5,
    as on the whole of [0, 5]. *)
Theorem stretch_warning_bands (A : Arith) (L : OrderLaws A)
  (numberToString : num -> jsstring) (out : calculation) :
  let warn := evaluateWarnings numberToString out in
  (In stretchLoose warn <-> (out.(stretchPct) <? #0)%num = true)
  /\ (In stretchExceeds warn <-> (out.(stretchPct) >? #5)%num = true)
  /\ ~ (In stretchLoose warn /\ In stretchExceeds warn)
  /\ ((out.(stretchPct) <? #0)%num = false ->
      (out.(stretchPct) >? #5)%num = false ->
      ~ In stretchLoose warn /\ ~ In stretchExceeds warn).
Proof.
  cbv zeta.
  rewrite (stretch_message_In numberToString out stretchLoose) by (left; reflexivity).
  rewrite (stretch_message_In numberToString out stretchExceeds) by (right; reflexivity).
  pose proof stretch_messages_differ as Hd.
  pose proof (bands_disjoint out.(stretchPct)) as Hb.
  destruct (out.(stretchPct) <? #0)%num eqn:H0;
    destruct (out.(stretchPct) >? #5)%num eqn:H5; cbn [In];
    try (specialize (Hb eq_refl); discriminate Hb);
    repeat split; intros; try tauto; try congruence;
    try (intuition congruence).
Qed.

Lemma stretch_warning_bands_witness :
  let out := DoubleModel.calculateDovetail DoubleModel.taylorMath
               (DoubleModel.exampleParams DoubleModel.taylorMath) [] in
  let warn := evaluateWarnings (fun _ => js "23") out in
  ~ (In stretchLoose warn /\ In stretchExceeds warn).
Proof.
  exact (proj1 (proj2 (proj2
    (stretch_warning_bands
       (DoubleModel.DoubleArith DoubleModel.taylorMath)
       (Laws.DoubleLaws DoubleModel.taylorMath)
       (fun _ => js "23")
       (DoubleModel.calculateDovetail DoubleModel.taylorMath
          (DoubleModel.exampleParams DoubleModel.taylorMath) []))))).
Defined.

End Warnings.

(** ** Catalog parser *)

Module CatalogFacts.
Import Catalog.

Section Sorting.
Context {T : Type} (before : T -> T -> bool).

Lemma sortInsert_Permutation (x : T) (l : list T) :
  Permutation (sortInsert before x l) (x :: l).
Proof.
  induction l as [|y l IH]; cbn.
  - reflexivity.
  - destruct (before x y); [reflexivity|].
    rewrite IH. apply perm_swap.
Qed.

Lemma sort_fold_Permutation (l : list T) : forall acc : list T,
  Permutation (fold_left (fun acc x => sortInsert before x acc) l acc) (acc ++ l).
Proof.
  induction l as [|x l IH]; intros acc; cbn.
  - rewrite app_nil_r. reflexivity.
  - rewrite IH, sortInsert_Permutation. apply Permutation_middle.
Qed.

Lemma sort_Permutation (l : list T) : Permutation (sort before l) l.
Proof. unfold sort. apply (sort_fold_Permutation l []). Qed.

End Sorting.

Lemma parseLine_dropped (iDash iCS iID : option Z) (line : jsstring) :
  rowDropped iDash iCS iID line -> parseLine iDash iCS iID line = [].
Proof.
  unfold rowDropped, blank, tooFewColumns, dashEmpty, notFinite, parseLine.
  fold (columns line).
  intros H. destruct (Strings.trim line) as [|c l]; [reflexivity|].
  destruct H as [H|[H|H]]; [discriminate| |].
  - destruct H as (m & -> & Hm). cbn [length_le].
    apply Z.leb_le in Hm. rewrite Hm. reflexivity.
  - destruct (length_le _ _); [reflexivity|].
    destruct H as [[-> | ->]|[H|H]]; try reflexivity;
      destruct (at_index (columns line) iDash) as [[|d ds]|]; try reflexivity;
      rewrite H; rewrite ?orb_true_r; reflexivity.
Qed.

Lemma parseLine_kept (iDash iCS iID : option Z) (line : jsstring) :
  ~ rowDropped iDash iCS iID line ->
  parseLine iDash iCS iID line = [rowOf iDash iCS iID line].
Proof.
  unfold rowDropped, blank, tooFewColumns, dashEmpty, notFinite, parseLine, rowOf.
  fold (columns line).
  intros H. destruct (Strings.trim line) as [|c l]; [tauto|].
  destruct (length_le (columns line) (Math_max iDash iCS iID)) eqn:Hl.
  - exfalso. apply H. right. left. unfold length_le in Hl.
    destruct (Math_max iDash iCS iID) as [m|]; [|discriminate].
    exists m. split; [reflexivity|]. apply Z.leb_le, Hl.
  - destruct (at_index (columns line) iDash) as [[|d ds]|]; try tauto.
    destruct (PrimFloat.is_finite (ToNumber (at_index (columns line) iCS))); [|tauto].
    destruct (PrimFloat.is_finite (ToNumber (at_index (columns line) iID))); [|tauto].
    reflexivity.
Qed.

Section Parser.
Variable toLowerCase : jsstring -> jsstring.
Variable localeCompare : jsstring -> jsstring -> Z.

Lemma parseAs568Csv_unfold (text : jsstring) :
  parseAs568Csv toLowerCase localeCompare text
  = sort (fun a b => (localeCompare a.(dash) b.(dash) <? 0)%Z)
      (List.flat_map
         (parseLine (dashIndex toLowerCase text) (csIndex toLowerCase text)
                    (idIndex toLowerCase text))
         (dataLines text)).
Proof.
  unfold parseAs568Csv, dataLines, dashIndex, csIndex, idIndex, headerOf.
  destruct (Strings.trim (stripBOM text)) as [|c t] eqn:E; reflexivity.
Qed.

(** The rows of the parse are those of the lines after the header, in the
    order of the sort. *)
Lemma parseAs568Csv_rows (text : jsstring) :
  Permutation (parseAs568Csv toLowerCase localeCompare text)
    (List.flat_map
       (parseLine (dashIndex toLowerCase text) (csIndex toLowerCase text)
                  (idIndex toLowerCase text))
       (dataLines text)).
Proof.
  rewrite parseAs568Csv_unfold. apply sort_Permutation.
Qed.

End Parser.

Section Example.
Import Floats.
Variable toLowerCase : jsstring -> jsstring.
Variable localeCompare : jsstring -> jsstring -> Z.
Hypothesis toLowerCase_ascii : forall s, isASCII s -> toLowerCase s = asciiLower s.

Ltac evaluate t := let v := eval vm_compute in t in change t with v.

(** [Number] on strings, against the literals of Rocq's own float parser. *)
Example StringToNumber_samples :
  Strings.StringToNumber (js "1.02") = 1.02%float
  /\ Strings.StringToNumber (js "1.78") = 1.78%float
  /\ Strings.StringToNumber (js "2.0") = 2%float
  /\ Strings.StringToNumber (js "abc") = nan
  /\ Strings.StringToNumber emptyString = 0%float
  /\ Strings.StringToNumber (js " 12 ") = 12%float
  /\ Strings.StringToNumber (js "-.5e1") = (-5)%float
  /\ Strings.StringToNumber (js "0x1F") = 31%float
  /\ Strings.StringToNumber (js "1e309") = infinity
  /\ Strings.StringToNumber (js "5e-324") = 5e-324%float
  /\ Strings.StringToNumber (js "0.1") = 0.1%float
  /\ Strings.StringToNumber (js "9007199254740993") = 9007199254740992%float
  /\ Strings.StringToNumber (js "1x3") = nan.
Proof. repeat split; vm_compute; reflexivity. Qed.

Lemma exampleTable_header :
  headerOf toLowerCase exampleTable = [js "dash"; js "cs"; js "id"].
Proof.
  unfold headerOf.
  evaluate (Strings.splitAt 44
              (List.hd [] (Strings.splitLines (Strings.trim (stripBOM exampleTable))))).
  cbn [List.map].
  repeat match goal with
  | |- context [toLowerCase (Strings.trim ?h)] =>
    evaluate (Strings.trim h);
    rewrite toLowerCase_ascii by (repeat constructor)
  end.
  reflexivity.
Qed.

Lemma exampleTable_parse :
  parseAs568Csv toLowerCase localeCompare exampleTable
  = [ {| dash := js "004"; cs := 1.02%float; id := 1.78%float |} ].
Proof.
  rewrite parseAs568Csv_unfold.
  unfold dashIndex, csIndex, idIndex. rewrite exampleTable_header.
  evaluate (List.flat_map
              (parseLine (find [js "dash"; js "cs"; js "id"] [js "dash"; js "dash size"])
                 (find [js "dash"; js "cs"; js "id"]
                    [js "cs"; js "o-ring cross section size"; js "o-ring cross section"])
                 (find [js "dash"; js "cs"; js "id"]
                    [js "id"; js "o-ring internal diameter size";
                     js "o-ring internal diameter"]))
              (dataLines exampleTable)).
  reflexivity.
Qed.

End Example.

Section Claim.
Import Floats.

(** Claim C8: the parser raises no error and drops every row that is
    blank, has fewer columns than required, has an empty dash identifier,
    or has a cs or id column that does not parse as a finite number: the
    rows it returns are, up to the order of the sort, those of the lines
    after the header that are not dropped.  The table with the header
    [Dash,CS,ID] and the rows [004,1.02,1.78] and [1x3,abc,2.0] gives
    exactly the row of dash "004". *)
Theorem parser_drops_malformed_rows :
  (forall (toLowerCase : jsstring -> jsstring)
          (localeCompare : jsstring -> jsstring -> Z) (text : jsstring),
     let iDash := dashIndex toLowerCase text in
     let iCS := csIndex toLowerCase text in
     let iID := idIndex toLowerCase text in
     Permutation (parseAs568Csv toLowerCase localeCompare text)
       (List.flat_map (parseLine iDash iCS iID) (dataLines text))
     /\ forall line : jsstring,
          (rowDropped iDash iCS iID line -> parseLine iDash iCS iID line = [])
          /\ (~ rowDropped iDash iCS iID line ->
              parseLine iDash iCS iID line = [rowOf iDash iCS iID line]))
  /\ (forall (toLowerCase : jsstring -> jsstring)
             (localeCompare : jsstring -> jsstring -> Z),
       (forall s, isASCII s -> toLowerCase s = asciiLower s) ->
       parseAs568Csv toLowerCase localeCompare exampleTable
       = [ {| dash := js "004"; cs := 1.02%float; id := 1.78%float |} ]).
Proof.
  split.
  - intros toLowerCase localeCompare text iDash iCS iID. split.
    + apply parseAs568Csv_rows.
    + intros line. split; [apply parseLine_dropped|apply parseLine_kept].
  - apply exampleTable_parse.
Qed.

Lemma parser_drops_malformed_rows_witness :
  parseAs568Csv asciiLower (fun _ _ => 0%Z) exampleTable
  = [ {| dash := js "004"; cs := 1.02%float; id := 1.78%float |} ].
Proof.
  apply (proj2 parser_drops_malformed_rows). intros s _. reflexivity.
Defined.

End Claim.
End CatalogFacts.

(** ** The catalog parser: what every table gives *)

Module CatalogRows.
Import Strings Catalog.

(** *** Trimming *)

Lemma trim_leading (c : N) (s : jsstring) :
  isWhiteSpace c = true -> trim (c :: s) = trim s.
Proof. intros H. unfold trim. cbn [trimStart]. rewrite H. reflexivity. Qed.

Lemma trimStart_app_nonblank (s t : jsstring) :
  trimStart s <> [] -> trimStart (s ++ t) = trimStart s ++ t.
Proof.
  induction s as [|c s IH]; cbn; [congruence|].
  destruct (isWhiteSpace c); [exact IH|reflexivity].
Qed.

Lemma trimStart_app_blank (s t : jsstring) :
  trimStart s = [] -> trimStart (s ++ t) = trimStart t.
Proof.
  induction s as [|c s IH]; cbn; [reflexivity|].
  destruct (isWhiteSpace c); [exact IH|discriminate].
Qed.

Lemma trimStart_idem (s : jsstring) : trimStart (trimStart s) = trimStart s.
Proof.
  induction s as [|c s IH]; cbn; [reflexivity|].
  destruct (isWhiteSpace c) eqn:E; [exact IH|]. cbn. rewrite E. reflexivity.
Qed.

Lemma trimStart_head (s r : jsstring) (c : N) :
  trimStart s = c :: r -> isWhiteSpace c = false.
Proof.
  induction s as [|d s IH]; cbn; [discriminate|].
  destruct (isWhiteSpace d) eqn:E; [exact IH|]. intros [= <- _]. exact E.
Qed.

Lemma trimStart_In (s : jsstring) (c : N) : In c (trimStart s) -> In c s.
Proof.
  induction s as [|d s IH]; cbn; [tauto|].
  destruct (isWhiteSpace d); [auto|]. cbn. tauto.
Qed.

Lemma trimEnd_In (s : jsstring) (c : N) : In c (trimEnd s) -> In c s.
Proof.
  unfold trimEnd. intros H. apply in_rev in H. apply trimStart_In in H.
  apply in_rev in H. exact H.
Qed.

Lemma trim_In (s : jsstring) (c : N) : In c (trim s) -> In c s.
Proof. unfold trim. intros H. apply trimStart_In, trimEnd_In, H. Qed.

Lemma trimEnd_trailing (c : N) (s : jsstring) :
  isWhiteSpace c = true -> trimEnd (s ++ [c]) = trimEnd s.
Proof.
  intros H. unfold trimEnd. rewrite rev_app_distr. cbn [rev app trimStart].
  rewrite H. reflexivity.
Qed.

Lemma trim_trailing (c : N) (s : jsstring) :
  isWhiteSpace c = true -> trim (s ++ [c]) = trim s.
Proof.
  intros H. unfold trim.
  destruct (trimStart s) as [|d s'] eqn:E.
  - rewrite trimStart_app_blank by assumption. cbn [trimStart]. rewrite H. reflexivity.
  - rewrite trimStart_app_nonblank by congruence. rewrite E.
    apply trimEnd_trailing, H.
Qed.

(** A string that starts with a character other than white space keeps it
    in front when its end is trimmed. *)
Lemma trimStart_snoc (l : jsstring) (c : N) :
  isWhiteSpace c = false -> exists w, trimStart (l ++ [c]) = w ++ [c].
Proof.
  intros H. induction l as [|d l IH]; cbn.
  - rewrite H. exists []. reflexivity.
  - destruct (isWhiteSpace d); [exact IH|]. exists (d :: l). reflexivity.
Qed.

Lemma trim_idem (s : jsstring) : trim (trim s) = trim s.
Proof.
  unfold trim. destruct (trimStart s) as [|c r] eqn:E; [reflexivity|].
  pose proof (trimStart_head _ _ _ E) as Hc.
  destruct (trimStart_snoc (rev r) c Hc) as [w Hw].
  assert (Hfix : trimStart (w ++ [c]) = w ++ [c])
    by (rewrite <- Hw; apply trimStart_idem).
  assert (Hv : trimEnd (c :: r) = c :: rev w).
  { unfold trimEnd. cbn [rev]. rewrite Hw, rev_app_distr. reflexivity. }
  rewrite Hv. cbn [trimStart]. rewrite Hc.
  unfold trimEnd. cbn [rev]. rewrite rev_involutive, Hfix, rev_app_distr.
  reflexivity.
Qed.

Lemma trim_stripBOM (text : jsstring) : trim (stripBOM text) = trim text.
Proof.
  destruct text as [|[|p] text]; try reflexivity.
  unfold stripBOM. do 16 (destruct p as [p|p|]; try reflexivity).
Qed.

(** *** Splitting *)

Lemma splitAt_pieces (sep : N) (s piece : jsstring) :
  In piece (splitAt sep s) -> ~ In sep piece /\ forall c, In c piece -> In c s.
Proof.
  revert piece. induction s as [|c s IH]; cbn; intros piece H.
  - destruct H as [<-|[]]. split; [tauto|auto].
  - destruct (N.eqb_spec c sep) as [->|Hne].
    + destruct H as [<-|H]; [split; [tauto|intros ? []]|].
      destruct (IH _ H). split; [assumption|]. intros d Hd. right. auto.
    + destruct (splitAt sep s) as [|p ps] eqn:E.
      * destruct H as [<-|[]]. split; cbn; [intuition congruence|tauto].
      * destruct H as [<-|H].
        -- destruct (IH p (or_introl eq_refl)) as [H1 H2].
           split; cbn; [intuition congruence|]. intros d [->|Hd]; auto.
        -- destruct (IH piece (or_intror H)) as [H1 H2].
           split; [assumption|]. intros d Hd. right. auto.
Qed.

Lemma dropLastCR_In (s : jsstring) (c : N) : In c (dropLastCR s) -> In c s.
Proof.
  unfold dropLastCR. destruct (rev s) as [|d r] eqn:E; [auto|].
  assert (Hr : forall x, In x (rev r) -> In x s).
  { intros x Hx. apply in_rev. rewrite E. right. apply in_rev. exact Hx. }
  destruct d as [|p]; auto.
  do 4 (destruct p as [p|p|]; auto).
Qed.

Lemma dropCRs_pieces (pieces : list jsstring) (line : jsstring) :
  In line (dropCRs pieces) ->
  exists piece, In piece pieces /\ forall c, In c line -> In c piece.
Proof.
  induction pieces as [|p ps IH]; cbn; [tauto|].
  destruct ps as [|q ps'].
  - intros [<-|[]]. exists p. split; [left; reflexivity|auto].
  - intros [<-|H].
    + exists p. split; [left; reflexivity|apply dropLastCR_In].
    + destruct (IH H) as (piece & Hp & Hc). exists piece. split; [right|]; assumption.
Qed.

Lemma splitLines_lines (s line : jsstring) :
  In line (splitLines s) -> ~ In 10%N line.
Proof.
  unfold splitLines. intros H.
  destruct (dropCRs_pieces _ _ H) as (piece & Hp & Hc).
  destruct (splitAt_pieces _ _ _ Hp) as [Hno _]. auto.
Qed.

(** *** The rows of a line *)

Lemma at_index_In (cols : list jsstring) (i : option Z) (v : jsstring) :
  at_index cols i = Some v -> In v cols.
Proof.
  unfold at_index. destruct i as [i|]; [|discriminate].
  destruct (i <? 0)%Z; [discriminate|]. apply nth_error_In.
Qed.

Lemma parseLine_row (iDash iCS iID : option Z) (line : jsstring) (r : row) :
  In r (parseLine iDash iCS iID line) ->
  r.(dash) <> [] /\ trim r.(dash) = r.(dash)
  /\ (forall c, In c r.(dash) -> In c line /\ c <> 44%N)
  /\ PrimFloat.is_finite r.(cs) = true /\ PrimFloat.is_finite r.(id) = true.
Proof.
  unfold parseLine. destruct (trim line) as [|c0 l0]; [intros []|].
  destruct (length_le _ _); [intros []|].
  destruct (at_index _ iDash) as [[|d ds]|] eqn:Ed; try (intros []).
  destruct (PrimFloat.is_finite (ToNumber (at_index _ iCS))) eqn:Hcs; [|intros []].
  destruct (PrimFloat.is_finite (ToNumber (at_index _ iID))) eqn:Hid; [|intros []].
  cbn [negb orb]. intros [<-|[]]. cbn [dash cs id].
  apply at_index_In, in_map_iff in Ed. destruct Ed as (piece & Ep & Hp).
  destruct (splitAt_pieces _ _ _ Hp) as [Hno Hin].
  split; [discriminate|]. split; [rewrite <- Ep; apply trim_idem|].
  split; [|split; assumption].
  intros c Hc. rewrite <- Ep in Hc. apply trim_In in Hc.
  split; [auto|]. intros ->. exact (Hno Hc).
Qed.

Lemma tl_In {T : Type} (l : list T) (x : T) : In x (List.tl l) -> In x l.
Proof. destruct l; cbn; auto. Qed.

(** *** Columns that the header does not name *)

Lemma indexOf_absent (header : list jsstring) (k : jsstring) :
  ~ In k header -> indexOf header k = (-1)%Z.
Proof.
  induction header as [|h header IH]; cbn; [reflexivity|].
  intros H. rewrite Units.streq_neq by (intros ->; tauto).
  rewrite IH by tauto. reflexivity.
Qed.

Lemma find_absent (header arr : list jsstring) :
  (forall k, In k arr -> ~ In k header) -> find header arr = None.
Proof.
  unfold find. induction arr as [|k arr IH]; cbn; [reflexivity|].
  intros H. rewrite indexOf_absent by (apply H; left; reflexivity).
  cbn. apply IH. intros k' Hk'. apply H. right. exact Hk'.
Qed.

Lemma parseLine_no_column (iDash iCS iID : option Z) (line : jsstring) :
  iDash = None \/ iCS = None \/ iID = None -> parseLine iDash iCS iID line = [].
Proof.
  intros H. apply CatalogFacts.parseLine_dropped.
  unfold rowDropped, dashEmpty, notFinite.
  destruct H as [-> | [-> | ->]]; cbn [at_index ToNumber]; auto 6.
Qed.

Lemma flat_map_nil {T U : Type} (f : T -> list U) (l : list T) :
  (forall x, f x = []) -> flat_map f l = [].
Proof. intros H. induction l as [|x l IH]; cbn; [|rewrite H, IH]; reflexivity. Qed.

(** *** Sorting with ties *)

Section Ties.
Context {T : Type} (before : T -> T -> bool).
Hypothesis before_irrefl : forall x, before x x = false.
Hypothesis before_trans : forall x y z,
  before x y = true -> before y z = true -> before x z = true.

Lemma sortInsert_ties (x : T) (l : list T) :
  StronglySorted (fun a b => before b a = false) l ->
  StronglySorted (fun a b => before b a = false) (sortInsert before x l).
Proof.
  induction 1 as [|y l Hs IH Hy]; cbn.
  - constructor; constructor.
  - rewrite Forall_forall in Hy. destruct (before x y) eqn:Hxy.
    + constructor; [constructor; [assumption|apply Forall_forall; assumption]|].
      constructor.
      * destruct (before y x) eqn:Hyx; [|reflexivity].
        rewrite <- (before_irrefl x). symmetry. eauto.
      * apply Forall_forall. intros z Hz.
        destruct (before z x) eqn:Hzx; [|reflexivity].
        rewrite <- (Hy z Hz). symmetry. eauto.
    + constructor; [assumption|]. apply Forall_forall. intros z Hz.
      apply TemperatureList.sortInsert_In in Hz. destruct Hz as [->|Hz]; auto.
Qed.

Lemma sort_ties (l : list T) :
  StronglySorted (fun a b => before b a = false) (sort before l).
Proof.
  unfold sort.
  assert (H : forall acc, StronglySorted (fun a b => before b a = false) acc ->
            StronglySorted (fun a b => before b a = false)
              (fold_left (fun acc x => sortInsert before x acc) l acc)).
  { induction l as [|x l IH]; cbn; [auto|].
    intros acc Hacc. apply IH, sortInsert_ties, Hacc. }
  apply H. constructor.
Qed.

End Ties.

Section InOrder.
Context {T : Type} (before : T -> T -> bool).

Lemma sortInsert_last (x : T) (l : list T) :
  Forall (fun y => before x y = false) l -> sortInsert before x l = l ++ [x].
Proof.
  induction 1 as [|y l Hy _ IH]; cbn; [reflexivity|].
  rewrite Hy, IH. reflexivity.
Qed.

Lemma StronglySorted_app_inv {R : T -> T -> Prop} (l1 l2 : list T) :
  StronglySorted R (l1 ++ l2) ->
  StronglySorted R l2 /\ forall a b, In a l1 -> In b l2 -> R a b.
Proof.
  induction l1 as [|x l1 IH]; cbn; intros H.
  - split; [assumption|intros ? ? []].
  - inversion H as [|? ? Hs Hx]; subst. destruct (IH Hs) as [H2 H12].
    split; [assumption|]. intros a b [<-|Ha] Hb; [|auto].
    rewrite Forall_forall in Hx. apply Hx, in_or_app. right. exact Hb.
Qed.

Lemma sort_in_order (l : list T) :
  StronglySorted (fun a b => before b a = false) l -> sort before l = l.
Proof.
  unfold sort.
  assert (H : forall acc,
            StronglySorted (fun a b => before b a = false) (acc ++ l) ->
            fold_left (fun acc x => sortInsert before x acc) l acc = acc ++ l).
  { induction l as [|x l IH]; cbn; intros acc Hs.
    - rewrite app_nil_r. reflexivity.
    - rewrite sortInsert_last.
      + rewrite IH; rewrite <- app_assoc; [reflexivity|exact Hs].
      + apply Forall_forall. intros y Hy.
        destruct (StronglySorted_app_inv _ _ Hs) as [_ H12].
        apply (H12 y x Hy). left. reflexivity. }
  intros Hs. apply (H [] Hs).
Qed.

End InOrder.

Section Parser.
Variable toLowerCase : jsstring -> jsstring.
Variable localeCompare : jsstring -> jsstring -> Z.

(** The rows of a table, in the order of its lines. *)
Lemma parseAs568Csv_In (text : jsstring) (r : row) :
  In r (parseAs568Csv toLowerCase localeCompare text) ->
  exists line, In line (dataLines text)
    /\ In r (parseLine (dashIndex toLowerCase text) (csIndex toLowerCase text)
                       (idIndex toLowerCase text) line).
Proof.
  rewrite CatalogFacts.parseAs568Csv_unfold. intros H.
  apply TemperatureList.sort_In, in_flat_map in H. exact H.
Qed.

(** Every row that the parser returns is well formed: its dash identifier
    is not empty, has no white space around it and holds no comma and no
    line feed, and its cs and id are finite Numbers. *)
Theorem parseAs568Csv_rows_well_formed (text : jsstring) (r : row) :
  In r (parseAs568Csv toLowerCase localeCompare text) ->
  r.(dash) <> emptyString
  /\ trim r.(dash) = r.(dash)
  /\ ~ In 44%N r.(dash) /\ ~ In 10%N r.(dash)
  /\ PrimFloat.is_finite r.(cs) = true
  /\ PrimFloat.is_finite r.(id) = true.
Proof.
  intros H. destruct (parseAs568Csv_In text r H) as (line & Hl & Hr).
  destruct (parseLine_row _ _ _ _ _ Hr) as (H1 & H2 & H3 & H4 & H5).
  repeat split; try assumption.
  - intros Hc. destruct (H3 _ Hc) as [_ Hne]. congruence.
  - intros Hc. destruct (H3 _ Hc) as [Hin _].
    apply tl_In in Hl. exact (splitLines_lines _ _ Hl Hin).
Qed.

(** A table whose header names no dash column, no cs column or no id
    column gives no rows at all. *)
Theorem parseAs568Csv_missing_column (text : jsstring) :
  (forall k, In k [js "dash"; js "dash size"] -> ~ In k (headerOf toLowerCase text))
  \/ (forall k, In k [js "cs"; js "o-ring cross section size";
                     js "o-ring cross section"] ->
        ~ In k (headerOf toLowerCase text))
  \/ (forall k, In k [js "id"; js "o-ring internal diameter size";
                     js "o-ring internal diameter"] ->
        ~ In k (headerOf toLowerCase text)) ->
  parseAs568Csv toLowerCase localeCompare text = [].
Proof.
  intros H. rewrite CatalogFacts.parseAs568Csv_unfold.
  rewrite flat_map_nil; [reflexivity|].
  intros line. apply parseLine_no_column.
  unfold dashIndex, csIndex, idIndex.
  destruct H as [H|[H|H]]; apply find_absent in H;
    [left|right; left|right; right]; exact H.
Qed.

(** White space around the table, a byte-order mark among it, does not
    change what is parsed. *)
Theorem parseAs568Csv_ignores_surrounding_space (text1 text2 : jsstring) :
  trim text1 = trim text2 ->
  parseAs568Csv toLowerCase localeCompare text1
  = parseAs568Csv toLowerCase localeCompare text2.
Proof.
  intros H. unfold parseAs568Csv. rewrite !trim_stripBOM, H. reflexivity.
Qed.

End Parser.

Lemma StronglySorted_impl {T : Type} (R S : T -> T -> Prop) (l : list T) :
  (forall a b, R a b -> S a b) -> StronglySorted R l -> StronglySorted S l.
Proof.
  intros H. induction 1 as [|x l Hs IH Hx]; constructor; [assumption|].
  revert Hx. apply Forall_impl. intros b. apply H.
Qed.

(** With a collation that is a strict order, the rows come out sorted by
    their dash identifier: no row compares below one in front of it. *)
Theorem parseAs568Csv_sorted (toLowerCase : jsstring -> jsstring)
  (localeCompare : jsstring -> jsstring -> Z) (text : jsstring) :
  (forall a, (0 <= localeCompare a a)%Z) ->
  (forall a b c, (localeCompare a b < 0)%Z -> (localeCompare b c < 0)%Z ->
                 (localeCompare a c < 0)%Z) ->
  StronglySorted (fun a b => (0 <= localeCompare b.(dash) a.(dash))%Z)
    (parseAs568Csv toLowerCase localeCompare text).
Proof.
  intros Hirr Htrans. rewrite CatalogFacts.parseAs568Csv_unfold.
  eapply StronglySorted_impl; [|apply sort_ties].
  - cbn beta. intros a b H. apply Z.ltb_ge, H.
  - intros x. apply Z.ltb_ge, Hirr.
  - intros x y z Hxy Hyz. apply Z.ltb_lt in Hxy, Hyz. apply Z.ltb_lt. eauto.
Qed.

(** With such a collation, a table whose rows are in order already is
    returned in the order of its lines: rows that compare equal are not
    swapped. *)
Theorem parseAs568Csv_keeps_file_order (toLowerCase : jsstring -> jsstring)
  (localeCompare : jsstring -> jsstring -> Z) (text : jsstring) :
  (forall a, (0 <= localeCompare a a)%Z) ->
  (forall a b c, (localeCompare a b < 0)%Z -> (localeCompare b c < 0)%Z ->
                 (localeCompare a c < 0)%Z) ->
  let rows :=
    List.flat_map
      (parseLine (dashIndex toLowerCase text) (csIndex toLowerCase text)
                 (idIndex toLowerCase text))
      (dataLines text) in
  StronglySorted (fun a b => (0 <= localeCompare b.(dash) a.(dash))%Z) rows ->
  parseAs568Csv toLowerCase localeCompare text = rows.
Proof.
  intros _ _ rows Hs. rewrite CatalogFacts.parseAs568Csv_unfold.
  apply sort_in_order. revert Hs. apply StronglySorted_impl.
  intros a b H. apply Z.ltb_ge, H.
Qed.

Section Witnesses.
Import Floats.
Import Examples.

Lemma parseAs568Csv_rows_well_formed_witness :
  let r := {| dash := js "004"; cs := 1.02%float; id := 1.78%float |} in
  r.(dash) <> emptyString
  /\ trim r.(dash) = r.(dash)
  /\ ~ In 44%N r.(dash) /\ ~ In 10%N r.(dash)
  /\ PrimFloat.is_finite r.(cs) = true
  /\ PrimFloat.is_finite r.(id) = true.
Proof.
  apply (parseAs568Csv_rows_well_formed asciiLower byLength exampleTable).
  vm_compute. left. reflexivity.
Defined.

Lemma parseAs568Csv_missing_column_witness :
  parseAs568Csv asciiLower byLength tableWithoutDash = [].
Proof.
  apply parseAs568Csv_missing_column. left.
  intros k Hk Hh. vm_compute in Hh.
  destruct Hk as [<-|[<-|[]]]; vm_compute in Hh; intuition discriminate.
Defined.

Lemma parseAs568Csv_ignores_surrounding_space_witness :
  parseAs568Csv asciiLower byLength paddedTable
  = parseAs568Csv asciiLower byLength exampleTable.
Proof.
  apply parseAs568Csv_ignores_surrounding_space. vm_compute. reflexivity.
Defined.

Lemma parseAs568Csv_sorted_witness :
  StronglySorted (fun a b => (0 <= byLength b.(dash) a.(dash))%Z)
    (parseAs568Csv asciiLower byLength sortedTable).
Proof.
  apply parseAs568Csv_sorted; unfold byLength; intros; lia.
Defined.

Lemma parseAs568Csv_keeps_file_order_witness :
  parseAs568Csv asciiLower byLength sortedTable
  = [ {| dash := js "004"; cs := 1.02%float; id := 1.78%float |};
      {| dash := js "005"; cs := 1.5%float; id := 2%float |};
      {| dash := js "0010"; cs := 2%float; id := 3%float |} ].
Proof.
  apply (parseAs568Csv_keeps_file_order asciiLower byLength sortedTable);
    [unfold byLength; intros; lia ..|].
  vm_compute. repeat constructor; discriminate.
Defined.

End Witnesses.
End CatalogRows.
(** ** The search box of the AS568 modal *)

Module ModalFacts.
Import Strings Catalog Modal.

Lemma startsWith_spec (s q : jsstring) :
  startsWith s q = true <-> exists b, s = q ++ b.
Proof.
  revert s. induction q as [|c q IH]; intros s; cbn.
  - split; [exists s; reflexivity|reflexivity].
  - destruct s as [|d s].
    + split; [discriminate|]. intros [b H]. discriminate.
    + rewrite andb_true_iff, N.eqb_eq, IH. split.
      * intros [-> [b ->]]. exists b. reflexivity.
      * intros [b [= -> ->]]. split; [reflexivity|exists b; reflexivity].
Qed.

Lemma includes_spec (s q : jsstring) :
  includes s q = true <-> exists a b, s = a ++ q ++ b.
Proof.
  induction s as [|d s IH]; cbn [includes]; rewrite orb_true_iff, startsWith_spec.
  - split.
    + intros [[b H]|H]; [exists [], b; exact H|discriminate].
    + intros (a & b & H). left. destruct a; [exists b; exact H|discriminate].
  - rewrite IH. split.
    + intros [[b H]|(a & b & ->)]; [exists [], b; exact H|].
      exists (d :: a), b. reflexivity.
    + intros (a & b & H). destruct a as [|d' a].
      * left. exists b. exact H.
      * right. injection H as _ ->. exists a, b. reflexivity.
Qed.

Lemma includes_empty (s : jsstring) : includes s [] = true.
Proof. destruct s; reflexivity. Qed.

Lemma includes_trans (s q1 q2 : jsstring) :
  includes s q2 = true -> includes q2 q1 = true -> includes s q1 = true.
Proof.
  rewrite !includes_spec. intros (a & b & ->) (a' & b' & ->).
  exists (a ++ a'), (b' ++ b). rewrite <- !app_assoc. reflexivity.
Qed.

Section Filter.
Variable toLowerCase : jsstring -> jsstring.
Variable numberToString : PrimFloat.float -> jsstring.

(** An empty search box, or one with white space only, shows the whole
    table. *)
Theorem filterAs568Table_blank_query (as568Data : list row) (query : jsstring) :
  trim (toLowerCase query) = emptyString ->
  filterAs568Table toLowerCase numberToString as568Data query = as568Data.
Proof.
  intros H. unfold filterAs568Table. rewrite H.
  induction as568Data as [|r l IH]; cbn [filter]; [reflexivity|].
  rewrite includes_empty, IH. reflexivity.
Qed.

(** A longer query narrows the result: when the query, trimmed and in
    lower case, contains an earlier one, every row it shows was shown for
    the earlier one, and no query shows a row that is not of the table. *)
Theorem filterAs568Table_narrows (as568Data : list row) (query1 query2 : jsstring)
  (r : row) :
  includes (trim (toLowerCase query2)) (trim (toLowerCase query1)) = true ->
  In r (filterAs568Table toLowerCase numberToString as568Data query2) ->
  In r (filterAs568Table toLowerCase numberToString as568Data query1)
  /\ In r as568Data.
Proof.
  unfold filterAs568Table. intros Hq H.
  apply filter_In in H. destruct H as [Hr H]. split; [|exact Hr].
  apply filter_In. split; [exact Hr|].
  rewrite !orb_true_iff in H |- *.
  destruct H as [[H|H]|H]; eauto using includes_trans.
Qed.

End Filter.

Section Witnesses.
Import Floats.
Import Examples.

Lemma filterAs568Table_blank_query_witness :
  filterAs568Table asciiLower (fun _ => js "2") exampleRows (js "  ") = exampleRows.
Proof. apply filterAs568Table_blank_query. vm_compute. reflexivity. Defined.

Lemma filterAs568Table_narrows_witness :
  let r := {| dash := js "A12"; cs := 2%float; id := 3%float |} in
  In r (filterAs568Table asciiLower (fun _ => js "2") exampleRows (js "a"))
  /\ In r exampleRows.
Proof.
  apply (filterAs568Table_narrows asciiLower (fun _ => js "2") exampleRows
           (js "a") (js " A1")).
  - vm_compute. reflexivity.
  - vm_compute. left. reflexivity.
Defined.

End Witnesses.
End ModalFacts.

(** ** The bands of the report *)

Module BandFacts.

Section Real.
Import RealModel RealFacts.
Local Open Scope R_scope.

#[export] Instance RealBands : BandLaws RealArith.
Proof.
  split; cbn.
  - intros x y H. apply Rltb_true in H. apply Rleb_false. lra.
  - intros x y H. apply Rltb_true in H. apply Rleb_true. lra.
  - apply Rltb_true. unfold Q2R. cbn. lra.
  - apply Rltb_true. unfold Q2R. cbn. lra.
  - apply Rltb_true. unfold Q2R. cbn. lra.
Qed.

End Real.

Section Double.
Import Floats.
Import DoubleModel DoubleFacts SpecFloatFacts.

Lemma SFltb_not_SFleb (x y : spec_float) : SFltb x y = true -> SFleb y x = false.
Proof.
  unfold SFltb, SFleb, SFcompare.
  destruct x as [s1|s1| |s1 m1 e1], y as [s2|s2| |s2 m2 e2];
    try destruct s1; try destruct s2; cbn;
    try discriminate; try reflexivity;
    rewrite ?compare_cont_Eq; intros H; cmp_cases; subst; cbn in *;
    try discriminate; try reflexivity; try lia.
Qed.

Lemma SFltb_SFleb (x y : spec_float) : SFltb x y = true -> SFleb x y = true.
Proof.
  unfold SFltb, SFleb. destruct (SFcompare x y) as [[| |]|]; try discriminate; reflexivity.
Qed.

Lemma DoubleBands (M : MathLib) : BandLaws (DoubleArith M).
Proof.
  split; cbn.
  - intros x y. rewrite ltb_spec, leb_spec. apply SFltb_not_SFleb.
  - intros x y. rewrite ltb_spec, leb_spec. apply SFltb_SFleb.
  - vm_compute. reflexivity.
  - vm_compute. reflexivity.
  - vm_compute. reflexivity.
Qed.

End Double.
End BandFacts.

Module ReportFacts.
Import Script Report.

Lemma oob_not_empty : oob <> emptyString.
Proof. vm_compute. discriminate. Qed.

Section Generic.
Context {A : Arith} {L : OrderLaws A} {B : BandLaws A}.
Variable numberToString : num -> jsstring.
Variable toFixed2 : num -> jsstring.
Local Open Scope num_scope.

Lemma ltb_asym (x y : num) : (x <? y) = true -> (y <? x) = false.
Proof.
  intros H. destruct (y <? x) eqn:E; [|reflexivity].
  rewrite <- (ltb_irrefl x). symmetry. exact (ltb_trans _ _ _ H E).
Qed.



Lemma Math_max0_not_negative (x : num) : (Math_max0 x <? #0) = false.
Proof.
  unfold Math_max0. destruct (x >? #0) eqn:Hp; [apply ltb_asym, Hp|].
  destruct (x <=? #0) eqn:Hle; [apply ltb_irrefl|].
  destruct (x <? #0) eqn:Hn; [|reflexivity].
  rewrite (ltb_leb _ _ Hn) in Hle. discriminate.
Qed.

Lemma compressionRow_not_negative (t : temperatureResult) :
  ((compressionRow t).(shown) <? #0) = false.
Proof.
  unfold compressionRow. cbn [shown].
  destruct (t.(compressionPct) <? #0) eqn:H; [apply ltb_irrefl|exact H].
Qed.

Lemma fillRow_not_negative (t : temperatureResult) :
  ((fillRow t).(shown) <? #0) = false.
Proof.
  unfold fillRow. cbn [shown].
  destruct (t.(glandFillPct) <? #0) eqn:H; [apply ltb_irrefl|exact H].
Qed.

Lemma addOpCard_rows (tempUnit name : jsstring) (entry : option temperatureResult)
  (cards : list card) (c : card) (r : cardRow) :
  addOpCard toFixed2 tempUnit name entry = Some cards ->
  In c cards -> In r c.(rows) -> (r.(shown) <? #0) = false.
Proof.
  unfold addOpCard. destruct entry as [e|]; [|intros [= <-] []].
  destruct (toDisp _ _ _); [|discriminate].
  intros [= <-] [<-|[]]. cbn [rows]. intros [<-|[<-|[]]];
    [apply compressionRow_not_negative|apply fillRow_not_negative].
Qed.

End Generic.



(** No card shows a negative Number: a negative stretch, compression or
    gland fill is shown as 0. *)
Theorem renderResultsGrid_never_negative (A : Arith) (L : OrderLaws A)
  (B : BandLaws A) (toFixed2 : num -> jsstring) (tempUnit : jsstring)
  (out : calculation) (meta : metaMap) (stretchPct : num)
  (cards : list card) (c : card) (r : cardRow) :
  renderResultsGrid toFixed2 tempUnit out meta stretchPct = Some cards ->
  In c cards -> In r c.(rows) ->
  (r.(shown) <? #0)%num = false.
Proof.
  unfold renderResultsGrid.
  destruct (addOpCard _ _ _ meta.(min)) as [c1|] eqn:E1; [|discriminate].
  destruct (addOpCard _ _ _ meta.(nominal)) as [c2|] eqn:E2; [|discriminate].
  destruct (addOpCard _ _ _ meta.(max)) as [c3|] eqn:E3; [|discriminate].
  intros [= <-] Hc Hr.
  apply in_app_or in Hc. destruct Hc as [Hc|Hc].
  2: { apply in_app_or in Hc. destruct Hc as [Hc|Hc];
         [exact (addOpCard_rows _ _ _ _ _ _ _ E1 Hc Hr)|].
       apply in_app_or in Hc. destruct Hc as [Hc|Hc];
         [exact (addOpCard_rows _ _ _ _ _ _ _ E2 Hc Hr)
         |exact (addOpCard_rows _ _ _ _ _ _ _ E3 Hc Hr)]. }
  destruct meta.(ambient) as [t|]; [|destruct Hc].
  destruct Hc as [<-|[]]. cbn [rows] in Hr.
  destruct Hr as [<-|[<-|[<-|[]]]]; cbn [shown];
    [apply Math_max0_not_negative|apply compressionRow_not_negative
    |apply fillRow_not_negative].
Qed.

(** The stretch of the ambient card is red exactly when the banner says
    that the O-ring is loose; a stretch above 5 is warned of in the banner
    only. *)
Theorem stretch_red_iff_loose (A : Arith) (L : OrderLaws A)
  (numberToString toFixed2 : num -> jsstring) (tempUnit : jsstring)
  (out : calculation) (meta : metaMap) (t : temperatureResult)
  (cards : list card) :
  meta.(ambient) = Some t ->
  renderResultsGrid toFixed2 tempUnit out meta out.(Script.stretchPct) = Some cards ->
  exists sRow rest more,
    cards = {| header := js "Ambient Temperature (23 °C)"; rows := sRow :: rest |}
            :: more
    /\ sRow.(label) = js "Stretch"
    /\ (sRow.(cls) = oob <-> In stretchLoose (evaluateWarnings numberToString out)).
Proof.
  intros Hm. unfold renderResultsGrid. rewrite Hm.
  destruct (addOpCard _ _ _ meta.(min)) as [c1|]; [|discriminate].
  destruct (addOpCard _ _ _ meta.(nominal)) as [c2|]; [|discriminate].
  destruct (addOpCard _ _ _ meta.(max)) as [c3|]; [|discriminate].
  intros [= <-].
  eexists _, _, _. split; [reflexivity|]. split; [reflexivity|]. cbn [cls].
  rewrite (Warnings.stretch_message_In numberToString out stretchLoose)
    by (left; reflexivity).
  destruct (out.(Script.stretchPct) <? #0)%num.
  - split; [intros _; left|]; reflexivity.
  - split.
    + intros H. symmetry in H. destruct (oob_not_empty H).
    + destruct (out.(Script.stretchPct) >? #5)%num; cbn; [|tauto].
      intros [H|[]]. symmetry in H. destruct (Warnings.stretch_messages_differ H).
Qed.

Section Witnesses.
Import RealModel RealFacts Examples.
Local Open Scope R_scope.




Lemma renderResultsGrid_never_negative_witness :
  ((compressionRow lowEntry).(shown) <? #0)%num = false.
Proof.
  apply (renderResultsGrid_never_negative RealArith Laws.RealLaws BandFacts.RealBands
           (fun _ => js "0.00") (js "°C") lowOut ambientOnly lowOut.(stretchPct)
           _ _ (compressionRow lowEntry) eq_refl (or_introl eq_refl)).
  right. left. reflexivity.
Defined.

Lemma stretch_red_iff_loose_witness :
  exists sRow rest more,
    renderResultsGrid (A := RealArith) (fun _ => js "0.00") (js "°C")
      lowOut ambientOnly lowOut.(stretchPct)
    = Some ({| header := js "Ambient Temperature (23 °C)"; rows := sRow :: rest |}
            :: more)
    /\ sRow.(label) = js "Stretch"
    /\ (sRow.(cls) = oob
        <-> In stretchLoose (evaluateWarnings (fun _ => js "23") lowOut)).
Proof.
  destruct (stretch_red_iff_loose RealArith Laws.RealLaws (fun _ => js "23")
              (fun _ => js "0.00") (js "°C") lowOut ambientOnly lowEntry _
              eq_refl eq_refl) as (sRow & rest & more & E & H).
  exists sRow, rest, more. rewrite <- E. split; [reflexivity|exact H].
Defined.

End Witnesses.
End ReportFacts.

(** ** The degenerate angle *)

Module Degenerate.
Import Floats.
Import Script DoubleModel DoubleFacts.

Lemma div_nonfinite_r (x v : float) :
  is_finite v = false ->
  Prim2SF (x / v) = S754_nan \/ exists s, Prim2SF (x / v) = S754_zero s.
Proof.
  rewrite is_finite_spec, div_spec.
  destruct (Prim2SF v) as [s'|s'| |s' m' e']; try discriminate; intros _;
    destruct (Prim2SF x) as [s|s| |s m e]; cbn; eauto.
Qed.

Lemma percent_of_nothing (a : float) :
  Prim2SF a = S754_nan \/ (exists s, Prim2SF a = S754_zero s) ->
  (Q2F 95 <? a * Q2F 100)%float = false.
Proof.
  intros H. rewrite ltb_spec, mul_spec.
  replace (Prim2SF (Q2F 100)) with (S754_finite false 7036874417766400 (-46))
    by (vm_compute; reflexivity).
  replace (Prim2SF (Q2F 95)) with (S754_finite false 6685030696878080 (-46))
    by (vm_compute; reflexivity).
  destruct H as [->|[s ->]]; [reflexivity|]. destruct s; reflexivity.
Qed.

Section Flow.
Variable M : MathLib.
Variable numberToString : float -> jsstring.
Hypothesis HM : conforms M.

Lemma zero_angle_volume (p : params (A := DoubleArith M)) (tempsList : list float) :
  p.(angle) = 0%float ->
  is_finite (calculateDovetail M p tempsList).(glandVolume) = false.
Proof.
  intros Ha. unfold calculateDovetail, Script.calculateDovetail.
  cbn [glandVolume]. rewrite Ha.
  unfold Script.PI, DoubleArith. unfold_arith.
  apply mul_nonfinite_l, mul_nonfinite_l.
  apply (Geometry.dovetailCrossSection_zero_angle M), HM.
Qed.

Lemma zero_angle_fill (p : params (A := DoubleArith M)) (tempsList : list float)
  (e : temperatureResult (A := DoubleArith M)) :
  p.(angle) = 0%float ->
  In e (calculateDovetail M p tempsList).(temperatureResults) ->
  (e.(glandFillPct) >? #95)%num = false.
Proof.
  intros Ha He.
  destruct (Thermal.calculateDovetail_entries p tempsList e He) as [_ Hfill].
  rewrite Hfill. unfold DoubleArith at 1 2 3 4. unfold_arith.
  apply percent_of_nothing, div_nonfinite_r, zero_angle_volume, Ha.
Qed.

Lemma zero_angle_messages (p : params (A := DoubleArith M)) (tempsList : list float)
  (msg rest : jsstring) :
  p.(angle) = 0%float ->
  In msg (evaluateWarnings (A := DoubleArith M) numberToString (calculateDovetail M p tempsList)) ->
  msg <> js "Gland fill " ++ rest.
Proof.
  intros Ha Hin. unfold evaluateWarnings in Hin.
  apply Warnings.warnings_fold_In in Hin. destruct Hin as [Hin|(t & Ht & Hin)].
  - destruct (_ <? _)%num; [|destruct (_ >? _)%num]; cbn [app In] in Hin;
      try tauto; destruct Hin as [<-|[]]; discriminate.
  - pose proof (zero_angle_fill p tempsList t Ha Ht) as Hfill.
    unfold temperatureWarnings in Hin. rewrite Hfill, app_nil_r in Hin.
    apply in_app_or in Hin.
    destruct Hin as [Hin|Hin];
      match type of Hin with
      | In _ (if ?c then _ else _) => destruct c
      end; cbn [In] in Hin; try tauto; destruct Hin as [<-|[]]; discriminate.
Qed.

End Flow.

(** At the angle 0, which the gate and the advisory check let pass, the
    volume of the gland is not finite, and the gland fill, which is 0 or
    NaN then, is never warned of: no entry is above 95, and the banner has
    no gland fill message. *)
Theorem zero_angle_never_warns_of_fill (M : MathLib)
  (numberToString : float -> jsstring)
  (p : params (A := DoubleArith M)) (tempsList : list float) :
  conforms M -> p.(angle) = 0%float ->
  let out := calculateDovetail M p tempsList in
  is_finite out.(glandVolume) = false
  /\ (forall e, In e out.(temperatureResults) ->
        (e.(glandFillPct) >? #95)%num = false)
  /\ (forall msg rest,
        In msg (evaluateWarnings (A := DoubleArith M) numberToString out) ->
        msg <> js "Gland fill " ++ rest).
Proof.
  intros HM Ha out. split; [|split].
  - apply zero_angle_volume; assumption.
  - intros e. apply zero_angle_fill; assumption.
  - intros msg rest. apply zero_angle_messages; assumption.
Qed.

Lemma zero_angle_never_warns_of_fill_witness :
  let p := Build_params (A := DoubleArith taylorMath)
             2%float 50%float 2.5%float 1.8%float 0%float
             0.3%float 0.2%float 0.1%float 52%float 0.000175%float in
  let out := calculateDovetail taylorMath p [] in
  is_finite out.(glandVolume) = false
  /\ (forall e, In e out.(temperatureResults) ->
        (e.(glandFillPct) >? #95)%num = false)
  /\ (forall msg rest,
        In msg (evaluateWarnings (A := DoubleArith taylorMath) (fun _ => js "23") out) ->
        msg <> js "Gland fill " ++ rest).
Proof.
  exact (zero_angle_never_warns_of_fill taylorMath (fun _ => js "23")
           (Build_params (A := DoubleArith taylorMath)
              2%float 50%float 2.5%float 1.8%float 0%float
              0.3%float 0.2%float 0.1%float 52%float 0.000175%float)
           [] Geometry.taylorMath_conforms eq_refl).
Defined.

End Degenerate.

(** ** The temperature list does not depend on the order of the fields *)

Module TemperatureOrder.
Import Script.

Section Unique.
Context {T : Type} (lt : T -> T -> Prop).
Hypothesis lt_irrefl : forall x, ~ lt x x.
Hypothesis lt_trans : forall x y z, lt x y -> lt y z -> lt x z.

Lemma sorted_unique (l1 : list T) : forall l2 : list T,
  StronglySorted lt l1 -> StronglySorted lt l2 ->
  (forall t, In t l1 <-> In t l2) -> l1 = l2.
Proof.
  induction l1 as [|a l1 IH]; intros l2 H1 H2 Hin.
  - destruct l2 as [|b l2]; [reflexivity|].
    destruct (proj2 (Hin b) (or_introl eq_refl)).
  - destruct l2 as [|b l2]; [destruct (proj1 (Hin a) (or_introl eq_refl))|].
    inversion H1 as [|? ? Hs1 Ha]; subst. inversion H2 as [|? ? Hs2 Hb]; subst.
    rewrite Forall_forall in Ha, Hb.
    assert (Hab : a = b).
    { destruct (proj1 (Hin a) (or_introl eq_refl)) as [E|Hal2]; [auto|].
      destruct (proj2 (Hin b) (or_introl eq_refl)) as [E|Hbl1]; [auto|].
      destruct (lt_irrefl a). eauto. }
    subst b. f_equal. apply IH; try assumption.
    intros t. split; intros Ht.
    + destruct (proj1 (Hin t) (or_intror Ht)) as [E|H]; [|exact H].
      subst t. destruct (lt_irrefl a). auto.
    + destruct (proj2 (Hin t) (or_intror Ht)) as [E|H]; [|exact H].
      subst t. destruct (lt_irrefl a). auto.
Qed.

End Unique.

Section Temperatures.
Context {A : Arith} {L : OrderLaws A}.
Local Open Scope num_scope.

Lemma tempsFinal_permuted (a b c a' b' c' : num) :
  Permutation [a; b; c] [a'; b'; c'] ->
  tempsFinal a b c = tempsFinal a' b' c'.
Proof.
  intros Hp.
  destruct (TemperatureList.tempsFinal_spec a b c) as (r & -> & Hs & _ & Hin).
  destruct (TemperatureList.tempsFinal_spec a' b' c') as (r' & -> & Hs' & _ & Hin').
  f_equal.
  apply (sorted_unique (fun x y => (x <? y) = true)); try assumption.
  - intros x H. rewrite ltb_irrefl in H. discriminate.
  - apply ltb_trans.
  - intros t. rewrite Hin, Hin'. split; intros (s & Hs0 & H); exists s;
      (split; [|exact H]).
    + apply (Permutation_in _ Hp), Hs0.
    + apply (Permutation_in _ (Permutation_sym Hp)), Hs0.
Qed.

Lemma tempsFinal_length (a b c : num) :
  (1 <= List.length (tempsFinal a b c) <= 4)%nat.
Proof.
  destruct (TemperatureList.tempsFinal_spec a b c) as (r & -> & _ & Hnd & Hin).
  cbn [List.length].
  assert (H : (List.length r <= List.length (List.map setKey [a; b; c]))%nat).
  { apply NoDup_incl_length; [exact Hnd|].
    intros t Ht. apply Hin in Ht. destruct Ht as (s & Hs & _ & ->).
    apply in_map, Hs. }
  cbn in H. lia.
Qed.

End Temperatures.

(** The list of the temperatures of a run does not depend on which field
    holds which temperature: a permutation of the three readings gives the
    same list, of one to four temperatures. *)
Theorem tempsFinal_order_insensitive (A : Arith) (L : OrderLaws A)
  (a b c a' b' c' : num) :
  Permutation [a; b; c] [a'; b'; c'] ->
  tempsFinal a b c = tempsFinal a' b' c'
  /\ (1 <= List.length (tempsFinal a b c) <= 4)%nat.
Proof.
  intros Hp. split; [apply tempsFinal_permuted, Hp|apply tempsFinal_length].
Qed.

Lemma tempsFinal_order_insensitive_witness :
  tempsFinal (A := RealModel.RealArith) 150%R (-20)%R 23%R
  = tempsFinal (A := RealModel.RealArith) (-20)%R 23%R 150%R
  /\ (1 <= List.length (tempsFinal (A := RealModel.RealArith) 150%R (-20)%R 23%R) <= 4)%nat.
Proof.
  apply (tempsFinal_order_insensitive RealModel.RealArith Laws.RealLaws).
  apply (Permutation_cons_append [_; _]).
Defined.

End TemperatureOrder.

(** ** The validation gate and the calculation entry point *)

Module FormFacts.
Import Floats.
Import Strings Script Report Form.

(** *** The gate *)

Lemma checkFields_spec (doc : document) (ids : list jsstring) :
  checkFields doc ids = true <->
  forall id, In id ids ->
    if streq id oringMaterialGroup
    then exists sel, doc oringMaterialGroup = Some sel
                     /\ streq sel.(value) emptyString = false
    else isValidNumberField (doc id) = true.
Proof.
  induction ids as [|id ids IH]; cbn [checkFields].
  - split; [intros _ ? []|reflexivity].
  - split.
    + intros H id' [<-|Hin].
      * destruct (streq id oringMaterialGroup).
        -- destruct (doc oringMaterialGroup) as [sel|]; [|discriminate].
           exists sel. split; [reflexivity|].
           destruct (streq sel.(value) emptyString); [discriminate|reflexivity].
        -- destruct (isValidNumberField (doc id)); [reflexivity|discriminate].
      * revert id' Hin. apply IH.
        destruct (streq id oringMaterialGroup).
        -- destruct (doc oringMaterialGroup) as [sel|]; [|discriminate].
           destruct (streq sel.(value) emptyString); [discriminate|exact H].
        -- destruct (isValidNumberField (doc id)); [exact H|discriminate].
    + intros H. pose proof (H id (or_introl eq_refl)) as Hid.
      assert (Hrest : checkFields doc ids = true).
      { apply IH. intros id' Hin. apply H. right. exact Hin. }
      destruct (streq id oringMaterialGroup).
      * destruct Hid as (sel & -> & ->). exact Hrest.
      * rewrite Hid. exact Hrest.
Qed.

Lemma collectPrecalcWarnings_nil (doc : document) :
  collectPrecalcWarnings doc = [] <->
  (exists sel, doc oringMaterialGroup = Some sel
               /\ streq sel.(value) emptyString = false)
  /\ forall id, In id mandatoryFields -> streq id oringMaterialGroup = false ->
       isValidNumberField (doc id) = true.
Proof.
  unfold collectPrecalcWarnings.
  set (invalid := fun id => negb (streq id oringMaterialGroup)
                            && negb (isValidNumberField (doc id))).
  assert (Hinv : filter invalid mandatoryFields = [] <->
            forall id, In id mandatoryFields -> streq id oringMaterialGroup = false ->
              isValidNumberField (doc id) = true).
  { split.
    - intros H id Hin Hne.
      destruct (isValidNumberField (doc id)) eqn:E; [reflexivity|].
      assert (Hf : In id (filter invalid mandatoryFields)).
      { apply filter_In. split; [exact Hin|]. unfold invalid. rewrite Hne, E. reflexivity. }
      rewrite H in Hf. destruct Hf.
    - intros H. destruct (filter invalid mandatoryFields) as [|id l] eqn:E; [reflexivity|].
      assert (Hf : In id (filter invalid mandatoryFields)) by (rewrite E; left; reflexivity).
      apply filter_In in Hf. destruct Hf as [Hin Hf]. unfold invalid in Hf.
      apply andb_prop in Hf. destruct Hf as [H1 H2].
      apply negb_true_iff in H1, H2. rewrite (H id Hin H1) in H2. discriminate. }
  destruct (filter invalid mandatoryFields) as [|id0 l0].
  - destruct (doc oringMaterialGroup) as [sel|].
    + destruct (streq sel.(value) emptyString) eqn:E; cbn [app].
      * split; [discriminate|]. intros [(sel' & [= <-] & H) _]. congruence.
      * split; [|reflexivity]. intros _. split; [eauto|]. apply Hinv. reflexivity.
    + cbn [app]. split; [discriminate|]. intros [(sel' & H & _) _]. discriminate.
  - split.
    + intros H. apply app_eq_nil in H. destruct H as [_ H]. discriminate.
    + intros [_ H]. apply Hinv in H. discriminate.
Qed.

Lemma material_mandatory : In oringMaterialGroup mandatoryFields.
Proof. vm_compute. tauto. Qed.

Lemma checkMandatoryStatus_spec (doc : document) :
  checkMandatoryStatus doc = true <->
  (exists sel, doc oringMaterialGroup = Some sel
               /\ streq sel.(value) emptyString = false)
  /\ forall id, In id mandatoryFields -> streq id oringMaterialGroup = false ->
       isValidNumberField (doc id) = true.
Proof.
  unfold checkMandatoryStatus. rewrite checkFields_spec. split.
  - intros H. split.
    + specialize (H _ material_mandatory).
      rewrite Units.streq_refl in H. exact H.
    + intros id Hin Hne. specialize (H id Hin). rewrite Hne in H. exact H.
  - intros [Hm H] id Hin. destruct (streq id oringMaterialGroup) eqn:E; auto.
Qed.

(** *** Numbers that are equal *)

Section Keys.
Import DoubleModel DoubleFacts Laws.

Lemma key_eqb (t : float) :
  is_finite t = true -> (float_setKey t =? t)%float = true.
Proof.
  intros Hf. unfold float_setKey. destruct (is_zero t) eqn:Hz.
  - apply is_zero_spec in Hz. destruct Hz as [s Hz].
    rewrite eqb_spec, Hz. destruct s; reflexivity.
  - rewrite eqb_spec. apply SFeqb_refl. intros E.
    rewrite is_finite_spec, E in Hf. discriminate.
Qed.

Lemma zero_key (a : float) (s : bool) :
  a = 23%float \/ (exists u, a = float_setKey u) ->
  Prim2SF a = S754_zero s -> a = 0%float.
Proof.
  intros [->|[u ->]] H.
  - vm_compute in H. discriminate.
  - exact (setKey_not_neg_zero _ _ H).
Qed.

Lemma eqb_key (a t : float) :
  a = 23%float \/ (exists u, a = float_setKey u) ->
  (a =? t)%float = true -> a = float_setKey t.
Proof.
  intros Ha H. rewrite eqb_spec in H. apply SFeqb_inv in H.
  unfold float_setKey. destruct (is_zero t) eqn:Hz.
  - apply is_zero_spec in Hz. destruct Hz as [s Hz].
    destruct H as [H|(s1 & s2 & H & _)].
    + rewrite Hz in H. exact (zero_key _ _ Ha H).
    + exact (zero_key _ _ Ha H).
  - destruct H as [H|(s1 & s2 & _ & H)].
    + apply Prim2SF_inj, H.
    + assert (is_zero t = true) by (apply is_zero_spec; eauto). congruence.
Qed.

End Keys.

(** *** Searching the entries *)

Section Search.
Context {T : Type} (f : T -> bool).

Lemma find_first (l : list T) (x : T) :
  In x l -> f x = true -> exists y, find f l = Some y /\ In y l /\ f y = true.
Proof.
  intros Hin Hx. destruct (find f l) as [y|] eqn:E.
  - exists y. apply find_some in E. tauto.
  - rewrite (find_none _ _ E x Hin) in Hx. discriminate.
Qed.

Lemma fold_last (l : list T) : forall m0 : option T,
  let r := fold_left (fun m e => if f e then Some e else m) l m0 in
  (r = m0 /\ forall x, In x l -> f x = false)
  \/ (exists y, r = Some y /\ In y l /\ f y = true).
Proof.
  induction l as [|x l IH]; intros m0; cbn.
  - left. split; [reflexivity|intros ? []].
  - destruct (IH (if f x then Some x else m0)) as [[Hr Hn]|(y & Hr & Hy & Hfy)].
    + destruct (f x) eqn:Hx.
      * right. exists x. split; [exact Hr|]. split; [left; reflexivity|exact Hx].
      * left. split; [exact Hr|]. intros z [<-|Hz]; auto.
    + right. exists y. split; [exact Hr|]. split; [right; exact Hy|exact Hfy].
Qed.

End Search.

Section Flow.
Import DoubleModel.
Variable M : MathLib.
Variable numberToString : float -> jsstring.
Variable toFixed2 : float -> jsstring.
Variable tempUnit : jsstring.

(** The temperatures of the entries: the ambient one, which is 23, and the
    keys of the finite temperatures read from the form. *)
Lemma runCalculation_tempC (p : params (A := DoubleArith M)) (tMinC tNomC tMaxC : float)
  (e : temperatureResult (A := DoubleArith M)) :
  In e (Script.runCalculation p tMinC tNomC tMaxC).(temperatureResults) ->
  e.(tempC) = 23%float
  \/ exists s, In s [tMinC; tNomC; tMaxC] /\ is_finite s = true
               /\ e.(tempC) = float_setKey s.
Proof.
  intros He. apply (in_map tempC) in He. unfold Script.runCalculation in He.
  rewrite TemperatureList.calculateDovetail_temps in He.
  destruct (TemperatureList.tempsFinal_spec (L := Laws.DoubleLaws M) tMinC tNomC tMaxC)
    as (rest & E & _ & _ & Hin).
  rewrite E in He. destruct He as [He|He].
  - left. rewrite <- He. vm_compute. reflexivity.
  - right. apply Hin in He. exact He.
Qed.

Lemma runCalculation_has (p : params (A := DoubleArith M)) (tMinC tNomC tMaxC t : float) :
  t = 23%float
  \/ (exists s, In s [tMinC; tNomC; tMaxC] /\ is_finite s = true /\ t = float_setKey s) ->
  exists e, In e (Script.runCalculation p tMinC tNomC tMaxC).(temperatureResults)
            /\ e.(tempC) = t.
Proof.
  intros Ht.
  assert (H : In t (List.map tempC
                (Script.runCalculation p tMinC tNomC tMaxC).(temperatureResults))).
  { unfold Script.runCalculation. rewrite TemperatureList.calculateDovetail_temps.
    destruct (TemperatureList.tempsFinal_spec (L := Laws.DoubleLaws M) tMinC tNomC tMaxC)
      as (rest & E & _ & _ & Hin).
    rewrite E. destruct Ht as [->|Ht].
    - left. vm_compute. reflexivity.
    - right. apply Hin. exact Ht. }
  apply in_map_iff in H. destruct H as (e & He & Hin). eauto.
Qed.

Lemma tempC_finite (p : params (A := DoubleArith M)) (tMinC tNomC tMaxC : float)
  (e : temperatureResult (A := DoubleArith M)) :
  In e (Script.runCalculation p tMinC tNomC tMaxC).(temperatureResults) ->
  is_finite e.(tempC) = true.
Proof.
  intros He. destruct (runCalculation_tempC _ _ _ _ _ He) as [->|(s & _ & Hs & ->)].
  - reflexivity.
  - rewrite <- Hs. exact (setKey_finite (A := DoubleArith M) (OrderLaws := Laws.DoubleLaws M) s).
Qed.


(** The entry of a finite temperature of the form is found. *)
Lemma found_entry (p : params (A := DoubleArith M)) (tMinC tNomC tMaxC t : float) :
  In t [tMinC; tNomC; tMaxC] -> is_finite t = true ->
  let results := (Script.runCalculation p tMinC tNomC tMaxC).(temperatureResults) in
  exists e,
    List.find (fun e : temperatureResult (A := DoubleArith M) => (e.(tempC) =? t)%float) results
    = Some e
    /\ In e results /\ e.(tempC) = float_setKey t.
Proof.
  intros Hin Hf results.
  destruct (runCalculation_has p tMinC tNomC tMaxC (float_setKey t)) as (e0 & He0 & Ht0).
  { right. exists t. auto. }
  destruct (find_first (fun e : temperatureResult (A := DoubleArith M) => (e.(tempC) =? t)%float)
              results e0 He0) as (e & Hfind & He & Heq).
  { cbn beta. rewrite Ht0. apply key_eqb, Hf. }
  exists e. split; [exact Hfind|]. split; [exact He|].
  apply eqb_key; [|exact Heq].
  destruct (runCalculation_tempC _ _ _ _ _ He) as [H|(s & _ & _ & H)]; eauto.
Qed.

Lemma buildMeta_ambient (p : params (A := DoubleArith M)) (tMinC tNomC tMaxC : float) :
  let out := Script.runCalculation p tMinC tNomC tMaxC in
  exists e,
    (buildMeta M out (AMBIENT (A := DoubleArith M)) tMinC tNomC tMaxC).(ambient) = Some e
    /\ In e out.(temperatureResults) /\ e.(tempC) = 23%float.
Proof.
  intros out. unfold buildMeta. cbn [ambient].
  destruct (runCalculation_has p tMinC tNomC tMaxC 23%float (or_introl eq_refl))
    as (e0 & He0 & Ht0).
  destruct (fold_last
              (fun e : temperatureResult (A := DoubleArith M) =>
                 (e.(tempC) =? AMBIENT (A := DoubleArith M))%float)
              out.(temperatureResults) None) as [[_ Hn]|(e & Hr & He & Heq)].
  - specialize (Hn e0 He0). cbn beta in Hn. rewrite Ht0 in Hn.
    vm_compute in Hn. discriminate.
  - exists e. split; [exact Hr|]. split; [exact He|].
    cbn beta in Heq.
    assert (Hk : e.(tempC) = float_setKey (AMBIENT (A := DoubleArith M))).
    { apply eqb_key; [|exact Heq].
      destruct (runCalculation_tempC _ _ _ _ _ He) as [H|(s & _ & _ & H)]; eauto. }
    rewrite Hk. vm_compute. reflexivity.
Qed.

End Flow.

(** *** The run *)

Section Run.
Import DoubleModel.
Variable M : MathLib.
Variable numberToString : float -> jsstring.
Variable toFixed2 : float -> jsstring.
Variable tempUnit : jsstring.

Lemma convert_finite (v : float) (from to : jsstring) :
  is_finite v = true -> exists w, Script.convert (A := DoubleArith M) v from to = JNum w.
Proof.
  intros Hf. unfold Script.convert. change (@isFinite (DoubleArith M) v) with (is_finite v). rewrite Hf.
  cbn [negb].
  repeat match goal with
  | |- context [if ?c then _ else _] => destruct c
  end; eauto.
Qed.

Lemma toDisp_finite (t : float) :
  is_finite t = true -> exists s, toDisp (A := DoubleArith M) toFixed2 tempUnit t = Some s.
Proof.
  intros Hf. unfold toDisp. destruct (streq tempUnit _); [|eauto].
  destruct (convert_finite t (js "C") (js "F") Hf) as [w ->]. eauto.
Qed.

Lemma addOpCard_finite (name : jsstring) (entry : option (temperatureResult (A := DoubleArith M))) :
  (forall e, entry = Some e -> is_finite e.(tempC) = true) ->
  exists cards, addOpCard (A := DoubleArith M) toFixed2 tempUnit name entry = Some cards.
Proof.
  intros H. unfold addOpCard. destruct entry as [e|]; [|eauto].
  destruct (toDisp_finite e.(tempC) (H e eq_refl)) as [s ->]. eauto.
Qed.

Lemma isValidNumberField_inv (inp : option element) :
  isValidNumberField inp = true ->
  exists el, inp = Some el /\ is_finite (StringToNumber el.(value)) = true.
Proof.
  unfold isValidNumberField. destruct inp as [el|]; [|discriminate].
  destruct (streq _ emptyString); [discriminate|]. intros H.
  exists el. split; [reflexivity|].
  unfold StringToNumber in H |- *. rewrite CatalogRows.trim_idem in H. exact H.
Qed.

Lemma orDefault_usable (n : float) :
  is_finite n = true ->
  is_finite (orDefault M n) = true /\ is_zero (orDefault M n) = false.
Proof.
  intros Hf. unfold orDefault. destruct (is_zero n) eqn:Hz; cbn [orb].
  - split; vm_compute; reflexivity.
  - destruct (is_nan n); [split; vm_compute; reflexivity|]. auto.
Qed.

Lemma found_finite (p : params (A := DoubleArith M)) (tMinC tNomC tMaxC t : float)
  (e : temperatureResult (A := DoubleArith M)) :
  (if is_finite t
   then List.find (fun e : temperatureResult (A := DoubleArith M) =>
                     (e.(tempC) =? t)%float)
          (Script.runCalculation p tMinC tNomC tMaxC).(temperatureResults)
   else None) = Some e ->
  is_finite e.(tempC) = true.
Proof.
  destruct (is_finite t); [|discriminate]. intros H. apply find_some in H.
  exact (tempC_finite M p tMinC tNomC tMaxC e (proj1 H)).
Qed.

Lemma renderResultsGrid_runs (p : params (A := DoubleArith M)) (tMinC tNomC tMaxC s : float) :
  let out := Script.runCalculation p tMinC tNomC tMaxC in
  let meta := buildMeta M out 23%float tMinC tNomC tMaxC in
  exists cards,
    renderResultsGrid (A := DoubleArith M) toFixed2 tempUnit out meta s = Some cards.
Proof.
  intros out meta. unfold renderResultsGrid.
  destruct (addOpCard_finite (js "Min") meta.(min)) as [c1 ->].
  { intros e. apply (found_finite p tMinC tNomC tMaxC tMinC). }
  destruct (addOpCard_finite (js "Nominal") meta.(nominal)) as [c2 ->].
  { intros e. apply (found_finite p tMinC tNomC tMaxC tNomC). }
  destruct (addOpCard_finite (js "Max") meta.(max)) as [c3 ->].
  { intros e. apply (found_finite p tMinC tNomC tMaxC tMaxC). }
  eauto.
Qed.

Lemma mandatory_number (doc : document) (id : jsstring) :
  checkMandatoryStatus doc = true -> In id mandatoryFields ->
  streq id oringMaterialGroup = false ->
  exists el, doc id = Some el /\ is_finite (StringToNumber el.(value)) = true.
Proof.
  intros Hc Hin Hne. apply checkMandatoryStatus_spec in Hc.
  destruct Hc as [_ Hc]. apply isValidNumberField_inv, Hc; assumption.
Qed.

(** What the gate leaves of step 2: the angle and the coefficient are read
    from elements that exist and hold finite Numbers. *)
Lemma gatherParams_enabled (doc : document) :
  checkMandatoryStatus doc = true ->
  exists (elA elB : element),
    doc (js "glandAngle") = Some elA /\ doc (js "alpha") = Some elB
    /\ is_finite (StringToNumber elA.(value)) = true
    /\ is_finite (StringToNumber elB.(value)) = true.
Proof.
  intros Hc.
  destruct (mandatory_number doc (js "glandAngle") Hc) as (elA & HA & HfA);
    [vm_compute; tauto|vm_compute; reflexivity|].
  destruct (mandatory_number doc (js "alpha") Hc) as (elB & HB & HfB);
    [vm_compute; tauto|vm_compute; reflexivity|].
  exists elA, elB. auto.
Qed.

Lemma runCalculation_disabled (doc : document) :
  checkMandatoryStatus doc = false ->
  runCalculation M numberToString toFixed2 tempUnit doc
  = Blocked M (collectPrecalcWarnings doc)
  /\ collectPrecalcWarnings doc <> [].
Proof.
  intros Hc. assert (Hn : collectPrecalcWarnings doc <> []).
  { intros H. apply collectPrecalcWarnings_nil, checkMandatoryStatus_spec in H. congruence. }
  split; [|exact Hn]. unfold runCalculation.
  destruct (collectPrecalcWarnings doc); [congruence|reflexivity].
Qed.

End Run.

(** Every temperature of the form gets its card: whatever the parameters,
    the map of the cards has the ambient entry, whose temperature is 23,
    and for each of the three temperature fields the entry of its
    temperature (as a Set key, -0 being 0) when that is finite, and none
    when it is not. *)
Theorem buildMeta_finds_entries (M : DoubleModel.MathLib)
  (p : params (A := DoubleModel.DoubleArith M)) (tMinC tNomC tMaxC : float) :
  let out := Script.runCalculation p tMinC tNomC tMaxC in
  let meta := buildMeta M out 23%float tMinC tNomC tMaxC in
  (exists e, meta.(ambient) = Some e /\ In e out.(temperatureResults)
             /\ e.(tempC) = 23%float)
  /\ forall (t : float) (entry : option temperatureResult),
       In (t, entry) [(tMinC, meta.(min)); (tNomC, meta.(nominal)); (tMaxC, meta.(max))] ->
       if is_finite t
       then exists e, entry = Some e /\ In e out.(temperatureResults)
                      /\ e.(tempC) = DoubleModel.float_setKey t
       else entry = None.
Proof.
  intros out meta. split; [apply (buildMeta_ambient M p)|].
  intros t entry Hin.
  assert (Ht : In t [tMinC; tNomC; tMaxC]).
  { destruct Hin as [H|[H|[H|[]]]]; injection H as <- _;
      [left|right; left|right; right; left]; reflexivity. }
  assert (He : entry
               = if is_finite t
                 then List.find
                        (fun e : temperatureResult (A := DoubleModel.DoubleArith M) =>
                           (e.(tempC) =? t)%float) out.(temperatureResults)
                 else None).
  { destruct Hin as [H|[H|[H|[]]]]; injection H as <- <-; reflexivity. }
  rewrite He. destruct (is_finite t) eqn:Hf; [|reflexivity].
  destruct (found_entry M p tMinC tNomC tMaxC t Ht Hf) as (e & Hfind & Hine & Hk).
  exists e. auto.
Qed.

(** The Calculate button is enabled exactly when a run would not be
    blocked by the pre-calc warnings. *)
Theorem button_enabled_iff_no_precalc_warnings (doc : document) :
  checkMandatoryStatus doc = true <-> collectPrecalcWarnings doc = [].
Proof.
  rewrite checkMandatoryStatus_spec, collectPrecalcWarnings_nil. reflexivity.
Qed.

(** A run either is blocked, with the pre-calc warnings, when the
    Calculate button is disabled, or, when it is enabled, gathers its
    parameters and goes through to the cards without a TypeError: what it
    shows is the calculation on the parameters gathered in step 2, whose
    angle is the finite Number of the angle field and whose expansion
    coefficient is that of the alpha field, or the default in place of 0;
    both are finite, and the coefficient is not 0. *)
Theorem runCalculation_blocked_or_rendered (M : DoubleModel.MathLib)
  (numberToString toFixed2 : float -> jsstring) (tempUnit : jsstring)
  (doc : document) :
  if checkMandatoryStatus doc
  then
    exists (p : params (A := DoubleModel.DoubleArith M)) (cards : list card)
           (elA elB : element),
      let tMinC := readTempC M doc (js "tempMin") in
      let tNomC := readTempC M doc (js "tempNom") in
      let tMaxC := readTempC M doc (js "tempMax") in
      let out := Script.runCalculation p tMinC tNomC tMaxC in
      let meta := buildMeta M out 23%float tMinC tNomC tMaxC in
      gatherParams M doc = Some p
      /\ runCalculation M numberToString toFixed2 tempUnit doc
         = Rendered M out meta
             (evaluateWarnings (A := DoubleModel.DoubleArith M) numberToString out
              ++ collectNominalCompressionWarning (A := DoubleModel.DoubleArith M)
                   toFixed2 meta.(nominal))
             cards
      /\ renderResultsGrid (A := DoubleModel.DoubleArith M)
           toFixed2 tempUnit out meta out.(stretchPct) = Some cards
      /\ doc (js "glandAngle") = Some elA /\ doc (js "alpha") = Some elB
      /\ p.(angle) = StringToNumber elA.(value)
      /\ p.(alpha) = orDefault M (StringToNumber elB.(value))
      /\ is_finite p.(angle) = true
      /\ is_finite p.(alpha) = true /\ is_zero p.(alpha) = false
  else
    runCalculation M numberToString toFixed2 tempUnit doc
    = Blocked M (collectPrecalcWarnings doc)
    /\ collectPrecalcWarnings doc <> [].
Proof.
  destruct (checkMandatoryStatus doc) eqn:Hc;
    [|apply runCalculation_disabled, Hc].
  destruct (gatherParams_enabled doc Hc) as (elA & elB & HA & HB & HfA & HfB).
  destruct (orDefault_usable M _ HfB) as [Hf0 Hz0].
  assert (Hp : exists p, gatherParams M doc = Some p
                         /\ p.(angle) = StringToNumber elA.(value)
                         /\ p.(alpha) = orDefault M (StringToNumber elB.(value))).
  { unfold gatherParams. rewrite HA, HB. eexists. repeat split. }
  destruct Hp as (p & Hp & Hangle & Halpha).
  pose proof (renderResultsGrid_runs M toFixed2 tempUnit p
                (readTempC M doc (js "tempMin")) (readTempC M doc (js "tempNom"))
                (readTempC M doc (js "tempMax"))
                (Script.runCalculation p
                   (readTempC M doc (js "tempMin")) (readTempC M doc (js "tempNom"))
                   (readTempC M doc (js "tempMax"))).(stretchPct)) as [cards Hcards].
  exists p, cards, elA, elB. cbv zeta in Hcards |- *.
  split; [exact Hp|]. split.
  - unfold runCalculation.
    apply checkMandatoryStatus_spec, collectPrecalcWarnings_nil in Hc.
    rewrite Hc, Hp. cbv zeta.
    change (AMBIENT (A := DoubleModel.DoubleArith M)) with 23%float.
    rewrite Hcards. reflexivity.
  - split; [exact Hcards|]. split; [exact HA|]. split; [exact HB|].
    split; [exact Hangle|]. split; [exact Halpha|].
    rewrite Hangle, Halpha. auto.
Qed.

Section Witnesses.
Import DoubleModel Examples.

Lemma button_enabled_iff_no_precalc_warnings_witness :
  collectPrecalcWarnings exampleForm = [].
Proof.
  apply (proj1 (button_enabled_iff_no_precalc_warnings exampleForm)).
  vm_compute. reflexivity.
Defined.

Lemma buildMeta_finds_entries_witness :
  let out := Script.runCalculation (exampleParams taylorMath) nan nan 100%float in
  let meta := buildMeta taylorMath out 23%float nan nan 100%float in
  exists e, meta.(max) = Some e /\ In e out.(temperatureResults)
            /\ e.(tempC) = float_setKey 100%float.
Proof.
  exact (proj2 (buildMeta_finds_entries taylorMath (exampleParams taylorMath)
                  nan nan 100%float)
           100%float _ (or_intror (or_intror (or_introl eq_refl)))).
Defined.

End Witnesses.
End FormFacts.

(** ** Stored originals *)

Module OriginalFacts.
Import Floats.
Import Strings Script Form Examples.

Lemma trimStart_keeps (s : jsstring) (c : N) :
  In c s -> isWhiteSpace c = false -> In c (trimStart s).
Proof.
  intros Hin Hc. induction s as [|d s IH]; [destruct Hin|].
  cbn. destruct (isWhiteSpace d) eqn:Hd.
  - destruct Hin as [->|Hin]; [congruence|auto].
  - exact Hin.
Qed.

Lemma trim_keeps (s : jsstring) (c : N) :
  In c s -> isWhiteSpace c = false -> In c (trim s).
Proof.
  intros Hin Hc. unfold trim, trimEnd. apply in_rev.
  rewrite rev_involutive. apply trimStart_keeps; [|exact Hc].
  apply in_rev. rewrite rev_involutive. apply trimStart_keeps; assumption.
Qed.

Lemma splitAt_first (sep : N) (a t : jsstring) :
  ~ In sep a -> splitAt sep (a ++ sep :: t) = a :: splitAt sep t.
Proof.
  induction a as [|c a IH]; cbn; intros H.
  - rewrite N.eqb_refl. reflexivity.
  - destruct (N.eqb_spec c sep) as [->|Hne]; [tauto|].
    rewrite IH by tauto. reflexivity.
Qed.

Lemma splitAt_head (sep : N) (b t : jsstring) :
  ~ In sep b -> exists r ps, splitAt sep (b ++ t) = (b ++ r) :: ps.
Proof.
  induction b as [|c b IH]; cbn; intros H.
  - destruct t as [|d t]; cbn; [exists [], []; reflexivity|].
    destruct (d =? sep)%N; [exists [], (splitAt sep t); reflexivity|].
    destruct (splitAt sep t) as [|p ps]; eauto.
  - destruct (N.eqb_spec c sep) as [->|Hne]; [tauto|].
    destruct IH as (r & ps & ->); [tauto|]. eauto.
Qed.

Lemma existsb_point (a t : jsstring) : existsb (N.eqb 46) (a ++ 46%N :: t) = true.
Proof. apply existsb_exists. exists 46%N. split; [apply in_elt|reflexivity]. Qed.

(** Of what is typed, the characters after the third one behind the first
    point are cut off. *)
Lemma limitDecimals_cuts (a b rest : jsstring) :
  ~ In 46%N a -> ~ In 46%N b -> List.length b = 3%nat ->
  limitDecimals (a ++ [46%N] ++ b ++ rest) = a ++ [46%N] ++ b.
Proof.
  intros Ha Hb Hl. unfold limitDecimals. cbn [app].
  rewrite existsb_point, splitAt_first by exact Ha.
  destruct (splitAt_head 46 b rest Hb) as (r & ps & ->).
  rewrite firstn_app, Hl, Nat.sub_diag, <- Hl, firstn_all. cbn [firstn].
  rewrite app_nil_r. reflexivity.
Qed.

Section WithHost.
Variable M : DoubleModel.MathLib.
Variable numberToString : float -> jsstring.
Variable unit tempUnit : jsstring.

Lemma C_not_F : streq (js "C") (js "F") = false.
Proof. reflexivity. Qed.

Lemma convert_to_same (v : float) (u : jsstring) :
  streq u (js "F") = false ->
  Script.convert (A := DoubleModel.DoubleArith M) v u (js "C")
  = if is_finite v then JNum v else JStr emptyString.
Proof.
  intros Hu. unfold Script.convert. change (@isFinite (DoubleModel.DoubleArith M) v) with (is_finite v).
  destruct (is_finite v); [|reflexivity]. cbn [negb].
  destruct (streq u (js "C")) eqn:E; [reflexivity|].
  change (streq (js "C") (js "mm")) with false.
  change (streq (js "C") (js "in")) with false.
  change (streq (js "C") (js "F")) with false.
  rewrite Hu, !andb_false_r. reflexivity.
Qed.

Lemma readTempC_unfold (doc : document) (id : jsstring) (inp : element)
  (ov : jsstring) :
  doc id = Some inp -> inp.(originalValue) = Some ov -> ov <> [] ->
  readTempC M doc id
  = match Script.convert (A := DoubleModel.DoubleArith M) (StringToNumber ov)
            (orElse inp.(originalUnit) (js "C")) (js "C") with
    | JNum c => if is_finite c then c else nan
    | JStr _ => nan
    end.
Proof.
  intros Hd Hov Hne. unfold readTempC. rewrite Hd, Hov.
  destruct ov; [congruence|reflexivity].
Qed.

Lemma readTempC_not_F (doc : document) (id : jsstring) (inp : element)
  (ov : jsstring) :
  doc id = Some inp -> inp.(originalValue) = Some ov -> ov <> [] ->
  streq (orElse inp.(originalUnit) (js "C")) (js "F") = false ->
  readTempC M doc id
  = if is_finite (StringToNumber ov) then StringToNumber ov else nan.
Proof.
  intros Hd Hov Hne Hu. rewrite (readTempC_unfold doc id inp ov) by assumption.
  rewrite convert_to_same by exact Hu.
  destruct (is_finite (StringToNumber ov)) eqn:E; [rewrite E|]; reflexivity.
Qed.

Lemma normalizeTempOriginal_cases (inp : element) :
  normalizeTempOriginal M numberToString inp = inp
  \/ exists ov',
       normalizeTempOriginal M numberToString inp
       = {| value := inp.(value); originalValue := Some ov';
            originalUnit := Some (js "C"); tempField := inp.(tempField) |}.
Proof.
  unfold normalizeTempOriginal.
  destruct inp.(originalValue) as [[|c0 ov]|]; auto.
  destruct (match inp.(originalUnit) with Some ou => streq ou (js "F") | None => false end).
  - destruct (Script.convert _ _ _) as [c|s]; auto.
    destruct (is_finite c); eauto.
  - destruct (match inp.(originalUnit) with
              | Some ou => negb (streq ou (js "C")) | None => true end); eauto.
Qed.

Lemma normalizeTempOriginal_fixed (v ov : jsstring) (tf : bool) :
  let inp := {| value := v; originalValue := Some ov;
                originalUnit := Some (js "C"); tempField := tf |} in
  normalizeTempOriginal M numberToString inp = inp.
Proof.
  intros inp. unfold normalizeTempOriginal. cbn [originalValue originalUnit inp].
  destruct ov; reflexivity.
Qed.

Lemma normalizeTempOriginal_idem (inp : element) :
  normalizeTempOriginal M numberToString
    (normalizeTempOriginal M numberToString inp)
  = normalizeTempOriginal M numberToString inp.
Proof.
  destruct (normalizeTempOriginal_cases inp) as [H|[ov' H]].
  - rewrite !H. reflexivity.
  - rewrite H. apply normalizeTempOriginal_fixed.
Qed.

Lemma normalize_keeps_readTempC (doc : document) (id : jsstring) :
  (forall inp ov c,
     doc id = Some inp -> inp.(originalValue) = Some ov ->
     inp.(originalUnit) = Some (js "F") ->
     Script.convert (A := DoubleModel.DoubleArith M) (StringToNumber ov) (js "F") (js "C") = JNum c ->
     is_finite c = true ->
     numberToString c <> emptyString /\ StringToNumber (numberToString c) = c) ->
  readTempC M (normalizeTempOriginalsToC M numberToString doc) id
  = readTempC M doc id.
Proof.
  intros Hround.
  destruct (doc id) as [inp|] eqn:Hd;
    [|unfold readTempC, normalizeTempOriginalsToC; rewrite Hd; reflexivity].
  destruct inp.(tempField) eqn:Ht;
    [|unfold readTempC, normalizeTempOriginalsToC; rewrite Hd, Ht; reflexivity].
  destruct inp.(originalValue) as [[|c0 ov]|] eqn:Hov;
    try (unfold readTempC, normalizeTempOriginalsToC, normalizeTempOriginal;
         rewrite Hd, Ht, Hov; cbn; rewrite Hov; reflexivity).
  assert (Hn : normalizeTempOriginalsToC M numberToString doc id
               = Some (normalizeTempOriginal M numberToString inp)).
  { unfold normalizeTempOriginalsToC. rewrite Hd, Ht. reflexivity. }
  unfold normalizeTempOriginal in Hn. rewrite Hov in Hn.
  destruct inp.(originalUnit) as [ou|] eqn:Hou.
  - destruct (streq ou (js "F")) eqn:HF.
    + apply Units.streq_eq in HF. subst ou.
      destruct (Script.convert _ _ _) as [c|s] eqn:Hc.
      * destruct (is_finite c) eqn:Hf.
        -- destruct (Hround inp _ c eq_refl Hov Hou Hc Hf) as [Hne Hback].
           rewrite (readTempC_not_F _ id _ (numberToString c) Hn eq_refl Hne eq_refl).
           rewrite Hback, Hf.
           rewrite (readTempC_unfold doc id inp (c0 :: ov) Hd Hov) by discriminate.
           rewrite Hou.
           change (orElse (Some (js "F")) (js "C")) with (js "F").
           rewrite Hc, Hf. reflexivity.
        -- unfold readTempC. rewrite Hn, Hd. reflexivity.
      * unfold readTempC. rewrite Hn, Hd. reflexivity.
    + destruct (streq ou (js "C")) eqn:HC; cbn [negb] in Hn.
      * unfold readTempC. rewrite Hn, Hd. reflexivity.
      * rewrite (readTempC_not_F _ id _ (c0 :: ov) Hn eq_refl) by (discriminate || reflexivity).
        rewrite (readTempC_not_F doc id inp (c0 :: ov) Hd Hov); [reflexivity|discriminate|].
        rewrite Hou. destruct ou; [reflexivity|exact HF].
  - cbn [negb] in Hn.
    rewrite (readTempC_not_F _ id _ (c0 :: ov) Hn eq_refl) by (discriminate || reflexivity).
    rewrite (readTempC_not_F doc id inp (c0 :: ov) Hd Hov); [reflexivity|discriminate|].
    rewrite Hou. reflexivity.
Qed.

End WithHost.

(** What is typed behind the third decimal never reaches the calculation:
    for every numeric field but the expansion coefficient, the listener of
    the input stores the same original whatever follows the third character
    after the first point, further digits or an exponent. *)
Theorem onInput_ignores_beyond_third_decimal (M : DoubleModel.MathLib)
  (numberToString : float -> jsstring) (unit tempUnit id : jsstring)
  (inp : element) (a b rest : jsstring) :
  streq id (js "alpha") = false ->
  ~ In 46%N a -> ~ In 46%N b -> List.length b = 3%nat ->
  let stored raw := onInput M numberToString unit tempUnit id (typed inp raw) in
  (stored (a ++ [46%N] ++ b ++ rest)).(originalValue)
  = (stored (a ++ [46%N] ++ b)).(originalValue)
  /\ (stored (a ++ [46%N] ++ b ++ rest)).(originalUnit)
     = (stored (a ++ [46%N] ++ b)).(originalUnit).
Proof.
  intros Hid Ha Hb Hl stored. subst stored. unfold onInput. cbn [value typed].
  assert (Hblank : forall t, streq (trim (a ++ [46%N] ++ t)) emptyString = false).
  { intros t. apply Units.streq_neq. intros E.
    assert (Hin : In 46%N (trim (a ++ [46%N] ++ t)))
      by (apply trim_keeps; [apply in_elt|reflexivity]).
    rewrite E in Hin. destruct Hin. }
  rewrite (Hblank (b ++ rest)), (Hblank b), Hid.
  rewrite limitDecimals_cuts by assumption.
  pose proof (limitDecimals_cuts a b [] Ha Hb Hl) as E0.
  rewrite app_nil_r in E0. rewrite E0.
  destruct (is_finite (StringToNumber (a ++ [46%N] ++ b))); cbn [negb];
    [|split; reflexivity].
  destruct (isTempId id); [|split; reflexivity].
  unfold getInputUnit. cbn [tempField typed].
  destruct (convert _ _ _) as [c|s]; [|split; reflexivity].
  destruct (is_finite c); split; reflexivity.
Qed.

(** Normalizing the saved temperatures to °C changes no temperature that
    the calculation reads, as long as the Number that a Fahrenheit original
    converts to is read back from its string; and normalizing twice is
    normalizing once. *)
Theorem normalizeTempOriginalsToC_keeps_temperatures (M : DoubleModel.MathLib)
  (numberToString : float -> jsstring) (doc : document) (id : jsstring) :
  (forall inp ov c,
     doc id = Some inp -> inp.(originalValue) = Some ov ->
     inp.(originalUnit) = Some (js "F") ->
     Script.convert (A := DoubleModel.DoubleArith M) (StringToNumber ov) (js "F") (js "C")
     = JNum c ->
     is_finite c = true ->
     numberToString c <> emptyString /\ StringToNumber (numberToString c) = c) ->
  readTempC M (normalizeTempOriginalsToC M numberToString doc) id = readTempC M doc id
  /\ forall inp,
       normalizeTempOriginal M numberToString (normalizeTempOriginal M numberToString inp)
       = normalizeTempOriginal M numberToString inp.
Proof.
  intros H. split.
  - apply normalize_keeps_readTempC, H.
  - apply normalizeTempOriginal_idem.
Qed.

Section Witnesses.
Import DoubleModel.

Lemma onInput_ignores_beyond_third_decimal_witness :
  let stored raw :=
    onInput taylorMath (fun _ => js "1.234") (js "mm") (js "°C") (js "glandWidth")
      (typed (field emptyString emptyString) raw) in
  (stored (js "1.2345e5")).(originalValue) = (stored (js "1.234")).(originalValue)
  /\ (stored (js "1.2345e5")).(originalUnit) = (stored (js "1.234")).(originalUnit).
Proof.
  apply (onInput_ignores_beyond_third_decimal taylorMath (fun _ => js "1.234")
           (js "mm") (js "°C") (js "glandWidth") (field emptyString emptyString)
           (js "1") (js "234") (js "5e5")).
  - reflexivity.
  - vm_compute. intuition discriminate.
  - vm_compute. intuition discriminate.
  - reflexivity.
Defined.

Lemma boiling_point :
  Script.convert (A := DoubleArith taylorMath) (StringToNumber (js "212")) (js "F") (js "C")
  = JNum 100%float.
Proof. reflexivity. Qed.

Lemma normalizeTempOriginalsToC_keeps_temperatures_witness :
  readTempC taylorMath
    (normalizeTempOriginalsToC taylorMath (fun _ => js "100") exampleForm) (js "tempMax")
  = readTempC taylorMath exampleForm (js "tempMax").
Proof.
  apply (normalizeTempOriginalsToC_keeps_temperatures taylorMath (fun _ => js "100")
           exampleForm (js "tempMax")).
  intros inp ov c Hd Hov _ Hc _.
  change (exampleForm (js "tempMax")) with (Some (savedTemperature (js "212") (js "F")))
    in Hd.
  injection Hd as <-. cbn [originalValue savedTemperature] in Hov. injection Hov as <-.
  rewrite boiling_point in Hc. injection Hc as <-.
  split; [discriminate|vm_compute; reflexivity].
Defined.

End Witnesses.
End OriginalFacts.

(** ** Advisory hints *)

Module AdvisoryFacts.
Import Floats.
Import Strings Form Advisory Examples.

Lemma not_below_neg_infinity (n : float) : (n <? neg_infinity)%float = false.
Proof.
  rewrite ltb_spec. change (Prim2SF neg_infinity) with (S754_infinity true).
  destruct (Prim2SF n) as [s|s| |s m e]; try destruct s; reflexivity.
Qed.

Ltac evaluate t := let v := eval vm_compute in t in change t with v.

Ltac hints_of id :=
  match goal with
  | |- context [HINTS ?i] => evaluate (HINTS i)
  end.

Lemma advisoryCheck_numeric (doc : document) (id : jsstring) (el : element)
  (cfg : hint) :
  HINTS id = Some cfg -> doc id = Some el ->
  trim el.(value) <> emptyString ->
  is_finite (StringToNumber (trim el.(value))) = true ->
  let n := StringToNumber (trim el.(value)) in
  advisoryCheck doc id
  = if below n cfg.(min)
    then Some (Invalid (orElse cfg.(msg) (js "Please enter a numeric value.")))
    else if above n cfg.(max)
    then Some (Invalid (orElse cfg.(msg) (js "Please enter a numeric value.")))
    else if below n cfg.(warnMin)
    then Some (Warn (orElse cfg.(msg) (js "Please verify.")))
    else Some Hidden.
Proof.
  intros Hc Hd Hb Hf n. subst n. unfold advisoryCheck. rewrite Hc, Hd.
  rewrite (Units.streq_neq _ _ Hb), Hf. reflexivity.
Qed.

Lemma isTempId_inv (id : jsstring) :
  isTempId id = true -> id = js "tempMin" \/ id = js "tempNom" \/ id = js "tempMax".
Proof.
  unfold isTempId. rewrite !orb_true_iff, !Units.streq_eq. tauto.
Qed.


(** What the advisory check does with a numeric entry: a size is never
    an error, it gets a warning when it is negative; the angle is an error
    outside -180 to 180 and the expansion coefficient when it is negative;
    a temperature never gets a hint. *)
Theorem advisoryCheck_numeric_entry (doc : document) (id : jsstring) (el : element) :
  doc id = Some el ->
  trim el.(value) <> emptyString ->
  is_finite (StringToNumber (trim el.(value))) = true ->
  let n := StringToNumber (trim el.(value)) in
  (In id sizeFields ->
   exists text,
     advisoryCheck doc id = Some (if (n <? 0)%float then Warn text else Hidden))
  /\ (id = js "glandAngle" ->
      exists text,
        advisoryCheck doc id
        = Some (if (n <? -180)%float || (180 <? n)%float
                then Invalid text else Hidden))
  /\ (id = js "alpha" ->
      exists text,
        advisoryCheck doc id = Some (if (n <? 0)%float then Invalid text else Hidden))
  /\ (isTempId id = true -> advisoryCheck doc id = Some Hidden).
Proof.
  intros Hd Hb Hf n.
  assert (Hsize : forall text, HINTS id = Some (sizeHint text) ->
            exists text,
              advisoryCheck doc id = Some (if (n <? 0)%float then Warn text else Hidden)).
  { intros text Hc. rewrite (advisoryCheck_numeric doc id el _ Hc Hd Hb Hf).
    fold n. cbn [sizeHint min max warnMin msg below above].
    rewrite not_below_neg_infinity.
    exists (orElse (Some text) (js "Please verify.")).
    destruct (n <? 0)%float; reflexivity. }
  split; [|split; [|split]].
  - intros Hin. cbn in Hin.
    repeat (destruct Hin as [<-|Hin]; [eapply Hsize; reflexivity|]). destruct Hin.
  - intros ->. erewrite (advisoryCheck_numeric doc (js "glandAngle") el _ eq_refl Hd Hb Hf).
    fold n. cbn [min max warnMin msg below above].
    eexists. destruct (n <? -180)%float; [reflexivity|].
    destruct (180 <? n)%float; reflexivity.
  - intros ->. erewrite (advisoryCheck_numeric doc (js "alpha") el _ eq_refl Hd Hb Hf).
    fold n. cbn [min max warnMin msg below above].
    eexists. destruct (n <? 0)%float; reflexivity.
  - intros Ht. apply isTempId_inv in Ht.
    destruct Ht as [->|[->| ->]];
      [erewrite (advisoryCheck_numeric doc (js "tempMin") el _ eq_refl Hd Hb Hf)
      |erewrite (advisoryCheck_numeric doc (js "tempNom") el _ eq_refl Hd Hb Hf)
      |erewrite (advisoryCheck_numeric doc (js "tempMax") el _ eq_refl Hd Hb Hf)];
      reflexivity.
Qed.

Lemma advisoryCheck_numeric_entry_witness :
  exists text,
    advisoryCheck exampleForm (js "glandWidth")
    = Some (if (StringToNumber (trim (js "2.5")) <? 0)%float then Warn text else Hidden).
Proof.
  apply (proj1 (advisoryCheck_numeric_entry exampleForm (js "glandWidth")
                  (field (js "2.5") (js "mm")) eq_refl
                  ltac:(vm_compute; discriminate) ltac:(vm_compute; reflexivity))).
  vm_compute. tauto.
Defined.

End AdvisoryFacts.

(** ** The calculation in exact arithmetic *)

Module Physics.
Import Script RealModel RealFacts Examples.
Local Open Scope R_scope.

Lemma Rleb_scale (k h : R) : 0 < k -> Rleb (k * h) 0 = Rleb h 0.
Proof.
  intros Hk. destruct (Rleb h 0) eqn:E.
  - apply Rleb_true in E. apply Rleb_true. nra.
  - apply Rleb_false in E. apply Rleb_false. nra.
Qed.

Lemma circularSegmentArea_scale (k r angle : R) :
  0 < k -> circularSegmentArea (k * r) angle = k * k * circularSegmentArea r angle.
Proof.
  intros Hk. rewrite !circularSegmentArea_unfold. cbv zeta.
  set (c := cos (halfAngle angle)).
  replace (k * r * (1 - c)) with (k * (r * (1 - c))) by ring.
  rewrite Rleb_scale by exact Hk.
  destruct (Rleb (r * (1 - c)) 0) eqn:E; [ring|].
  apply Rleb_false in E.
  assert (Hr : r <> 0) by (intros ->; lra).
  replace ((k * r - k * (r * (1 - c))) / (k * r)) with ((r - r * (1 - c)) / r)
    by (field; split; lra).
  replace (2 * (k * r) * (k * (r * (1 - c))) - k * (r * (1 - c)) * (k * (r * (1 - c))))
    with ((k * k) * (2 * r * (r * (1 - c)) - r * (1 - c) * (r * (1 - c)))) by ring.
  rewrite sqrt_mult_alt by nra. rewrite sqrt_square by lra. ring.
Qed.

Lemma dovetailCrossSection_unfold (gw gd ang rTop rBottom gap : R) :
  dovetailCrossSection gw gd ang rTop rBottom gap
  = 5 / 10 * (gw + (gw + 2 * (gd / tan (ang * Rtrigo1.PI / 180)))) * gd
    + 2 * circularSegmentArea rTop ang - 2 * circularSegmentArea rBottom ang
    + (gw + 2 * rTop) * gap.
Proof.
  unfold dovetailCrossSection, Script.dovetailCrossSection, Script.PI.
  unfold circularSegmentArea. real_arith. reflexivity.
Qed.

Lemma dovetailCrossSection_scale (k gw gd ang rTop rBottom gap : R) :
  0 < k ->
  dovetailCrossSection (k * gw) (k * gd) ang (k * rTop) (k * rBottom) (k * gap)
  = k * k * dovetailCrossSection gw gd ang rTop rBottom gap.
Proof.
  intros Hk. rewrite !dovetailCrossSection_unfold.
  rewrite !circularSegmentArea_scale by exact Hk. unfold Rdiv. ring.
Qed.


Lemma calculateDovetail_real (p : params (A := RealArith)) (tempsList : list R) :
  calculateDovetail p tempsList
  = Build_calculation (A := RealArith)
      ((p.(centerline) - (p.(id) + p.(cs))) / (p.(id) + p.(cs)) * 100)%R
      (dovetailCrossSection p.(gw) p.(gd) p.(angle) p.(rTop) p.(rBottom) p.(gap)
       * Rtrigo1.PI * p.(centerline))%R
      (List.map (entryAt p)
         match tempsList with [] => [23] | _ :: _ => tempsList end).
Proof.
  unfold calculateDovetail, Script.calculateDovetail, entryAt, AMBIENT, Script.PI.
  unfold dovetailCrossSection. real_arith.
  reflexivity.
Qed.

Lemma quotient_scale (k a b : R) : k <> 0 -> (k * a) / (k * b) = a / b.
Proof.
  intros Hk. unfold Rdiv. rewrite Rinv_mult. generalize (/ b). intros i.
  field. exact Hk.
Qed.

Lemma entryAt_scale (k : R) (p : params (A := RealArith)) (t : R) :
  0 < k -> entryAt (scaleLengths k p) t = entryAt p t.
Proof.
  intros Hk. unfold entryAt, scaleLengths.
  cbn [cs id gw gd angle rTop rBottom gap centerline alpha].
  rewrite dovetailCrossSection_scale by exact Hk.
  generalize (dovetailCrossSection (gw p) (gd p) (angle p) (rTop p) (rBottom p) (gap p)).
  intros X.
  f_equal.
  - f_equal. f_equal. rewrite Rmult_assoc. apply quotient_scale. lra.
  - f_equal.
    replace (k * k * X * Rtrigo1.PI * (k * centerline p))
      with ((k * k * k) * (X * Rtrigo1.PI * centerline p)) by ring.
    match goal with
    | |- ?n / _ = ?m / _ => replace n with ((k * k * k) * m) by field
    end.
    apply quotient_scale, Rgt_not_eq.
    repeat apply Rmult_lt_0_compat; exact Hk.
Qed.

(** The percentages do not depend on the unit of length: with every
    length of the parameters in another unit, [k] of it to one of the old,
    as 25.4 from inches to millimetres, the calculation in exact arithmetic
    gives the same stretch and the same entries, compression and gland
    fill, and a gland volume that is [k] cubed times the old. *)
Theorem percentages_independent_of_length_unit (k : R)
  (p : params (A := RealArith)) (tempsList : list R) :
  0 < k ->
  let out := calculateDovetail p tempsList in
  let out' := calculateDovetail (scaleLengths k p) tempsList in
  out'.(stretchPct) = out.(stretchPct)
  /\ out'.(temperatureResults) = out.(temperatureResults)
  /\ out'.(glandVolume) = k * k * k * out.(glandVolume).
Proof.
  intros Hk out out'. subst out out'. rewrite !calculateDovetail_real.
  cbn [stretchPct temperatureResults glandVolume].
  change (@num RealArith) with R.
  split; [|split].
  - unfold scaleLengths. cbn [cs id centerline]. f_equal.
    replace (k * centerline p - (k * id p + k * cs p))
      with (k * (centerline p - (id p + cs p))) by ring.
    replace (k * id p + k * cs p) with (k * (id p + cs p)) by ring.
    apply quotient_scale. lra.
  - apply map_ext. intros t. apply entryAt_scale, Hk.
  - unfold scaleLengths. cbn [gw gd angle rTop rBottom gap centerline].
    rewrite dovetailCrossSection_scale by exact Hk. ring.
Qed.

Lemma percentages_independent_of_length_unit_witness :
  let out := calculateDovetail exampleParams [] in
  let out' := calculateDovetail (scaleLengths (254 / 10) exampleParams) [] in
  out'.(stretchPct) = out.(stretchPct)
  /\ out'.(temperatureResults) = out.(temperatureResults)
  /\ out'.(glandVolume) = 254 / 10 * (254 / 10) * (254 / 10) * out.(glandVolume).
Proof.
  apply (percentages_independent_of_length_unit (254 / 10) exampleParams []). lra.
Defined.

(** A hotter O-ring is tighter and fills more of its gland: with an
    expansion coefficient that is not negative, of two entries of a
    calculation the one at the higher temperature has the higher
    compression, as long as the expanded cross-section is positive, and the
    higher gland fill, as long as the volume of the gland is positive. *)
Theorem hotter_is_tighter (p : params (A := RealArith)) (tempsList : list R)
  (e1 e2 : temperatureResult) :
  let out := calculateDovetail p tempsList in
  In e1 out.(temperatureResults) -> In e2 out.(temperatureResults) ->
  0 <= p.(alpha) -> 0 < p.(cs) -> 0 <= p.(gd) -> 0 <= p.(id) ->
  0 < 1 + p.(alpha) * (e1.(tempC) - 23) ->
  0 < out.(glandVolume) ->
  e1.(tempC) <= e2.(tempC) ->
  e1.(compressionPct) <= e2.(compressionPct)
  /\ e1.(glandFillPct) <= e2.(glandFillPct).
Proof.
  intros out. subst out. rewrite calculateDovetail_real.
  cbn [temperatureResults glandVolume].
  intros H1 H2 Ha Hcs Hgd Hid Hpos HG Ht.
  apply in_map_iff in H1, H2.
  destruct H1 as (t1 & <- & _). destruct H2 as (t2 & <- & _).
  unfold entryAt in *. cbn [tempC compressionPct glandFillPct] in *.
  change (@num RealArith) with R in *.
  set (G := dovetailCrossSection _ _ _ _ _ _ * Rtrigo1.PI * p.(centerline)) in *.
  assert (Hd1 : 0 < cs p * (1 + alpha p * (t1 - 23))) by nra.
  assert (Hat : 0 <= alpha p * (t2 - t1)) by (apply Rmult_le_pos; lra).
  assert (Hle : cs p * (1 + alpha p * (t1 - 23)) <= cs p * (1 + alpha p * (t2 - 23))).
  { apply Rmult_le_compat_l; lra. }
  split.
  - apply Rmult_le_compat_r; [lra|].
    apply Rplus_le_compat_l, Ropp_le_contravar.
    unfold Rdiv. apply Rmult_le_compat_l; [exact Hgd|].
    apply Rinv_le_contravar; assumption.
  - apply Rmult_le_compat_r; [lra|].
    unfold Rdiv. apply Rmult_le_compat_r; [left; apply Rinv_0_lt_compat, HG|].
    pose proof PI_RGT_0 as Hpi.
    assert (HV : 0 <= 2 * Rtrigo1.PI * Rtrigo1.PI * (cs p / 2) * (cs p / 2) * ((id p + cs p) / 2)).
    { assert (H2 : 0 <= cs p / 2) by lra.
      assert (H3 : 0 <= (id p + cs p) / 2) by lra.
      apply Rmult_le_pos; [|exact H3]. apply Rmult_le_pos; [|exact H2].
      apply Rmult_le_pos; [|exact H2]. apply Rmult_le_pos; lra. }
    apply Rmult_le_compat_l; [exact HV|]. lra.
Qed.

Lemma hotter_is_tighter_witness :
  let out := calculateDovetail exampleParams [23; 100] in
  (entryAt exampleParams 23).(compressionPct)
  <= (entryAt exampleParams 100).(compressionPct)
  /\ (entryAt exampleParams 23).(glandFillPct)
     <= (entryAt exampleParams 100).(glandFillPct).
Proof.
  intros out.
  assert (Hout : out.(temperatureResults)
                 = [entryAt exampleParams 23; entryAt exampleParams 100])
    by (unfold out; rewrite calculateDovetail_real; reflexivity).
  apply (hotter_is_tighter exampleParams [23; 100]); fold out;
    rewrite ?Hout; cbn [In exampleParams alpha cs gd id tempC entryAt]; try lra;
    try tauto.
  unfold out. rewrite calculateDovetail_real. cbn [glandVolume].
  apply Rmult_lt_0_compat;
    [apply Rmult_lt_0_compat; [exact Thermal.exampleCrossArea_pos|apply PI_RGT_0]|].
  cbn. lra.
Defined.


(** The warnings of the stretch compare the centerline of the gland with
    the mean diameter of the O-ring, [id + cs]: the O-ring is reported loose
    exactly when the centerline is shorter, and stretched too far exactly
    when the centerline is more than 5% longer. *)
Theorem stretch_warnings_compare_centerline (numberToString : R -> jsstring)
  (p : params (A := RealArith)) (tempsList : list R) :
  0 < p.(id) + p.(cs) ->
  let warn := evaluateWarnings numberToString (calculateDovetail p tempsList) in
  (In stretchLoose warn <-> p.(centerline) < p.(id) + p.(cs))
  /\ (In stretchExceeds warn <-> 105 / 100 * (p.(id) + p.(cs)) < p.(centerline)).
Proof.
  intros Hd warn. subst warn.
  rewrite (Warnings.stretch_message_In (A := RealArith) numberToString _ stretchLoose)
    by (left; reflexivity).
  rewrite (Warnings.stretch_message_In (A := RealArith) numberToString _ stretchExceeds)
    by (right; reflexivity).
  rewrite calculateDovetail_real. cbn [stretchPct].
  set (c := p.(centerline)) in *. set (d := (p.(id) + p.(cs))%R) in *.
  assert (H0 : (c - d) / d * 100 < 0 <-> c < d).
  { split; intros H.
    - assert (H' : (c - d) / d < 0) by lra.
      apply (Rmult_lt_compat_r d) in H'; [|exact Hd].
      unfold Rdiv in H'. rewrite Rmult_assoc, Rinv_l in H' by lra. lra.
    - assert (H' : (c - d) / d < 0); [|lra].
      apply (Rmult_lt_reg_r d); [exact Hd|].
      unfold Rdiv. rewrite Rmult_assoc, Rinv_l by lra. lra. }
  assert (H5 : 5 < (c - d) / d * 100 <-> 105 / 100 * d < c).
  { split; intros H.
    - assert (H' : 5 / 100 < (c - d) / d) by lra.
      apply (Rmult_lt_compat_r d) in H'; [|exact Hd].
      unfold Rdiv in H'. rewrite (Rmult_assoc (c - d)), Rinv_l in H' by lra. lra.
    - assert (H' : 5 / 100 < (c - d) / d); [|lra].
      apply (Rmult_lt_reg_r d); [exact Hd|].
      unfold Rdiv. rewrite (Rmult_assoc (c - d)), Rinv_l by lra. lra. }
  change (@ltb RealArith) with Rltb. change (@lit RealArith) with Q2R.
  replace (Q2R 0) with 0 by (unfold Q2R; cbn; lra).
  replace (Q2R 5) with 5 by (unfold Q2R; cbn; lra).
  pose proof Warnings.stretch_messages_differ as Hne.
  destruct (Rltb ((c - d) / d * 100) 0) eqn:E0;
    [apply Rltb_true in E0|apply Rltb_false in E0];
    (destruct (Rltb 5 ((c - d) / d * 100)) eqn:E5;
     [apply Rltb_true in E5|apply Rltb_false in E5]);
    cbn [In]; split; split; intros H; try tauto; try lra;
    try (destruct H as [H|[]]; congruence);
    try (left; reflexivity);
    try (exfalso; lra).
Qed.

Lemma stretch_warnings_compare_centerline_witness :
  let warn := evaluateWarnings (fun _ => js "23") (calculateDovetail exampleParams []) in
  (In stretchLoose warn <-> 52 < 50 + 2)
  /\ (In stretchExceeds warn <-> 105 / 100 * (50 + 2) < 52).
Proof.
  apply (stretch_warnings_compare_centerline (fun _ => js "23") exampleParams []).
  cbn. lra.
Defined.

Lemma ambient_entry_real (p : params (A := RealArith))
  (tempsList : list R) (e : temperatureResult) :
  let out := calculateDovetail p tempsList in
  In e out.(temperatureResults) -> e.(tempC) = 23 ->
  e.(compressionPct) = (1 - p.(gd) / p.(cs)) * 100
  /\ e.(glandFillPct)
     = 2 * Rtrigo1.PI * Rtrigo1.PI * (p.(cs) / 2) * (p.(cs) / 2)
       * ((p.(id) + p.(cs)) / 2) / out.(glandVolume) * 100.
Proof.
  intros out. subst out. rewrite calculateDovetail_real.
  cbn [temperatureResults glandVolume]. intros He Ht.
  apply in_map_iff in He. destruct He as (t & <- & _).
  unfold entryAt in *. cbn [tempC compressionPct glandFillPct] in *. subst t.
  change (@num RealArith) with R.
  replace (23 - 23) with 0 by ring. rewrite !Rmult_0_r, !Rplus_0_r, !Rmult_1_r.
  split; reflexivity.
Qed.

(** [convert] keeps the order of the values, whatever the units: of two
    values, the larger one converts to the larger Number. *)
Theorem convert_preserves_order (v1 v2 : R) (from to : jsstring) :
  v1 < v2 ->
  exists w1 w2 : R,
    convert v1 from to = JNum w1 /\ convert v2 from to = JNum w2 /\ w1 < w2.
Proof.
  intros Hv. unfold convert, Script.convert, IN_TO_MM.
  change (@isFinite RealArith ?x) with true. cbn [negb].
  repeat match goal with
  | |- context [if ?c then _ else _] => destruct c
  end; eexists _, _; (split; [reflexivity|split; [reflexivity|]]);
    try exact Hv; real_arith; lra.
Qed.

Lemma convert_preserves_order_witness :
  exists w1 w2 : R,
    convert 32 (js "F") (js "C") = JNum w1
    /\ convert 212 (js "F") (js "C") = JNum w2 /\ w1 < w2.
Proof. apply convert_preserves_order. lra. Defined.

End Physics.

(** ** Results that are Numbers *)

Module NumberFacts.
Import Floats.
Import DoubleModel DoubleFacts SpecFloatFacts NumberVocabulary.
Local Open Scope Z_scope.

(** *** Rounding gives no NaN *)

Lemma shr_m_iter_nonneg (n : positive) (mrs : shr_record) :
  0 <= shr_m mrs -> 0 <= shr_m (iter_pos shr_1 n mrs).
Proof.
  intros H. rewrite shr_m_iter by exact H.
  apply Z.div_pos; [exact H|]. apply Z.pow_pos_nonneg; lia.
Qed.

Lemma shr_fexp_nonneg (m e : Z) (l : location) :
  0 <= m -> 0 <= shr_m (fst (shr_fexp prec emax m e l)).
Proof.
  intros Hm. unfold shr_fexp, shr.
  destruct (fexp prec emax (Zdigits2 m + e) - e) as [|q|q]; cbn [fst];
    try (rewrite shr_record_of_loc_m; exact Hm).
  apply shr_m_iter_nonneg. rewrite shr_record_of_loc_m. exact Hm.
Qed.

Lemma round_nearest_even_nonneg (m : Z) (l : location) :
  0 <= m -> 0 <= round_nearest_even m l.
Proof.
  intros Hm. destruct l as [|[]]; cbn; try lia. destruct (Z.even m); lia.
Qed.

Lemma binary_round_aux_not_nan (s : bool) (m e : Z) (l : location) :
  0 <= m -> binary_round_aux prec emax s m e l <> S754_nan.
Proof.
  intros Hm. unfold binary_round_aux.
  pose proof (shr_fexp_nonneg m e l Hm) as H1.
  destruct (shr_fexp prec emax m e l) as [mrs' e']. cbn [fst] in H1.
  pose proof (round_nearest_even_nonneg _ (loc_of_shr_record mrs') H1) as H2.
  pose proof (shr_fexp_nonneg _ e' loc_Exact H2) as H3.
  destruct (shr_fexp prec emax _ e' loc_Exact) as [mrs'' e'']. cbn [fst] in H3.
  destruct (shr_m mrs'') as [|p|p]; try lia; try discriminate.
  destruct (e'' <=? emax - prec); discriminate.
Qed.

Lemma binary_round_not_nan (s : bool) (m : positive) (e : Z) :
  binary_round prec emax s m e <> S754_nan.
Proof.
  unfold binary_round. destruct (shl_align m e _) as [mz ez].
  apply binary_round_aux_not_nan. lia.
Qed.

Lemma binary_normalize_not_nan (m e : Z) (szero : bool) :
  binary_normalize prec emax m e szero <> S754_nan.
Proof.
  unfold binary_normalize. destruct m; [discriminate| |]; apply binary_round_not_nan.
Qed.

Lemma SFmul_number (x y : spec_float) :
  SFnumber x -> SFnonzero y -> SFnumber (SFmul prec emax x y).
Proof.
  intros Hx (s' & m' & e' & ->). unfold SFnumber in *.
  destruct x as [s|s| |s m e]; cbn; try discriminate; try congruence.
  apply binary_round_aux_not_nan. lia.
Qed.

Lemma SFdiv_number (x y : spec_float) :
  SFnumber x -> SFnonzero y -> SFnumber (SFdiv prec emax x y).
Proof.
  intros Hx (s' & m' & e' & ->). unfold SFnumber in *.
  destruct x as [s|s| |s m e]; cbn [SFdiv]; try discriminate; try congruence.
  unfold SFdiv_core_binary.
  set (m1 := match _ - _ - _ with Z0 => _ | Zpos _ => _ | Zneg _ => _ end).
  assert (Hm1 : 0 <= m1).
  { subst m1. destruct (_ - _ - _) as [|p|p]; try lia.
    rewrite Z.shiftl_mul_pow2 by lia. apply Z.mul_nonneg_nonneg; [lia|].
    apply Z.pow_nonneg. lia. }
  pose proof (Z.div_pos m1 (Z.pos m') Hm1 ltac:(lia)) as Hq.
  unfold Z.div in Hq. destruct (Z.div_eucl m1 (Z.pos m')) as [q r].
  apply binary_round_aux_not_nan. exact Hq.
Qed.

Lemma SFadd_number (x y : spec_float) :
  SFnumber x -> SFfinite y = true -> SFnumber (SFadd prec emax x y).
Proof.
  unfold SFnumber. intros Hx Hy.
  destruct y as [s'|s'| |s' m' e']; try discriminate;
    destruct x as [s|s| |s m e]; cbn [SFadd]; try discriminate; try congruence;
    try (destruct (Bool.eqb _ _); discriminate);
    try (destruct s, s'; discriminate).
  apply binary_normalize_not_nan.
Qed.

Lemma SFsub_number (x y : spec_float) :
  SFnumber x -> SFfinite y = true -> SFnumber (SFsub prec emax x y).
Proof.
  unfold SFnumber. intros Hx Hy.
  destruct y as [s'|s'| |s' m' e']; try discriminate;
    destruct x as [s|s| |s m e]; cbn [SFsub]; try discriminate; try congruence;
    try (destruct (Bool.eqb _ _); discriminate);
    try (destruct s, s'; discriminate).
  apply binary_normalize_not_nan.
Qed.


Lemma number_not_nan (x : float) : number x -> is_nan x = false.
Proof.
  intros H. destruct (is_nan x) eqn:E; [|reflexivity].
  apply Laws.is_nan_spec in E. destruct (H E).
Qed.

Lemma finite_number (x : float) : is_finite x = true -> number x.
Proof.
  rewrite is_finite_spec. unfold number, SFnumber. intros H E.
  rewrite E in H. discriminate.
Qed.

Lemma literal_nonzero (q : Q) :
  SFfinite (Prim2SF (Q2F q)) = true -> is_zero (Q2F q) = false ->
  SFnonzero (Prim2SF (Q2F q)).
Proof.
  intros Hf Hz. destruct (Prim2SF (Q2F q)) as [s|s| |s m e] eqn:E; try discriminate.
  - assert (is_zero (Q2F q) = true) by (apply Laws.is_zero_spec; eauto). congruence.
  - exists s, m, e. reflexivity.
Qed.

Lemma mul_number (a b : float) :
  number a -> SFnonzero (Prim2SF b) -> number (a * b)%float.
Proof. unfold number. rewrite mul_spec. apply SFmul_number. Qed.

Lemma div_number (a b : float) :
  number a -> SFnonzero (Prim2SF b) -> number (a / b)%float.
Proof. unfold number. rewrite div_spec. apply SFdiv_number. Qed.

Lemma add_number (a b : float) :
  number a -> SFfinite (Prim2SF b) = true -> number (a + b)%float.
Proof. unfold number. rewrite add_spec. apply SFadd_number. Qed.

Lemma sub_number (a b : float) :
  number a -> SFfinite (Prim2SF b) = true -> number (a - b)%float.
Proof. unfold number. rewrite sub_spec. apply SFsub_number. Qed.

Ltac literal :=
  first [ apply literal_nonzero; vm_compute; reflexivity
        | vm_compute; reflexivity ].

(** What [convert] returns in binary64: the empty string for a value that
    is not finite, and otherwise a Number, which may be an infinity when
    the conversion overflows but is never NaN. *)
Theorem convert_gives_number_or_empty (M : MathLib) (v : float) (from to : jsstring) :
  if is_finite v
  then exists w, Script.convert (A := DoubleArith M) v from to = JNum w
                 /\ is_nan w = false
  else Script.convert (A := DoubleArith M) v from to = JStr emptyString.
Proof.
  destruct (is_finite v) eqn:Hf; [|apply Units.convert_nonfinite, Hf].
  pose proof (finite_number v Hf) as Hv.
  unfold Script.convert, Script.IN_TO_MM.
  change (@isFinite (DoubleArith M) v) with (is_finite v). rewrite Hf. cbn [negb].
  unfold DoubleArith. unfold_arith.
  repeat match goal with
  | |- context [if ?c then _ else _] => destruct c
  end; eexists; (split; [reflexivity|]); apply number_not_nan; try exact Hv.
  - apply mul_number; [exact Hv|literal].
  - apply div_number; [exact Hv|literal].
  - apply add_number; [|literal].
    apply div_number; [|literal]. apply mul_number; [exact Hv|literal].
  - apply div_number; [|literal]. apply mul_number; [|literal].
    apply sub_number; [exact Hv|literal].
Qed.

End NumberFacts.

(** ** The ambient entry in binary64 *)

Module AmbientFacts.
Import Floats.
Import DoubleModel DoubleFacts SpecFloatFacts.
Local Open Scope Z_scope.

(** Multiplying by 1 is exact. *)
Lemma SFmul_one_r (x : spec_float) :
  SpecFloat.valid_binary prec emax x = true ->
  SFmul prec emax x (S754_finite false 4503599627370496 (-52)) = x.
Proof.
  destruct x as [s|s| |s m e]; cbn [SFmul SpecFloat.valid_binary]; intros V;
    rewrite ?xorb_false_r; try reflexivity.
  unfold bounded, canonical_mantissa in V. apply andb_prop in V.
  destruct V as [Hc He]. apply Z.eqb_eq in Hc. apply Z.leb_le in He.
  rewrite Pos.mul_comm. cbn [Pos.mul].
  unfold binary_round_aux, shr_fexp. cbn [Zdigits2 digits2_pos].
  rewrite !Pos2Z.inj_succ.
  replace (fexp prec emax _ - (e + -52)) with 52.
  2: { match goal with
       | |- _ = fexp prec emax ?a - _ =>
         replace a with (Z.pos (digits2_pos m) + e) by lia
       end. rewrite Hc. lia. }
  unfold shr. cbn [iter_pos shr_1 shr_record_of_loc shr_m shr_r shr_s
                    loc_of_shr_record round_nearest_even orb].
  cbn [Zdigits2].
  replace (fexp prec emax (Z.pos (digits2_pos m) + (e + -52 + 52)) - (e + -52 + 52))
    with 0 by (replace (e + -52 + 52) with e by lia; rewrite Hc; lia).
  cbn [shr_m fst snd].
  replace (e + -52 + 52) with e by lia.
  apply Z.leb_le in He. rewrite He. reflexivity.
Qed.

Lemma mul_one_r (x : float) : (x * 1 = x)%float.
Proof.
  apply Prim2SF_inj. rewrite mul_spec.
  change (Prim2SF 1) with (S754_finite false 4503599627370496 (-52)).
  apply SFmul_one_r, Prim2SF_valid.
Qed.


Lemma mul_zero_r (a : float) :
  is_finite a = true -> exists s, Prim2SF (a * 0) = S754_zero s.
Proof.
  rewrite is_finite_spec, mul_spec. change (Prim2SF 0) with (S754_zero false).
  destruct (Prim2SF a) as [s|s| |s m e]; try discriminate; cbn; eauto.
Qed.

Lemma one_plus_zero (z : float) (s : bool) :
  Prim2SF z = S754_zero s -> (1 + z = 1)%float.
Proof.
  intros H. apply Prim2SF_inj. rewrite add_spec, H. reflexivity.
Qed.

(** At the ambient temperature nothing expands: the factors of the
    expansion are exactly 1. *)
Lemma no_expansion (a : float) :
  is_finite a = true -> (1 + a * (23 - 23) = 1)%float.
Proof.
  intros Ha. replace (23 - 23)%float with 0%float by (vm_compute; reflexivity).
  destruct (mul_zero_r a Ha) as [s Hs]. apply (one_plus_zero _ s Hs).
Qed.

Section Ambient.
Variable M : MathLib.
Import Script.
Local Open Scope num_scope.

Lemma ambient_entry_double (p : params (A := DoubleArith M)) (tempsList : list float)
  (e : temperatureResult (A := DoubleArith M)) :
  let out := Script.calculateDovetail p tempsList in
  In e out.(temperatureResults) -> e.(tempC) = 23%float ->
  is_finite p.(alpha) = true -> is_finite (3 * p.(alpha))%float = true ->
  e.(compressionPct) = (#1 - p.(gd) / p.(cs)) * #100
  /\ e.(glandFillPct)
     = #2 * PI * PI * (p.(cs) / #2) * (p.(cs) / #2) * ((p.(id) + p.(cs)) / #2)
       / out.(glandVolume) * #100.
Proof.
  intros out He Ht Ha H3.
  destruct (Thermal.calculateDovetail_entries p tempsList e He) as [Hc Hf].
  fold out in Hf. rewrite Hc, Hf, Ht. clear Hc Hf.
  generalize (glandVolume out). intros G.
  destruct p as [cs id gw gd angle rTop rBottom gap centerline alpha].
  cbn [Script.cs Script.id Script.gd Script.alpha] in *.
  unfold AMBIENT, PI, DoubleArith in *. unfold_arith.
  replace (Q2F 23) with 23%float by (vm_compute; reflexivity).
  replace (Q2F 1) with 1%float by (vm_compute; reflexivity).
  replace (Q2F 3) with 3%float by (vm_compute; reflexivity).
  rewrite (no_expansion _ Ha), (no_expansion _ H3), !mul_one_r.
  split; reflexivity.
Qed.

End Ambient.

(** The ambient card does not depend on the expansion coefficient: the
    entry at 23 has the compression [(1 - gd / cs) * 100] and the gland fill
    of the O-ring as it is, not expanded.  In exact arithmetic it is so
    outright; in binary64 it is so, to the last bit, whenever the
    coefficient and its triple are finite. *)
Theorem ambient_entry_independent_of_alpha :
  (forall (p : Script.params (A := RealModel.RealArith)) (tempsList : list R)
          (e : Script.temperatureResult),
     let out := RealModel.calculateDovetail p tempsList in
     In e out.(Script.temperatureResults) -> e.(Script.tempC) = 23%R ->
     e.(Script.compressionPct) = ((1 - p.(Script.gd) / p.(Script.cs)) * 100)%R
     /\ e.(Script.glandFillPct)
        = (2 * Rtrigo1.PI * Rtrigo1.PI * (p.(Script.cs) / 2) * (p.(Script.cs) / 2)
           * ((p.(Script.id) + p.(Script.cs)) / 2)
           / out.(Script.glandVolume) * 100)%R)
  /\ (forall (M : MathLib) (p : Script.params (A := DoubleArith M))
             (tempsList : list float) (e : Script.temperatureResult),
        let out := Script.calculateDovetail p tempsList in
        In e out.(Script.temperatureResults) -> e.(Script.tempC) = 23%float ->
        is_finite p.(Script.alpha) = true ->
        is_finite (3 * p.(Script.alpha))%float = true ->
        e.(Script.compressionPct)
        = ((#1 - p.(Script.gd) / p.(Script.cs)) * #100)%num
        /\ e.(Script.glandFillPct)
           = (#2 * Script.PI * Script.PI * (p.(Script.cs) / #2) * (p.(Script.cs) / #2)
              * ((p.(Script.id) + p.(Script.cs)) / #2)
              / out.(Script.glandVolume) * #100)%num).
Proof.
  split.
  - apply Physics.ambient_entry_real.
  - apply ambient_entry_double.
Qed.

Lemma ambient_entry_independent_of_alpha_witness :
  let p := exampleParams taylorMath in
  (Examples.ambientEntry taylorMath p).(Script.compressionPct)
  = ((#1 - p.(Script.gd) / p.(Script.cs)) * #100)%num.
Proof.
  exact (proj1 (proj2 ambient_entry_independent_of_alpha taylorMath
                  (exampleParams taylorMath) []
                  (Examples.ambientEntry taylorMath (exampleParams taylorMath))
                  (or_introl eq_refl) eq_refl eq_refl eq_refl)).
Defined.

End AmbientFacts.

(** ** Rounding errors in binary64 *)

Module RoundingFacts.
Import Floats.
Import DoubleFacts SpecFloatFacts NumberVocabulary RealValue.
Local Open Scope R_scope.

Lemma pow2_pos (e : Z) : 0 < pow2 e.
Proof. apply powerRZ_lt. lra. Qed.

Lemma pow2_add (a b : Z) : pow2 (a + b) = pow2 a * pow2 b.
Proof. apply powerRZ_add. lra. Qed.

Lemma pow2_succ (e : Z) : pow2 (e + 1) = 2 * pow2 e.
Proof. rewrite pow2_add. unfold pow2 at 2. rewrite powerRZ_1. ring. Qed.

Lemma pow2_IZR (n : Z) : (0 <= n)%Z -> pow2 n = IZR (2 ^ n).
Proof.
  intros Hn. unfold pow2. destruct n as [|p|p]; [reflexivity| |lia].
  cbn [powerRZ]. rewrite pow_IZR, positive_nat_Z. reflexivity.
Qed.

Lemma pow2_le (a b : Z) : (a <= b)%Z -> pow2 a <= pow2 b.
Proof.
  intros H. replace b with (a + (b - a))%Z by lia. rewrite pow2_add.
  rewrite (pow2_IZR (b - a)) by lia.
  assert (1 <= IZR (2 ^ (b - a))).
  { apply IZR_le. assert (0 < 2 ^ (b - a))%Z by (apply Z.pow_pos_nonneg; lia). lia. }
  pose proof (pow2_pos a). nra.
Qed.

Lemma IZR_xI (p : positive) : IZR (Z.pos p~1) = 2 * IZR (Z.pos p) + 1.
Proof. rewrite Pos2Z.inj_xI, plus_IZR, mult_IZR. reflexivity. Qed.

Lemma IZR_xO (p : positive) : IZR (Z.pos p~0) = 2 * IZR (Z.pos p).
Proof. rewrite Pos2Z.inj_xO, mult_IZR. reflexivity. Qed.

(** One step of the shift keeps the position of [x] up to date. *)
Lemma shr_1_inbetween (x : R) (mrs : shr_record) (e : Z) :
  (0 <= shr_m mrs)%Z ->
  inbetween x (shr_m mrs) e (loc_of_shr_record mrs) ->
  inbetween x (shr_m (shr_1 mrs)) (e + 1) (loc_of_shr_record (shr_1 mrs)).
Proof.
  destruct mrs as [m r s]. cbn [shr_m]. intros Hm.
  pose proof (pow2_pos e) as Hp. pose proof (pow2_succ e) as Hs.
  destruct m as [|p|p]; [| |lia].
  - destruct r, s; cbn [shr_1 shr_m loc_of_shr_record orb inbetween];
      rewrite Hs; intros H; lra.
  - destruct p as [p|p|]; destruct r, s;
      cbn [shr_1 shr_m loc_of_shr_record orb inbetween];
      rewrite Hs; try rewrite (IZR_xI p); try rewrite (IZR_xO p); intros H; nra.
Qed.

Lemma shr_1_nonneg (mrs : shr_record) : (0 <= shr_m mrs)%Z -> (0 <= shr_m (shr_1 mrs))%Z.
Proof.
  intros H. rewrite shr_m_shr_1 by assumption. apply Z.div_pos; lia.
Qed.

Lemma shr_iter_inbetween (x : R) (n : positive) :
  forall (mrs : shr_record) (e : Z),
  (0 <= shr_m mrs)%Z ->
  inbetween x (shr_m mrs) e (loc_of_shr_record mrs) ->
  (0 <= shr_m (iter_pos shr_1 n mrs))%Z
  /\ inbetween x (shr_m (iter_pos shr_1 n mrs)) (e + Z.pos n)
       (loc_of_shr_record (iter_pos shr_1 n mrs)).
Proof.
  induction n as [n IH|n IH|]; intros mrs e Hm Hx; cbn [iter_pos].
  - pose proof (shr_1_nonneg mrs Hm) as H1.
    pose proof (shr_1_inbetween x mrs e Hm Hx) as Hx1.
    destruct (IH _ _ H1 Hx1) as [H2 Hx2].
    destruct (IH _ _ H2 Hx2) as [H3 Hx3].
    split; [exact H3|].
    replace (e + Z.pos n~1)%Z with (e + 1 + Z.pos n + Z.pos n)%Z by lia. exact Hx3.
  - destruct (IH _ _ Hm Hx) as [H2 Hx2].
    destruct (IH _ _ H2 Hx2) as [H3 Hx3].
    split; [exact H3|].
    replace (e + Z.pos n~0)%Z with (e + Z.pos n + Z.pos n)%Z by lia. exact Hx3.
  - split; [apply shr_1_nonneg, Hm|apply shr_1_inbetween; assumption].
Qed.

Lemma loc_of_shr_record_of_loc (m : Z) (l : location) :
  loc_of_shr_record (shr_record_of_loc m l) = l.
Proof. destruct l as [|[]]; reflexivity. Qed.

(** Bringing a mantissa to its format: the exponent becomes the larger of
    the given one and the one of the format, the mantissa is divided
    accordingly, and the position of [x] is kept. *)
Lemma shr_fexp_inbetween (x : R) (m e : Z) (l : location) :
  (0 <= m)%Z -> inbetween x m e l ->
  let n := Z.max 0 (fexp prec emax (Zdigits2 m + e) - e) in
  let r := shr_fexp prec emax m e l in
  snd r = (e + n)%Z
  /\ shr_m (fst r) = (m / 2 ^ n)%Z
  /\ inbetween x (shr_m (fst r)) (snd r) (loc_of_shr_record (fst r)).
Proof.
  intros Hm Hx n r. subst n r. unfold shr_fexp, shr.
  destruct (fexp prec emax (Zdigits2 m + e) - e)%Z as [|p|p] eqn:Hn; cbn [fst snd].
  - rewrite shr_record_of_loc_m, loc_of_shr_record_of_loc.
    cbn. rewrite Z.div_1_r, Z.add_0_r. auto.
  - assert (H0 : (0 <= shr_m (shr_record_of_loc m l))%Z)
      by (rewrite shr_record_of_loc_m; exact Hm).
    assert (Hx0 : inbetween x (shr_m (shr_record_of_loc m l)) e
                    (loc_of_shr_record (shr_record_of_loc m l)))
      by (rewrite shr_record_of_loc_m, loc_of_shr_record_of_loc; exact Hx).
    destruct (shr_iter_inbetween x p _ e H0 Hx0) as [_ Hxp].
    rewrite shr_m_iter by exact H0. rewrite shr_record_of_loc_m.
    rewrite Z.max_r by lia. split; [reflexivity|]. split; [reflexivity|].
    rewrite shr_m_iter, shr_record_of_loc_m in Hxp by exact H0. exact Hxp.
  - rewrite shr_record_of_loc_m, loc_of_shr_record_of_loc.
    rewrite Z.max_l by lia. cbn. rewrite Z.div_1_r, Z.add_0_r. auto.
Qed.

Lemma round_nearest_even_inbetween (x : R) (m e : Z) (l : location) :
  inbetween x m e l ->
  let m' := round_nearest_even m l in
  (m <= m' <= m + 1)%Z
  /\ (l = loc_Exact -> m' = m)
  /\ Rabs (IZR m' * pow2 e - x) <= pow2 e / 2.
Proof.
  intros Hx m'. subst m'. pose proof (pow2_pos e) as Hp.
  destruct l as [|[]]; cbn [round_nearest_even inbetween] in *.
  - split; [lia|]. split; [reflexivity|]. rewrite Hx.
    replace (IZR m * pow2 e - IZR m * pow2 e) with 0 by ring. rewrite Rabs_R0. lra.
  - destruct (Z.even m); (split; [lia|]); (split; [discriminate|]);
      rewrite ?plus_IZR; apply Rabs_le; rewrite Hx; lra.
  - split; [lia|]. split; [discriminate|]. apply Rabs_le. lra.
  - split; [lia|]. split; [discriminate|]. rewrite plus_IZR. apply Rabs_le. lra.
Qed.

(** *** The format *)

Local Open Scope Z_scope.

Lemma fexp_eq (k : Z) : fexp prec emax k = Z.max (k - 53) (-1074).
Proof. reflexivity. Qed.

Lemma Zdigits2_bounds (m : Z) :
  0 <= m ->
  0 <= Zdigits2 m /\ m < 2 ^ Zdigits2 m
  /\ (0 < m -> 2 ^ (Zdigits2 m - 1) <= m).
Proof.
  intros Hm. destruct m as [|p|p]; [cbn; lia| |lia].
  cbn [Zdigits2]. pose proof (digits2_pos_bounds p). lia.
Qed.

(** Bringing a mantissa to the format leaves it below [2^53], at an
    exponent of the format, and, unless nothing was cut off, with 53 digits
    or at the least exponent. *)
Lemma shr_fexp_format (x : R) (m e : Z) (l : location) :
  0 <= m -> inbetween x m e l ->
  l = loc_Exact \/ e <= fexp prec emax (Zdigits2 m + e) ->
  let r := shr_fexp prec emax m e l in
  let m' := shr_m (fst r) in
  let e' := snd r in
  let l' := loc_of_shr_record (fst r) in
  inbetween x m' e' l'
  /\ 0 <= m' < 2 ^ 53 /\ -1074 <= e'
  /\ (l' = loc_Exact \/ 2 ^ 52 <= m' \/ e' = -1074).
Proof.
  intros Hm Hx Hpre r m' e' l'.
  destruct (shr_fexp_inbetween x m e l Hm Hx) as (He' & Hm' & Hx').
  fold r in He', Hm', Hx'. fold m' in Hm', Hx'. fold e' in He', Hx'. fold l' in Hx'.
  split; [exact Hx'|].
  destruct (Zdigits2_bounds m Hm) as (Hd0 & Hhi & Hlo).
  set (d := Zdigits2 m) in *. rewrite fexp_eq in *.
  destruct (Z.compare_spec (Z.max (d + e - 53) (-1074) - e) 0) as [Hn|Hn|Hn].
  - (* nothing is cut off, the exponent is that of the format *)
    rewrite Z.max_l in He', Hm' by lia. rewrite Z.add_0_r in He'.
    change (2 ^ 0) with 1 in Hm'. rewrite Z.div_1_r in Hm'.
    assert (Hd : d <= 53) by lia.
    assert (m < 2 ^ 53).
    { eapply Z.lt_le_trans; [exact Hhi|]. apply Z.pow_le_mono_r; lia. }
    split; [lia|]. split; [lia|]. right.
    destruct (Z.eq_dec d 53) as [E|E]; [left|right; lia].
    rewrite Hm'. rewrite E in Hlo. apply Hlo.
    destruct (Z.eq_dec m 0) as [->|]; [discriminate E|lia].
  - (* the mantissa is short: only an exact one is *)
    destruct Hpre as [->|Hpre]; [|lia].
    rewrite Z.max_l in He', Hm' by lia. rewrite Z.add_0_r in He'.
    change (2 ^ 0) with 1 in Hm'. rewrite Z.div_1_r in Hm'.
    assert (m < 2 ^ 53).
    { eapply Z.lt_le_trans; [exact Hhi|]. apply Z.pow_le_mono_r; lia. }
    split; [lia|]. split; [lia|]. left.
    unfold l', r, shr_fexp, shr. fold d. rewrite fexp_eq.
    destruct (Z.max (d + e - 53) (-1074) - e) as [|q|q]; try lia; reflexivity.
  - (* digits are cut off *)
    rewrite Z.max_r in He', Hm' by lia.
    set (n := Z.max (d + e - 53) (-1074) - e) in *.
    assert (Hpn : 0 < 2 ^ n) by (apply Z.pow_pos_nonneg; lia).
    assert (Hup : m < 2 ^ 53 * 2 ^ n).
    { rewrite <- Z.pow_add_r by lia. eapply Z.lt_le_trans; [exact Hhi|].
      apply Z.pow_le_mono_r; lia. }
    assert (Hm'0 : 0 <= m') by (rewrite Hm'; apply Z.div_pos; lia).
    assert (Hm'1 : m' < 2 ^ 53).
    { rewrite Hm'. apply Z.div_lt_upper_bound; lia. }
    split; [lia|]. split; [lia|]. right.
    destruct (Z.max_spec (d + e - 53) (-1074)) as [[_ E]|[Hge E]]; [right; lia|].
    left. rewrite Hm'. apply Z.div_le_lower_bound; [lia|].
    assert (Hd : 0 < m).
    { destruct (Z.eq_dec m 0) as [E0|]; [|lia]. subst m. subst d. cbn in *. lia. }
    specialize (Hlo Hd).
    replace n with (d - 53) by lia.
    rewrite Z.mul_comm, <- Z.pow_add_r by lia.
    replace (52 + (d - 53)) with (d - 1) by lia. exact Hlo.
Qed.

Local Open Scope R_scope.

(** After rounding, a mantissa of at most [2^53] is brought to the format
    without loss. *)
Lemma shr_fexp_exact (m e : Z) :
  (0 <= m <= 2 ^ 53)%Z -> (-1074 <= e)%Z ->
  let r := shr_fexp prec emax m e loc_Exact in
  (0 <= shr_m (fst r))%Z
  /\ (shr_m (fst r) = 0%Z <-> m = 0%Z)
  /\ IZR (shr_m (fst r)) * pow2 (snd r) = IZR m * pow2 e.
Proof.
  intros Hm He r. subst r.
  destruct (Z.eq_dec m (2 ^ 53)) as [->|Hne].
  - unfold shr_fexp. change (Zdigits2 (2 ^ 53)) with 54%Z. rewrite fexp_eq.
    replace (Z.max (54 + e - 53) (-1074) - e)%Z with 1%Z by lia.
    cbn [shr iter_pos shr_record_of_loc fst snd]. change (2 ^ 53)%Z with 9007199254740992%Z.
    cbn [shr_1 shr_m]. split; [lia|]. split; [split; discriminate|].
    rewrite pow2_succ.
    change 9007199254740992%Z with (2 * 4503599627370496)%Z. rewrite mult_IZR. ring.
  - assert (Hlt : (m < 2 ^ 53)%Z) by lia.
    destruct (Zdigits2_bounds m (proj1 Hm)) as (Hd0 & Hhi & Hlo).
    assert (Hd : (Zdigits2 m <= 53)%Z).
    { destruct (Z.eq_dec m 0) as [->|H0]; [cbn; lia|].
      specialize (Hlo ltac:(lia)).
      destruct (Z_le_gt_dec (Zdigits2 m) 53) as [H|H]; [exact H|exfalso].
      assert (2 ^ 53 <= 2 ^ (Zdigits2 m - 1))%Z by (apply Z.pow_le_mono_r; lia). lia. }
    unfold shr_fexp, shr. rewrite fexp_eq.
    destruct (Z.max (Zdigits2 m + e - 53) (-1074) - e)%Z as [|q|q] eqn:Hn; try lia;
      cbn [fst snd shr_record_of_loc shr_m]; (split; [lia|]); split;
        reflexivity || tauto.
Qed.


(** The error of rounding: a position that is brought to the format and
    rounded to the nearest is off by at most [2^-53] of its value where the
    format has 53 digits, and by at most [2^-1075] at its least exponent. *)
Lemma binary_round_aux_error (s : bool) (x : R) (m e : Z) (l : location) :
  (0 <= m)%Z -> inbetween x m e l ->
  l = loc_Exact \/ (e <= fexp prec emax (Zdigits2 m + e))%Z ->
  SFfinite (binary_round_aux prec emax s m e l) = true ->
  Rabs (SF2R (binary_round_aux prec emax s m e l) - sign s * x)
  <= pow2 (-53) * x + pow2 (-1075).
Proof.
  intros Hm Hx Hpre. unfold binary_round_aux.
  destruct (shr_fexp_format x m e l Hm Hx Hpre) as (Hx1 & Hm1 & He1 & Hg).
  destruct (shr_fexp prec emax m e l) as [mrs1 e1]. cbn [fst snd] in *.
  destruct (round_nearest_even_inbetween x _ _ _ Hx1) as (Hr & Hexact & Herr).
  set (m2 := round_nearest_even (shr_m mrs1) (loc_of_shr_record mrs1)) in *.
  destruct (shr_fexp_exact m2 e1 ltac:(lia) He1) as (Hm3 & Hz3 & Hv3).
  destruct (shr_fexp prec emax m2 e1 loc_Exact) as [mrs3 e3]. cbn [fst snd] in *.
  (* the position is not negative, and the error is within the bound *)
  pose proof (pow2_pos e1) as Hp1.
  assert (Hx0 : IZR (shr_m mrs1) * pow2 e1 <= x).
  { destruct (loc_of_shr_record mrs1) as [|[]]; cbn [inbetween] in Hx1; nra. }
  assert (Hbound : Rabs (IZR m2 * pow2 e1 - x) <= pow2 (-53) * x + pow2 (-1075)).
  { pose proof (pow2_pos (-53)) as H53. pose proof (pow2_pos (-1075)) as H1075.
    assert (Hx00 : 0 <= x).
    { apply Rle_trans with (2 := Hx0). apply Rmult_le_pos; [apply IZR_le; lia|lra]. }
    destruct Hg as [Hg|[Hg|Hg]].
    - rewrite (Hexact Hg). rewrite Hg in Hx1. cbn [inbetween] in Hx1. rewrite Hx1.
      replace (IZR (shr_m mrs1) * pow2 e1 - IZR (shr_m mrs1) * pow2 e1) with 0 by ring.
      rewrite Rabs_R0. nra.
    - apply Rle_trans with (1 := Herr).
      assert (H52 : IZR (2 ^ 52) * pow2 e1 <= x).
      { apply Rle_trans with (2 := Hx0). apply Rmult_le_compat_r; [lra|].
        apply IZR_le. exact Hg. }
      assert (E : pow2 (-53) * IZR (2 ^ 52) = / 2).
      { rewrite <- (pow2_IZR 52) by lia. rewrite <- pow2_add.
        change (-53 + 52)%Z with (-1)%Z. pose proof (pow2_succ (-1)) as H1.
        change (-1 + 1)%Z with 0%Z in H1. change (pow2 0) with 1 in H1. lra. }
      assert (pow2 e1 / 2 <= pow2 (-53) * x); [|lra].
      apply Rle_trans with (pow2 (-53) * (IZR (2 ^ 52) * pow2 e1)).
      + rewrite <- Rmult_assoc, E. lra.
      + apply Rmult_le_compat_l; lra.
    - apply Rle_trans with (1 := Herr). rewrite Hg.
      assert (E : pow2 (-1074) / 2 = pow2 (-1075)).
      { replace (-1074)%Z with (-1075 + 1)%Z by lia. rewrite pow2_succ. lra. }
      rewrite E. nra. }
  destruct (shr_m mrs3) as [|p3|p3] eqn:E3; [| |lia].
  - intros _. cbn [SF2R]. assert (m2 = 0%Z) by (apply Hz3; reflexivity).
    subst m2. rewrite H in Hbound. rewrite Rmult_0_l in Hbound.
    replace (0 - sign s * x) with (- (sign s) * x) by ring.
    unfold sign. destruct s.
    + replace (- -1 * x) with (- (0 - x)) by ring. rewrite Rabs_Ropp. exact Hbound.
    + replace (- (1) * x) with (0 - x) by ring. exact Hbound.
  - destruct (e3 <=? emax - prec)%Z; [intros _|discriminate].
    cbn [SF2R]. fold (sign s). rewrite Rmult_assoc, Hv3.
    replace (sign s * (IZR m2 * pow2 e1) - sign s * x)
      with (sign s * (IZR m2 * pow2 e1 - x)) by ring.
    rewrite Rabs_mult.
    replace (Rabs (sign s)) with 1; [lra|].
    unfold sign. destruct s; [rewrite Rabs_left|rewrite Rabs_right]; lra.
Qed.

(** *** The operations *)

Lemma sign_xorb (a b : bool) : sign (xorb a b) = sign a * sign b.
Proof. destruct a, b; unfold sign; cbn; ring. Qed.

Lemma SF2R_finite (s : bool) (m : positive) (e : Z) :
  SF2R (S754_finite s m e) = sign s * (IZR (Z.pos m) * pow2 e).
Proof. unfold SF2R, sign. ring. Qed.

Lemma Rabs_sign (s : bool) (x : R) : Rabs (sign s * x) = Rabs x.
Proof.
  rewrite Rabs_mult. replace (Rabs (sign s)) with 1; [ring|].
  unfold sign. destruct s; [rewrite Rabs_left|rewrite Rabs_right]; lra.
Qed.

Lemma exact_error (x : R) : Rabs (x - x) <= pow2 (-53) * Rabs x + pow2 (-1075).
Proof.
  replace (x - x) with 0 by ring. rewrite Rabs_R0.
  pose proof (pow2_pos (-53)). pose proof (pow2_pos (-1075)).
  pose proof (Rabs_pos x). nra.
Qed.

Lemma SFmul_error (x y : spec_float) :
  SFfinite (SFmul prec emax x y) = true ->
  SFfinite x = true /\ SFfinite y = true
  /\ Rabs (SF2R (SFmul prec emax x y) - SF2R x * SF2R y)
     <= pow2 (-53) * Rabs (SF2R x * SF2R y) + pow2 (-1075).
Proof.
  destruct x as [s1|s1| |s1 m1 e1], y as [s2|s2| |s2 m2 e2];
    cbn [SFmul SFfinite]; try discriminate; intros H;
    (split; [reflexivity|]); (split; [reflexivity|]);
    try (cbn [SF2R]; rewrite ?Rmult_0_l, ?Rmult_0_r; apply exact_error).
  rewrite !SF2R_finite.
  set (x := IZR (Z.pos m1) * pow2 e1 * (IZR (Z.pos m2) * pow2 e2)).
  assert (Hx : inbetween x (Z.pos (m1 * m2)) (e1 + e2) loc_Exact).
  { cbn [inbetween]. unfold x. rewrite Pos2Z.inj_mul, mult_IZR, pow2_add. ring. }
  pose proof (binary_round_aux_error (xorb s1 s2) x (Z.pos (m1 * m2)) (e1 + e2)
                loc_Exact (Pos2Z.is_nonneg _) Hx (or_introl eq_refl) H) as E.
  rewrite sign_xorb in E.
  replace (sign s1 * (IZR (Z.pos m1) * pow2 e1) * (sign s2 * (IZR (Z.pos m2) * pow2 e2)))
    with (sign s1 * sign s2 * x) by (unfold x; ring).
  rewrite Rmult_assoc, !Rabs_sign.
  assert (0 <= x).
  { unfold x. pose proof (pow2_pos e1). pose proof (pow2_pos e2).
    assert (0 < IZR (Z.pos m1)) by (apply IZR_lt; lia).
    assert (0 < IZR (Z.pos m2)) by (apply IZR_lt; lia).
    apply Rmult_le_pos; apply Rmult_le_pos; lra. }
  rewrite (Rabs_right x) by lra. rewrite <- Rmult_assoc. exact E.
Qed.

Lemma inbetween_fraction (q e : Z) (t : R) (l : location) :
  match l with
  | loc_Exact => t = 0
  | loc_Inexact Lt => 0 < t < / 2
  | loc_Inexact Eq => t = / 2
  | loc_Inexact Gt => / 2 < t < 1
  end ->
  inbetween ((IZR q + t) * pow2 e) q e l.
Proof.
  pose proof (pow2_pos e) as Hp.
  destruct l as [|[]]; cbn [inbetween]; intros H.
  - rewrite H. ring.
  - rewrite H. reflexivity.
  - destruct H as [H0 H1]. split.
    + apply Rmult_lt_compat_r; lra.
    + apply Rmult_lt_compat_r; lra.
  - destruct H as [H0 H1]. split.
    + apply Rmult_lt_compat_r; lra.
    + apply Rmult_lt_compat_r; lra.
Qed.

(** Where the quotient lies, by the remainder of the division. *)
Lemma new_location_inbetween (nb k q : Z) (u : R) :
  (0 < nb)%Z -> (0 <= k < nb)%Z -> 0 < u ->
  forall e : Z, pow2 e = u ->
  inbetween ((IZR q + IZR k / IZR nb) * u) q e (new_location nb k).
Proof.
  intros Hnb Hk Hu e <-.
  assert (Hn : 0 < IZR nb) by (apply IZR_lt; lia).
  assert (Hk0 : 0 <= IZR k) by (apply IZR_le; lia).
  assert (Hinv : 0 < / IZR nb) by (apply Rinv_0_lt_compat, Hn).
  assert (Hhalf : forall c : comparison, (2 * k ?= nb)%Z = c ->
            match c with
            | Lt => IZR k / IZR nb < / 2
            | Eq => IZR k / IZR nb = / 2
            | Gt => / 2 < IZR k / IZR nb
            end).
  { intros c Hc.
    assert (E : IZR k / IZR nb - / 2 = (IZR (2 * k) - IZR nb) * (/ 2 * / IZR nb)).
    { rewrite mult_IZR. field. lra. }
    assert (Hpos : 0 < / 2 * / IZR nb) by nra.
    destruct c.
    - apply Z.compare_eq in Hc. rewrite Hc in E.
      replace (IZR nb - IZR nb) with 0 in E by ring. lra.
    - apply Z.compare_lt_iff, IZR_lt in Hc.
      assert ((IZR (2 * k) - IZR nb) * (/ 2 * / IZR nb) < 0); [|lra].
      assert (Hd : 0 < IZR nb - IZR (2 * k)) by lra.
      pose proof (Rmult_lt_0_compat _ _ Hd Hpos). lra.
    - apply Z.compare_gt_iff, IZR_lt in Hc.
      assert (0 < (IZR (2 * k) - IZR nb) * (/ 2 * / IZR nb)); [|lra].
      apply Rmult_lt_0_compat; lra. }
  assert (Hlt1 : IZR k / IZR nb < 1).
  { apply (Rmult_lt_reg_r (IZR nb)); [exact Hn|].
    unfold Rdiv. rewrite Rmult_assoc, Rinv_l, Rmult_1_r, Rmult_1_l by lra.
    apply IZR_lt. lia. }
  assert (Hgt0 : k <> 0%Z -> 0 < IZR k / IZR nb).
  { intros Hne. apply Rmult_lt_0_compat; [|exact Hinv]. apply IZR_lt. lia. }
  apply inbetween_fraction.
  unfold new_location, new_location_even, new_location_odd.
  destruct (Z.even nb) eqn:Heven; destruct (Z.eqb_spec k 0) as [->|Hne].
  - unfold Rdiv. apply Rmult_0_l.
  - specialize (Hgt0 Hne). specialize (Hhalf _ eq_refl).
    destruct (2 * k ?= nb)%Z; [exact Hhalf|split; assumption|split; assumption].
  - unfold Rdiv. apply Rmult_0_l.
  - specialize (Hgt0 Hne).
    destruct (Z.compare_spec (2 * k + 1) nb) as [Hc|Hc|Hc].
    + assert (H2 : (2 * k ?= nb)%Z = Lt) by (apply Z.compare_lt_iff; lia).
      specialize (Hhalf _ H2). split; assumption.
    + assert (H2 : (2 * k ?= nb)%Z = Lt) by (apply Z.compare_lt_iff; lia).
      specialize (Hhalf _ H2). split; assumption.
    + assert (Hodd : (2 * k)%Z <> nb).
      { intros E. rewrite <- E, Z.even_mul in Heven. discriminate. }
      assert (H2 : (2 * k ?= nb)%Z = Gt) by (apply Z.compare_gt_iff; lia).
      specialize (Hhalf _ H2). split; assumption.
Qed.


(** The integer division of [SFdiv]: the quotient with its location
    brackets the real quotient, at an exponent no finer than the format's. *)
Lemma SFdiv_core_binary_spec (m1 m2 : positive) (e1 e2 q e' : Z) (l : location) :
  SFdiv_core_binary prec emax (Z.pos m1) e1 (Z.pos m2) e2 = (q, e', l) ->
  (0 <= q)%Z
  /\ inbetween (IZR (Z.pos m1) * pow2 e1 / (IZR (Z.pos m2) * pow2 e2)) q e' l
  /\ (e' <= fexp prec emax (Zdigits2 q + e'))%Z.
Proof.
  unfold SFdiv_core_binary.
  pose proof (Zdigits2_bounds (Z.pos m1) (Pos2Z.is_nonneg _)) as (Hd1 & Hu1 & Hl1).
  pose proof (Zdigits2_bounds (Z.pos m2) (Pos2Z.is_nonneg _)) as (Hd2 & Hu2 & Hl2).
  specialize (Hl1 (Pos2Z.is_pos _)). specialize (Hl2 (Pos2Z.is_pos _)).
  assert (Hd1p : (0 < Zdigits2 (Z.pos m1))%Z) by (cbn [Zdigits2]; lia).
  set (d1 := Zdigits2 (Z.pos m1)) in *. set (d2 := Zdigits2 (Z.pos m2)) in *.
  set (e0 := Z.min (fexp prec emax (d1 + e1 - (d2 + e2))) (e1 - e2)).
  assert (He0 : (e0 <= fexp prec emax (d1 + e1 - (d2 + e2)))%Z) by apply Z.le_min_l.
  assert (Hs : (0 <= e1 - e2 - e0)%Z).
  { pose proof (Z.le_min_r (fexp prec emax (d1 + e1 - (d2 + e2))) (e1 - e2)).
    fold e0 in H. lia. }
  set (s := (e1 - e2 - e0)%Z) in *.
  set (m' := match s with Z0 => Z.pos m1 | Z.pos _ => Z.shiftl (Z.pos m1) s
             | Z.neg _ => 0%Z end).
  assert (Hm' : m' = (Z.pos m1 * 2 ^ s)%Z).
  { unfold m'. destruct s as [|p|p].
    - rewrite Z.pow_0_r. lia.
    - apply Z.shiftl_mul_pow2. lia.
    - lia. }
  clearbody m'.
  pose proof (Z_div_mod m' (Z.pos m2) eq_refl) as Hdm.
  destruct (Z.div_eucl m' (Z.pos m2)) as [q0 r0]. destruct Hdm as [Hdm Hr].
  intros E. injection E as Eq Ee El. subst q e' l.
  assert (H2s : (0 < 2 ^ s)%Z) by (apply Z.pow_pos_nonneg; lia).
  assert (Hq0 : (0 <= q0)%Z) by nia.
  split; [exact Hq0|]. split.
  - assert (Hx : IZR (Z.pos m1) * pow2 e1 / (IZR (Z.pos m2) * pow2 e2)
               = (IZR q0 + IZR r0 / IZR (Z.pos m2)) * pow2 e0).
    { assert (Hm2 : 0 < IZR (Z.pos m2)) by (apply IZR_lt; lia).
      pose proof (pow2_pos e2) as Hp2. pose proof (pow2_pos e0) as Hp0.
      replace e1 with (s + (e0 + e2))%Z by (unfold s; lia).
      rewrite !pow2_add, (pow2_IZR s Hs).
      assert (HR : IZR (Z.pos m1) * IZR (2 ^ s)
                   = IZR (Z.pos m2) * IZR q0 + IZR r0).
      { rewrite <- mult_IZR, <- Hm', Hdm, plus_IZR, mult_IZR. reflexivity. }
      replace (IZR (Z.pos m1) * (IZR (2 ^ s) * (pow2 e0 * pow2 e2)))
        with (IZR (Z.pos m1) * IZR (2 ^ s) * (pow2 e0 * pow2 e2)) by ring.
      rewrite HR. field. split; lra. }
    rewrite Hx. apply new_location_inbetween; [lia|lia|apply pow2_pos|reflexivity].
  - rewrite fexp_eq in He0 |- *.
    destruct (Z.le_gt_cases e0 (-1074)) as [Hlow|Hhigh]; [lia|].
    assert (Hg : (e0 <= d1 + e1 - (d2 + e2) - 53)%Z) by lia.
    assert (Hk : (0 <= d1 + s - 1 - d2)%Z) by (unfold s; lia).
    set (k := (d1 + s - 1 - d2)%Z) in *.
    assert (Hpow : (2 ^ k * 2 ^ d2 <= m')%Z).
    { rewrite <- Z.pow_add_r by lia.
      replace (k + d2)%Z with ((d1 - 1) + s)%Z by (unfold k; lia).
      rewrite Z.pow_add_r by lia. rewrite Hm'.
      apply Z.mul_le_mono_nonneg_r; lia. }
    assert (H2k : (0 < 2 ^ k)%Z) by (apply Z.pow_pos_nonneg; lia).
    assert (Hqk : (2 ^ k <= q0)%Z) by nia.
    pose proof (Zdigits2_bounds q0 Hq0) as (Hdq & Huq & _).
    assert (Hkd : (k < Zdigits2 q0)%Z).
    { apply (Z.pow_lt_mono_r_iff 2); lia. }
    unfold k, s in Hkd. lia.
Qed.

Lemma SFdiv_error (x : spec_float) (sy : bool) (my : positive) (ey : Z) :
  SFfinite (SFdiv prec emax x (S754_finite sy my ey)) = true ->
  SFfinite x = true
  /\ Rabs (SF2R (SFdiv prec emax x (S754_finite sy my ey))
           - SF2R x / SF2R (S754_finite sy my ey))
     <= pow2 (-53) * Rabs (SF2R x / SF2R (S754_finite sy my ey)) + pow2 (-1075).
Proof.
  destruct x as [sx|sx| |sx mx ex]; cbn [SFdiv SFfinite]; try discriminate.
  - intros _. split; [reflexivity|]. cbn [SF2R]. unfold Rdiv. rewrite Rmult_0_l.
    apply exact_error.
  - destruct (SFdiv_core_binary prec emax (Z.pos mx) ex (Z.pos my) ey)
      as [[q e'] l] eqn:Ec.
    destruct (SFdiv_core_binary_spec mx my ex ey q e' l Ec) as (Hq & Hin & Hfmt).
    intros Hfin. split; [reflexivity|].
    set (t := IZR (Z.pos mx) * pow2 ex / (IZR (Z.pos my) * pow2 ey)) in *.
    pose proof (binary_round_aux_error (xorb sx sy) t q e' l Hq Hin
                  (or_intror Hfmt) Hfin) as E.
    rewrite sign_xorb in E. rewrite !SF2R_finite.
    assert (Hmy : 0 < IZR (Z.pos my) * pow2 ey).
    { apply Rmult_lt_0_compat; [apply IZR_lt; lia|apply pow2_pos]. }
    assert (Hmx : 0 < IZR (Z.pos mx) * pow2 ex).
    { apply Rmult_lt_0_compat; [apply IZR_lt; lia|apply pow2_pos]. }
    assert (Ht : 0 < t).
    { unfold t, Rdiv. apply Rmult_lt_0_compat; [exact Hmx|].
      apply Rinv_0_lt_compat, Hmy. }
    assert (Esign : sign sx * (IZR (Z.pos mx) * pow2 ex)
                    / (sign sy * (IZR (Z.pos my) * pow2 ey))
                    = sign sx * sign sy * t).
    { assert (Hy1 : 0 < IZR (Z.pos my)) by (apply IZR_lt; lia).
      pose proof (pow2_pos ey) as Hy2.
      unfold t, sign. destruct sx, sy; field; repeat split; lra. }
    rewrite Esign, Rmult_assoc, !Rabs_sign, (Rabs_right t) by lra.
    rewrite <- Rmult_assoc. exact E.
Qed.

(** *** Sums and differences *)

Lemma iter_xO_value (m d : positive) :
  Z.pos (Pos.iter xO m d) = (Z.pos m * 2 ^ Z.pos d)%Z.
Proof.
  rewrite <- Z.shiftl_mul_pow2 by lia. cbn [Z.shiftl].
  apply (Pos.iter_swap_gen _ _ Z.pos xO (Z.mul 2)). intros a. reflexivity.
Qed.

(** Aligning a mantissa to a lower exponent keeps the value. *)
Lemma shl_align_real (m : positive) (e e' : Z) :
  (e' <= e)%Z ->
  snd (shl_align m e e') = e'
  /\ IZR (Z.pos (fst (shl_align m e e'))) * pow2 e' = IZR (Z.pos m) * pow2 e.
Proof.
  intros Hle. unfold shl_align. destruct (e' - e)%Z as [|d|d] eqn:Ed; [|lia|].
  - cbn [fst snd]. assert (e = e') by lia. subst e'. split; reflexivity.
  - cbn [fst snd]. split; [reflexivity|].
    rewrite iter_xO_value, mult_IZR, <- (pow2_IZR (Z.pos d)) by lia.
    replace e with (Z.pos d + e')%Z by lia. rewrite pow2_add. ring.
Qed.

Lemma shl_align_fexp (m : positive) (e e' : Z) :
  IZR (Z.pos (fst (shl_align m e e'))) * pow2 (snd (shl_align m e e'))
  = IZR (Z.pos m) * pow2 e.
Proof.
  destruct (Z.le_gt_cases e' e) as [Hle|Hgt].
  - destruct (shl_align_real m e e' Hle) as [-> E]. exact E.
  - unfold shl_align. destruct (e' - e)%Z as [|d|d] eqn:Ed; [| |lia]; reflexivity.
Qed.

Lemma binary_round_error (s : bool) (m : positive) (e : Z) :
  SFfinite (binary_round prec emax s m e) = true ->
  Rabs (SF2R (binary_round prec emax s m e) - sign s * (IZR (Z.pos m) * pow2 e))
  <= pow2 (-53) * (IZR (Z.pos m) * pow2 e) + pow2 (-1075).
Proof.
  unfold binary_round.
  pose proof (shl_align_fexp m e (fexp prec emax (Z.pos (digits2_pos m) + e))) as Hv.
  destruct (shl_align m e (fexp prec emax (Z.pos (digits2_pos m) + e))) as [mz ez].
  cbn [fst snd] in Hv. intros Hfin.
  apply binary_round_aux_error; [lia| |left; reflexivity|exact Hfin].
  cbn [inbetween]. symmetry. exact Hv.
Qed.

Lemma binary_normalize_error (m e : Z) (szero : bool) :
  SFfinite (binary_normalize prec emax m e szero) = true ->
  Rabs (SF2R (binary_normalize prec emax m e szero) - IZR m * pow2 e)
  <= pow2 (-53) * Rabs (IZR m * pow2 e) + pow2 (-1075).
Proof.
  destruct m as [|p|p]; cbn [binary_normalize].
  - intros _. cbn [SF2R]. rewrite Rmult_0_l. apply exact_error.
  - intros H. pose proof (binary_round_error false p e H) as E.
    assert (0 < IZR (Z.pos p) * pow2 e).
    { apply Rmult_lt_0_compat; [apply IZR_lt; lia|apply pow2_pos]. }
    rewrite (Rabs_right (IZR (Z.pos p) * pow2 e)) by lra.
    unfold sign in E. rewrite Rmult_1_l in E. exact E.
  - intros H. pose proof (binary_round_error true p e H) as E.
    assert (0 < IZR (Z.pos p) * pow2 e).
    { apply Rmult_lt_0_compat; [apply IZR_lt; lia|apply pow2_pos]. }
    change (Z.neg p) with (- Z.pos p)%Z. rewrite opp_IZR.
    replace (- IZR (Z.pos p) * pow2 e) with (- (IZR (Z.pos p) * pow2 e)) by ring.
    rewrite Rabs_Ropp, (Rabs_right (IZR (Z.pos p) * pow2 e)) by lra. unfold sign in E.
    replace (-1 * (IZR (Z.pos p) * pow2 e)) with (- (IZR (Z.pos p) * pow2 e)) in E
      by ring.
    exact E.
Qed.

Lemma cond_Zopp_IZR (s : bool) (m : Z) : IZR (cond_Zopp s m) = sign s * IZR m.
Proof. unfold cond_Zopp, sign. destruct s; [rewrite opp_IZR|]; ring. Qed.

Lemma aligned_value (s : bool) (m : positive) (e e' : Z) :
  (e' <= e)%Z ->
  IZR (cond_Zopp s (Z.pos (fst (shl_align m e e')))) * pow2 e'
  = SF2R (S754_finite s m e).
Proof.
  intros Hle. rewrite cond_Zopp_IZR, SF2R_finite, Rmult_assoc.
  rewrite (proj2 (shl_align_real m e e' Hle)). reflexivity.
Qed.

Lemma SFadd_error (x y : spec_float) :
  SFfinite (SFadd prec emax x y) = true ->
  SFfinite x = true /\ SFfinite y = true
  /\ Rabs (SF2R (SFadd prec emax x y) - (SF2R x + SF2R y))
     <= pow2 (-53) * Rabs (SF2R x + SF2R y) + pow2 (-1075).
Proof.
  destruct x as [s1|s1| |s1 m1 e1], y as [s2|s2| |s2 m2 e2];
    cbn [SFadd SFfinite]; try discriminate;
    try (destruct s1, s2; discriminate).
  - intros _. split; [reflexivity|]. split; [reflexivity|].
    destruct s1, s2; cbn [SF2R]; rewrite Rplus_0_l; apply exact_error.
  - intros _. split; [reflexivity|]. split; [reflexivity|].
    cbn [SF2R]. rewrite Rplus_0_l. apply exact_error.
  - intros _. split; [reflexivity|]. split; [reflexivity|].
    cbn [SF2R]. rewrite Rplus_0_r. apply exact_error.
  - intros H. split; [reflexivity|]. split; [reflexivity|].
    pose proof (binary_normalize_error _ _ _ H) as E.
    rewrite plus_IZR, Rmult_plus_distr_r in E.
    rewrite !aligned_value in E by lia. exact E.
Qed.

Lemma SFsub_error (x y : spec_float) :
  SFfinite (SFsub prec emax x y) = true ->
  SFfinite x = true /\ SFfinite y = true
  /\ Rabs (SF2R (SFsub prec emax x y) - (SF2R x - SF2R y))
     <= pow2 (-53) * Rabs (SF2R x - SF2R y) + pow2 (-1075).
Proof.
  destruct x as [s1|s1| |s1 m1 e1], y as [s2|s2| |s2 m2 e2];
    cbn [SFsub SFfinite]; try discriminate;
    try (destruct s1, s2; discriminate).
  - intros _. split; [reflexivity|]. split; [reflexivity|].
    destruct s1, s2; cbn [SF2R]; rewrite Rminus_0_r; apply exact_error.
  - intros _. split; [reflexivity|]. split; [reflexivity|].
    replace (SF2R (S754_finite (negb s2) m2 e2))
      with (SF2R (S754_zero s1) - SF2R (S754_finite s2 m2 e2)).
    + apply exact_error.
    + cbn [SF2R]. destruct s2; cbn [negb]; ring.
  - intros _. split; [reflexivity|]. split; [reflexivity|].
    cbn [SF2R]. rewrite Rminus_0_r. apply exact_error.
  - intros H. split; [reflexivity|]. split; [reflexivity|].
    pose proof (binary_normalize_error _ _ _ H) as E.
    rewrite minus_IZR, Rmult_minus_distr_r in E.
    rewrite !aligned_value in E by lia. exact E.
Qed.

End RoundingFacts.

(** ** Round trips in binary64 *)

Module RoundTrips.
Import Floats.
Import DoubleModel DoubleFacts SpecFloatFacts NumberVocabulary RealValue RoundingFacts.
Local Open Scope R_scope.

Lemma mul_error (x y : float) :
  is_finite (PrimFloat.mul x y) = true ->
  is_finite x = true /\ is_finite y = true
  /\ Rabs (F2R (PrimFloat.mul x y) - F2R x * F2R y)
     <= pow2 (-53) * Rabs (F2R x * F2R y) + pow2 (-1075).
Proof. rewrite !is_finite_spec. unfold F2R. rewrite mul_spec. apply SFmul_error. Qed.

Lemma div_error (x y : float) (s : bool) (m : positive) (e : Z) :
  Prim2SF y = S754_finite s m e ->
  is_finite (PrimFloat.div x y) = true ->
  is_finite x = true
  /\ Rabs (F2R (PrimFloat.div x y) - F2R x / F2R y)
     <= pow2 (-53) * Rabs (F2R x / F2R y) + pow2 (-1075).
Proof.
  intros Hy. rewrite !is_finite_spec. unfold F2R. rewrite div_spec, Hy.
  apply SFdiv_error.
Qed.

Lemma add_error (x y : float) :
  is_finite (PrimFloat.add x y) = true ->
  is_finite x = true /\ is_finite y = true
  /\ Rabs (F2R (PrimFloat.add x y) - (F2R x + F2R y))
     <= pow2 (-53) * Rabs (F2R x + F2R y) + pow2 (-1075).
Proof. rewrite !is_finite_spec. unfold F2R. rewrite add_spec. apply SFadd_error. Qed.

Lemma sub_error (x y : float) :
  is_finite (PrimFloat.sub x y) = true ->
  is_finite x = true /\ is_finite y = true
  /\ Rabs (F2R (PrimFloat.sub x y) - (F2R x - F2R y))
     <= pow2 (-53) * Rabs (F2R x - F2R y) + pow2 (-1075).
Proof. rewrite !is_finite_spec. unfold F2R. rewrite sub_spec. apply SFsub_error. Qed.

Lemma pow2_opp (n : Z) : (0 <= n)%Z -> pow2 (- n) = / IZR (2 ^ n).
Proof.
  intros Hn. rewrite <- (pow2_IZR n Hn).
  pose proof (pow2_add (- n) n) as H. replace (- n + n)%Z with 0%Z in H by lia.
  change (pow2 0) with 1 in H. pose proof (pow2_pos n) as Hp.
  apply (Rmult_eq_reg_r (pow2 n)); [|lra].
  rewrite <- H. field. lra.
Qed.

(** The factor of the script in binary64: the Number nearest to 25.4. *)
Lemma IN_TO_MM_binary64 (M : MathLib) :
  Prim2SF (Script.IN_TO_MM (A := DoubleArith M))
  = S754_finite false 7149464408450662 (-48).
Proof. vm_compute. reflexivity. Qed.

Lemma IN_TO_MM_real (M : MathLib) :
  F2R (Script.IN_TO_MM (A := DoubleArith M)) = 7149464408450662 / 281474976710656.
Proof.
  unfold F2R. rewrite IN_TO_MM_binary64. cbn [SF2R].
  change (pow2 (-48)) with (pow2 (- (48))).
  rewrite (pow2_opp 48) by lia. change (2 ^ 48)%Z with 281474976710656%Z.
  field.
Qed.

Lemma unit_roundoff : pow2 (-53) = / 9007199254740992.
Proof. apply (pow2_opp 53). lia. Qed.

Lemma pow2_51 : pow2 (-51) = 4 * pow2 (-53).
Proof.
  change (-51)%Z with (2 + -53)%Z. rewrite pow2_add, (pow2_IZR 2) by lia.
  reflexivity.
Qed.

Lemma pow2_1070 : pow2 (-1070) = 32 * pow2 (-1075).
Proof.
  change (-1070)%Z with (5 + -1075)%Z. rewrite pow2_add, (pow2_IZR 5) by lia.
  reflexivity.
Qed.

(** Multiplying by the factor and dividing by it again, each with the
    error of one rounding. *)
Lemma there_and_back (v w z : R) :
  let c := 7149464408450662 / 281474976710656 in
  Rabs (w - v * c) <= pow2 (-53) * Rabs (v * c) + pow2 (-1075) ->
  Rabs (z - w / c) <= pow2 (-53) * Rabs (w / c) + pow2 (-1075) ->
  Rabs (z - v) <= pow2 (-51) * Rabs v + pow2 (-1070).
Proof.
  intros c. rewrite pow2_51, pow2_1070, unit_roundoff.
  pose proof (pow2_pos (-1075)) as Heta. set (eta := pow2 (-1075)) in *.
  unfold Rdiv at 1 2. rewrite !Rabs_mult.
  assert (Hc : 0 < c) by (unfold c; lra).
  assert (Hic : 0 < / c) by (apply Rinv_0_lt_compat, Hc).
  rewrite (Rabs_right c), (Rabs_right (/ c)) by lra.
  unfold c. intros H1 H2. split_Rabs; lra.
Qed.

Lemma back_and_there (v w z : R) :
  let c := 7149464408450662 / 281474976710656 in
  Rabs (w - v / c) <= pow2 (-53) * Rabs (v / c) + pow2 (-1075) ->
  Rabs (z - w * c) <= pow2 (-53) * Rabs (w * c) + pow2 (-1075) ->
  Rabs (z - v) <= pow2 (-51) * Rabs v + pow2 (-1070).
Proof.
  intros c. rewrite pow2_51, pow2_1070, unit_roundoff.
  pose proof (pow2_pos (-1075)) as Heta. set (eta := pow2 (-1075)) in *.
  unfold Rdiv at 1 2. rewrite !Rabs_mult.
  assert (Hc : 0 < c) by (unfold c; lra).
  assert (Hic : 0 < / c) by (apply Rinv_0_lt_compat, Hc).
  rewrite (Rabs_right c), (Rabs_right (/ c)) by lra.
  unfold c. intros H1 H2. split_Rabs; lra.
Qed.

Section Inversion.
Context {A : Arith}.

Lemma convert_in_mm_inv (v w : num) :
  Script.convert v (js "in") (js "mm") = JNum w ->
  isFinite v = true /\ w = (v * Script.IN_TO_MM)%num.
Proof.
  unfold Script.convert. destruct (isFinite v); cbn; intros H;
    [injection H as <-; split; reflexivity|discriminate].
Qed.

Lemma convert_mm_in_inv (v w : num) :
  Script.convert v (js "mm") (js "in") = JNum w ->
  isFinite v = true /\ w = (v / Script.IN_TO_MM)%num.
Proof.
  unfold Script.convert. destruct (isFinite v); cbn; intros H;
    [injection H as <-; split; reflexivity|discriminate].
Qed.

End Inversion.

(** The two ways round for a length. *)
Lemma in_mm_in_bound (M : MathLib) (v w z : float) :
  Script.convert (A := DoubleArith M) v (js "in") (js "mm") = JNum w ->
  Script.convert (A := DoubleArith M) w (js "mm") (js "in") = JNum z ->
  is_finite z = true ->
  Rabs (F2R z - F2R v) <= pow2 (-51) * Rabs (F2R v) + pow2 (-1070).
Proof.
  intros H1 H2 Hz.
  apply (convert_in_mm_inv (A := DoubleArith M)) in H1. destruct H1 as [Hv ->].
  apply (convert_mm_in_inv (A := DoubleArith M)) in H2. destruct H2 as [Hw ->].
  destruct (mul_error v (Script.IN_TO_MM (A := DoubleArith M)) Hw) as (_ & _ & E1).
  destruct (div_error _ (Script.IN_TO_MM (A := DoubleArith M)) _ _ _
              (IN_TO_MM_binary64 M) Hz) as (_ & E2).
  rewrite (IN_TO_MM_real M) in E1, E2.
  exact (there_and_back _ _ _ E1 E2).
Qed.

Lemma mm_in_mm_bound (M : MathLib) (v w z : float) :
  Script.convert (A := DoubleArith M) v (js "mm") (js "in") = JNum w ->
  Script.convert (A := DoubleArith M) w (js "in") (js "mm") = JNum z ->
  is_finite z = true ->
  Rabs (F2R z - F2R v) <= pow2 (-51) * Rabs (F2R v) + pow2 (-1070).
Proof.
  intros H1 H2 Hz.
  apply (convert_mm_in_inv (A := DoubleArith M)) in H1. destruct H1 as [Hv ->].
  apply (convert_in_mm_inv (A := DoubleArith M)) in H2. destruct H2 as [Hw ->].
  destruct (div_error v (Script.IN_TO_MM (A := DoubleArith M)) _ _ _
              (IN_TO_MM_binary64 M) Hw) as (_ & E1).
  destruct (mul_error _ (Script.IN_TO_MM (A := DoubleArith M)) Hz) as (_ & _ & E2).
  rewrite (IN_TO_MM_real M) in E1, E2.
  exact (back_and_there _ _ _ E1 E2).
Qed.

(** In binary64 a length that is converted to the other unit and back
    comes out within [2^-51] of its value, relatively, and [2^-1070]
    absolutely (which matters for subnormal lengths only): two roundings to
    the nearest, one in each direction. *)
Theorem convert_length_round_trip (M : MathLib) (v w z : float)
    (from to : jsstring) :
  (from = js "in" /\ to = js "mm") \/ (from = js "mm" /\ to = js "in") ->
  Script.convert (A := DoubleArith M) v from to = JNum w ->
  Script.convert (A := DoubleArith M) w to from = JNum z ->
  is_finite z = true ->
  Rabs (F2R z - F2R v) <= pow2 (-51) * Rabs (F2R v) + pow2 (-1070).
Proof.
  intros [[-> ->]|[-> ->]] H1 H2 Hz.
  - exact (in_mm_in_bound M v w z H1 H2 Hz).
  - exact (mm_in_mm_bound M v w z H1 H2 Hz).
Qed.

Lemma convert_length_round_trip_witness :
  Rabs (F2R 2.5%float - F2R 2.5%float)
  <= pow2 (-51) * Rabs (F2R 2.5%float) + pow2 (-1070).
Proof.
  exact (convert_length_round_trip taylorMath 2.5%float 63.5%float 2.5%float
           (js "in") (js "mm") (or_introl (conj eq_refl eq_refl))
           eq_refl eq_refl eq_refl).
Defined.

(** *** Temperatures *)

Lemma pow2_50 : pow2 (-50) = 8 * pow2 (-53).
Proof.
  change (-50)%Z with (3 + -53)%Z. rewrite pow2_add, (pow2_IZR 3) by lia.
  reflexivity.
Qed.

Lemma pow2_45 : pow2 (-45) = 256 * pow2 (-53).
Proof.
  change (-45)%Z with (8 + -53)%Z. rewrite pow2_add, (pow2_IZR 8) by lia.
  reflexivity.
Qed.

Lemma least_below_roundoff : 0 < pow2 (-1075) <= / 9007199254740992.
Proof.
  split; [apply pow2_pos|]. rewrite <- unit_roundoff. apply pow2_le. lia.
Qed.

(** Celsius to Fahrenheit and back: six operations, each with the error of
    one rounding. *)
Lemma celsius_there_and_back (v t1 t2 f s1 s2 z : R) :
  Rabs (t1 - v * 9) <= pow2 (-53) * Rabs (v * 9) + pow2 (-1075) ->
  Rabs (t2 - t1 / 5) <= pow2 (-53) * Rabs (t1 / 5) + pow2 (-1075) ->
  Rabs (f - (t2 + 32)) <= pow2 (-53) * Rabs (t2 + 32) + pow2 (-1075) ->
  Rabs (s1 - (f - 32)) <= pow2 (-53) * Rabs (f - 32) + pow2 (-1075) ->
  Rabs (s2 - s1 * 5) <= pow2 (-53) * Rabs (s1 * 5) + pow2 (-1075) ->
  Rabs (z - s2 / 9) <= pow2 (-53) * Rabs (s2 / 9) + pow2 (-1075) ->
  Rabs (z - v) <= pow2 (-50) * Rabs v + pow2 (-45).
Proof.
  rewrite pow2_50, pow2_45, unit_roundoff.
  pose proof least_below_roundoff as Heta. set (eta := pow2 (-1075)) in *.
  set (u := / 9007199254740992) in *.
  assert (Hu : u = / 9007199254740992) by reflexivity. clearbody u.
  intros H1 H2 H3 H4 H5 H6.
  assert (B1 : Rabs (t1 - 9 * v) <= 9 * u * Rabs v + eta).
  { clear - H1 Heta Hu. subst u. split_Rabs; lra. }
  assert (B2 : Rabs (t2 - 18 / 10 * v) <= 4 * u * Rabs v + 2 * eta).
  { clear - B1 H2 Heta Hu. subst u. split_Rabs; lra. }
  assert (B3 : Rabs (f - (18 / 10 * v + 32)) <= 6 * u * Rabs v + 33 * u + 4 * eta).
  { clear - B2 H3 Heta Hu. subst u. split_Rabs; lra. }
  assert (B4 : Rabs (s1 - 18 / 10 * v) <= 8 * u * Rabs v + 34 * u + 6 * eta).
  { clear - B3 H4 Heta Hu. subst u. split_Rabs; lra. }
  assert (B5 : Rabs (s2 - 9 * v) <= 50 * u * Rabs v + 171 * u + 32 * eta).
  { clear - B4 H5 Heta Hu. subst u. split_Rabs; lra. }
  clear - B5 H6 Heta Hu. subst u. split_Rabs; lra.
Qed.

(** Fahrenheit to Celsius and back. *)
Lemma fahrenheit_there_and_back (v s1 s2 c t1 t2 z : R) :
  Rabs (s1 - (v - 32)) <= pow2 (-53) * Rabs (v - 32) + pow2 (-1075) ->
  Rabs (s2 - s1 * 5) <= pow2 (-53) * Rabs (s1 * 5) + pow2 (-1075) ->
  Rabs (c - s2 / 9) <= pow2 (-53) * Rabs (s2 / 9) + pow2 (-1075) ->
  Rabs (t1 - c * 9) <= pow2 (-53) * Rabs (c * 9) + pow2 (-1075) ->
  Rabs (t2 - t1 / 5) <= pow2 (-53) * Rabs (t1 / 5) + pow2 (-1075) ->
  Rabs (z - (t2 + 32)) <= pow2 (-53) * Rabs (t2 + 32) + pow2 (-1075) ->
  Rabs (z - v) <= pow2 (-50) * Rabs v + pow2 (-45).
Proof.
  rewrite pow2_50, pow2_45, unit_roundoff.
  pose proof least_below_roundoff as Heta. set (eta := pow2 (-1075)) in *.
  set (u := / 9007199254740992) in *.
  assert (Hu : u = / 9007199254740992) by reflexivity. clearbody u.
  intros H1 H2 H3 H4 H5 H6.
  assert (B1 : Rabs (s1 - (v - 32)) <= u * Rabs v + 32 * u + eta).
  { clear - H1 Heta Hu. subst u. split_Rabs; lra. }
  assert (B2 : Rabs (s2 - 5 * (v - 32)) <= 11 * u * Rabs v + 321 * u + 7 * eta).
  { clear - B1 H2 Heta Hu. subst u. split_Rabs; lra. }
  assert (B3 : Rabs (c - 5 / 9 * (v - 32)) <= 2 * u * Rabs v + 54 * u + 2 * eta).
  { clear - B2 H3 Heta Hu. subst u. split_Rabs; lra. }
  assert (B4 : Rabs (t1 - 5 * (v - 32)) <= 24 * u * Rabs v + 647 * u + 20 * eta).
  { clear - B3 H4 Heta Hu. subst u. split_Rabs; lra. }
  assert (B5 : Rabs (t2 - (v - 32)) <= 6 * u * Rabs v + 162 * u + 6 * eta).
  { clear - B4 H5 Heta Hu. subst u. split_Rabs; lra. }
  clear - B5 H6 Heta Hu. subst u. split_Rabs; lra.
Qed.

(** The constants of the two formulas are exact in binary64. *)
Lemma nine_binary64 :
  Prim2SF (Q2F 9) = S754_finite false 5066549580791808 (-49).
Proof. vm_compute. reflexivity. Qed.

Lemma five_binary64 :
  Prim2SF (Q2F 5) = S754_finite false 5629499534213120 (-50).
Proof. vm_compute. reflexivity. Qed.

Lemma thirty_two_binary64 :
  Prim2SF (Q2F 32) = S754_finite false 4503599627370496 (-47).
Proof. vm_compute. reflexivity. Qed.

Lemma nine_real : F2R (Q2F 9) = 9.
Proof.
  unfold F2R. rewrite nine_binary64. cbn [SF2R].
  change (pow2 (-49)) with (pow2 (- (49))).
  rewrite (pow2_opp 49) by lia. change (2 ^ 49)%Z with 562949953421312%Z.
  field.
Qed.

Lemma five_real : F2R (Q2F 5) = 5.
Proof.
  unfold F2R. rewrite five_binary64. cbn [SF2R].
  change (pow2 (-50)) with (pow2 (- (50))).
  rewrite (pow2_opp 50) by lia. change (2 ^ 50)%Z with 1125899906842624%Z.
  field.
Qed.

Lemma thirty_two_real : F2R (Q2F 32) = 32.
Proof.
  unfold F2R. rewrite thirty_two_binary64. cbn [SF2R].
  change (pow2 (-47)) with (pow2 (- (47))).
  rewrite (pow2_opp 47) by lia. change (2 ^ 47)%Z with 140737488355328%Z.
  field.
Qed.

Section TemperatureInversion.
Context {A : Arith}.
Local Open Scope num_scope.

Lemma convert_C_F_inv (v w : num) :
  Script.convert v (js "C") (js "F") = JNum w ->
  isFinite v = true /\ w = v * #9 / #5 + #32.
Proof.
  unfold Script.convert. destruct (isFinite v); cbn; intros H;
    [injection H as <-; split; reflexivity|discriminate].
Qed.

Lemma convert_F_C_inv (v w : num) :
  Script.convert v (js "F") (js "C") = JNum w ->
  isFinite v = true /\ w = (v - #32) * #5 / #9.
Proof.
  unfold Script.convert. destruct (isFinite v); cbn; intros H;
    [injection H as <-; split; reflexivity|discriminate].
Qed.

End TemperatureInversion.

(** The two ways round for a temperature. *)
Lemma C_F_C_bound (M : MathLib) (v w z : float) :
  Script.convert (A := DoubleArith M) v (js "C") (js "F") = JNum w ->
  Script.convert (A := DoubleArith M) w (js "F") (js "C") = JNum z ->
  is_finite z = true ->
  Rabs (F2R z - F2R v) <= pow2 (-50) * Rabs (F2R v) + pow2 (-45).
Proof.
  intros H1 H2 Hz.
  apply (convert_C_F_inv (A := DoubleArith M)) in H1. destruct H1 as [Hv ->].
  apply (convert_F_C_inv (A := DoubleArith M)) in H2. destruct H2 as [Hw ->].
  revert Hv Hw Hz. unfold DoubleArith. unfold_arith. intros Hv Hw Hz.
  destruct (div_error _ (Q2F 9) _ _ _ nine_binary64 Hz) as (Hs2 & E6).
  destruct (mul_error _ (Q2F 5) Hs2) as (Hs1 & _ & E5).
  destruct (sub_error _ (Q2F 32) Hs1) as (_ & _ & E4).
  destruct (add_error _ (Q2F 32) Hw) as (Ht2 & _ & E3).
  destruct (div_error _ (Q2F 5) _ _ _ five_binary64 Ht2) as (Ht1 & E2).
  destruct (mul_error v (Q2F 9) Ht1) as (_ & _ & E1).
  rewrite nine_real in E1, E6. rewrite five_real in E2, E5.
  rewrite thirty_two_real in E3, E4.
  exact (celsius_there_and_back _ _ _ _ _ _ _ E1 E2 E3 E4 E5 E6).
Qed.

Lemma F_C_F_bound (M : MathLib) (v w z : float) :
  Script.convert (A := DoubleArith M) v (js "F") (js "C") = JNum w ->
  Script.convert (A := DoubleArith M) w (js "C") (js "F") = JNum z ->
  is_finite z = true ->
  Rabs (F2R z - F2R v) <= pow2 (-50) * Rabs (F2R v) + pow2 (-45).
Proof.
  intros H1 H2 Hz.
  apply (convert_F_C_inv (A := DoubleArith M)) in H1. destruct H1 as [Hv ->].
  apply (convert_C_F_inv (A := DoubleArith M)) in H2. destruct H2 as [Hw ->].
  revert Hv Hw Hz. unfold DoubleArith. unfold_arith. intros Hv Hw Hz.
  destruct (add_error _ (Q2F 32) Hz) as (Ht2 & _ & E6).
  destruct (div_error _ (Q2F 5) _ _ _ five_binary64 Ht2) as (Ht1 & E5).
  destruct (mul_error _ (Q2F 9) Ht1) as (_ & _ & E4).
  destruct (div_error _ (Q2F 9) _ _ _ nine_binary64 Hw) as (Hs2 & E3).
  destruct (mul_error _ (Q2F 5) Hs2) as (Hs1 & _ & E2).
  destruct (sub_error v (Q2F 32) Hs1) as (_ & _ & E1).
  rewrite thirty_two_real in E1, E6. rewrite five_real in E2, E5.
  rewrite nine_real in E3, E4.
  exact (fahrenheit_there_and_back _ _ _ _ _ _ _ E1 E2 E3 E4 E5 E6).
Qed.

(** In binary64 a temperature that is converted to the other unit and back
    comes out within [2^-50] of its value, relatively, and [2^-45]
    absolutely: six roundings to the nearest, and the offset of 32 that
    is added and taken away. *)
Theorem convert_temperature_round_trip (M : MathLib) (v w z : float)
    (from to : jsstring) :
  (from = js "C" /\ to = js "F") \/ (from = js "F" /\ to = js "C") ->
  Script.convert (A := DoubleArith M) v from to = JNum w ->
  Script.convert (A := DoubleArith M) w to from = JNum z ->
  is_finite z = true ->
  Rabs (F2R z - F2R v) <= pow2 (-50) * Rabs (F2R v) + pow2 (-45).
Proof.
  intros [[-> ->]|[-> ->]] H1 H2 Hz.
  - exact (C_F_C_bound M v w z H1 H2 Hz).
  - exact (F_C_F_bound M v w z H1 H2 Hz).
Qed.

Lemma convert_temperature_round_trip_witness :
  Rabs (F2R 20%float - F2R 20%float)
  <= pow2 (-50) * Rabs (F2R 20%float) + pow2 (-45).
Proof.
  exact (convert_temperature_round_trip taylorMath 20%float 68%float 20%float
           (js "C") (js "F") (or_introl (conj eq_refl eq_refl))
           eq_refl eq_refl eq_refl).
Defined.

(** Claim C9, as amended: for a finite [v] and a supported pair, the first
    conversion gives a Number [w].  When [w] overflowed, the conversion
    back gives the empty string.  When [w] is finite the conversion back
    gives a Number [u]; in binary64, whenever [u] is finite, it is [v]
    within [2^-51 |v| + 2^-1070] for a length and within
    [2^-50 |v| + 2^-45] for a temperature; in exact real arithmetic it is
    [v]. *)
Theorem convert_round_trip :
  (forall (A : Arith) (v : num) (from to : jsstring),
     isFinite v = true -> supportedPair from to ->
     exists w, Script.convert v from to = JNum w
       /\ (isFinite w = true -> exists u, Script.convert w to from = JNum u)
       /\ (isFinite w = false -> Script.convert w to from = JStr emptyString))
  /\ (forall (M : MathLib) (v w u : float) (from to : jsstring),
       Script.convert (A := DoubleArith M) v from to = JNum w ->
       Script.convert (A := DoubleArith M) w to from = JNum u ->
       is_finite u = true ->
       ((from = js "in" /\ to = js "mm") \/ (from = js "mm" /\ to = js "in") ->
        Rabs (F2R u - F2R v) <= pow2 (-51) * Rabs (F2R v) + pow2 (-1070))
       /\ ((from = js "C" /\ to = js "F") \/ (from = js "F" /\ to = js "C") ->
           Rabs (F2R u - F2R v) <= pow2 (-50) * Rabs (F2R v) + pow2 (-45)))
  /\ (forall (v : R) (from to : jsstring),
       supportedPair from to ->
       exists w : R, RealModel.convert v from to = JNum w
                     /\ RealModel.convert w to from = JNum v).
Proof.
  split; [|split].
  - intros A. apply Units.convert_round_trip_shape.
  - intros M v w u from to H1 H2 Hu. split.
    + intros [[-> ->]|[-> ->]].
      * exact (in_mm_in_bound M v w u H1 H2 Hu).
      * exact (mm_in_mm_bound M v w u H1 H2 Hu).
    + intros [[-> ->]|[-> ->]].
      * exact (C_F_C_bound M v w u H1 H2 Hu).
      * exact (F_C_F_bound M v w u H1 H2 Hu).
  - apply Units.convert_round_trip_real.
Qed.

Lemma convert_round_trip_witness :
  (exists w, Script.convert (A := DoubleArith taylorMath)
               1%float (js "in") (js "mm") = JNum w)
  /\ Rabs (F2R 2.5%float - F2R 2.5%float)
     <= pow2 (-51) * Rabs (F2R 2.5%float) + pow2 (-1070)
  /\ Rabs (F2R 20%float - F2R 20%float)
     <= pow2 (-50) * Rabs (F2R 20%float) + pow2 (-45)
  /\ (exists w : R, RealModel.convert 1 (js "in") (js "mm") = JNum w
                    /\ RealModel.convert w (js "mm") (js "in") = JNum 1).
Proof.
  split; [|split; [|split]].
  - destruct (proj1 convert_round_trip (DoubleArith taylorMath)
               1%float (js "in") (js "mm") eq_refl Units.in_mm_supported)
      as (w & Hw & _).
    exists w. exact Hw.
  - exact (proj1 (proj1 (proj2 convert_round_trip) taylorMath
                    2.5%float 63.5%float 2.5%float (js "in") (js "mm")
                    eq_refl eq_refl eq_refl)
             (or_introl (conj eq_refl eq_refl))).
  - exact (proj2 (proj1 (proj2 convert_round_trip) taylorMath
                    20%float 68%float 20%float (js "C") (js "F")
                    eq_refl eq_refl eq_refl)
             (or_introl (conj eq_refl eq_refl))).
  - exact (proj2 (proj2 convert_round_trip) 1%R (js "in") (js "mm")
             Units.in_mm_supported).
Defined.

End RoundTrips.

(** ** What the calculation reads after the input listener *)

Module ListenerFacts.
Import Floats.
Import Strings Script Form Examples.

(** The listener of a size field and [readOrig] of [runCalculation]: the
    size that the calculation reads is the Number of the entry cut to three
    decimals when that is finite, as long as the host reads it back from
    its string, and 0 when the entry is blank or the cut entry is no finite
    Number (the stored original is then the empty string, and [Number] of
    it is 0); it is finite in any case. *)
Theorem size_read_after_input (M : DoubleModel.MathLib)
  (numberToString : float -> jsstring) (unit tempUnit id : jsstring)
  (inp : element) (doc : document) :
  streq id (js "alpha") = false -> isTempId id = false ->
  doc id = Some (onInput M numberToString unit tempUnit id inp) ->
  let num := StringToNumber (limitDecimals inp.(value)) in
  (is_finite num = true -> StringToNumber (numberToString num) = num) ->
  readOrig doc id
  = (if streq (trim inp.(value)) emptyString || negb (is_finite num)
     then 0%float else num)
  /\ is_finite (readOrig doc id) = true.
Proof.
  intros Hid Ht Hd num Hback.
  assert (E : readOrig doc id
              = if streq (trim inp.(value)) emptyString || negb (is_finite num)
                then 0%float else num).
  { unfold readOrig. rewrite Hd. unfold onInput.
    destruct (streq (trim inp.(value)) emptyString); [reflexivity|].
    rewrite Hid. cbn [orb]. fold num.
    destruct (is_finite num) eqn:Hf; cbn [negb]; [|reflexivity].
    rewrite Ht. cbn [originalValue Catalog.ToNumber]. apply Hback. reflexivity. }
  split; [exact E|]. rewrite E.
  destruct (streq (trim inp.(value)) emptyString); [reflexivity|].
  cbn [orb]. destruct (is_finite num) eqn:Hf; [exact Hf|reflexivity].
Qed.

(** An entry that passes the validation gate and is read as 0: the exponent
    of 1.12e5 is cut behind its [e]. *)
Lemma size_read_after_input_witness :
  let el := onInput DoubleModel.taylorMath (fun _ => js "0") (js "mm") (js "°C")
              (js "glandWidth") (typed (field emptyString emptyString) (js "1.12e5")) in
  isValidNumberField (Some el) = true
  /\ readOrig (fun _ => Some el) (js "glandWidth") = 0%float.
Proof.
  split; [reflexivity|].
  refine (proj1 (size_read_after_input DoubleModel.taylorMath (fun _ => js "0")
                   (js "mm") (js "°C") (js "glandWidth")
                   (typed (field emptyString emptyString) (js "1.12e5"))
                   (fun _ => Some _) eq_refl eq_refl eq_refl _)).
  intros H. discriminate H.
Defined.

End ListenerFacts.
